(** * exports-cleanup: the export analyzer, embedded and verified

    A shallow embedding of [src/analyzer/export-analyzer.ts]: the
    regular-expression scans that extract exports and imports from a file's
    text, the import path resolver, the usage matcher and the aggregation
    into a [ScanResult].

    Strings are JavaScript strings: sequences of UTF-16 code units, here
    [list N].  The regular expressions of the source are written in a small
    abstract syntax and run by a backtracking matcher with the priorities of
    the ECMAScript one (greedy quantifiers, ordered alternation, leftmost
    match).  The file system, [fast-glob] and Node's [path] module are
    outside the repository: the analyzer is parameterised by them. *)

From Stdlib Require Import String Ascii.
From Stdlib Require Import List NArith ZArith Arith Bool Lia.
From Stdlib Require Import Permutation Sorted DecimalString.
Import ListNotations.


(* ================================================================= *)
(** ** JavaScript strings *)

Definition char := N.
Definition jsstring := list char.

Fixpoint js (s : string) : jsstring :=
  match s with
  | EmptyString => []
  | String a r => N_of_ascii a :: js r
  end.

Definition LF : char := 10%N.
Definition DQUOTE : char := 34%N.
Definition SQUOTE : char := 39%N.

Fixpoint str_eqb (a b : jsstring) : bool :=
  match a, b with
  | [], [] => true
  | x :: a', y :: b' => N.eqb x y && str_eqb a' b'
  | _, _ => false
  end.

Fixpoint startsWith (s p : jsstring) : bool :=
  match p, s with
  | [], _ => true
  | y :: p', x :: s' => N.eqb x y && startsWith s' p'
  | _ :: _, [] => false
  end.

(** [a <= c <= b] on code units. *)
Definition between (a b c : char) : bool := (N.leb a c && N.leb c b)%bool.

(** [\w] without the [i] and [u] flags: [A-Za-z0-9_]. *)
Definition isWord (c : char) : bool :=
  (between 97 122 c || between 65 90 c || between 48 57 c || N.eqb c 95)%N%bool.

(** ECMAScript LineTerminator: LF, CR, U+2028, U+2029. *)
Definition isLineTerminator (c : char) : bool :=
  (N.eqb c 10 || N.eqb c 13 || N.eqb c 8232 || N.eqb c 8233)%N%bool.

(** [\s], and what [String.prototype.trim] strips: WhiteSpace and
    LineTerminator. *)
Definition isSpace (c : char) : bool :=
  (N.eqb c 9 || N.eqb c 11 || N.eqb c 12 || N.eqb c 32 || N.eqb c 160
   || N.eqb c 5760 || between 8192 8202 c || N.eqb c 8239 || N.eqb c 8287
   || N.eqb c 12288 || N.eqb c 65279 || isLineTerminator c)%N%bool.

Definition isChar (x : char) (c : char) : bool := N.eqb c x.
Definition isNot (x : char) (c : char) : bool := negb (N.eqb c x).
Definition isQuote (c : char) : bool := (N.eqb c SQUOTE || N.eqb c DQUOTE)%bool.
Definition notQuote (c : char) : bool := negb (isQuote c).

(* ================================================================= *)
(** ** Regular expressions and the backtracking matcher *)

Inductive regex : Type :=
| Eps : regex
| Chr : (char -> bool) -> regex        (* a character class *)
| Seq : regex -> regex -> regex
| Alt : regex -> regex -> regex        (* r1|r2, r1 tried first *)
| Star : regex -> regex                (* greedy r* *)
| Group : nat -> regex -> regex        (* capturing group number n *)
| Bol : regex                          (* ^ with the m flag *)
| Eol : regex                          (* $ with the m flag *)
| Eos : regex.                         (* $ without the m flag *)

Declare Scope regex_scope.
Delimit Scope regex_scope with re.
Bind Scope regex_scope with regex.
Infix ";;" := Seq (at level 61, right associativity) : regex_scope.

Definition Plus (r : regex) : regex := Seq r (Star r).      (* r+ *)
Definition Opt (r : regex) : regex := Alt r Eps.            (* r? *)

Fixpoint Lit (s : jsstring) : regex :=
  match s with
  | [] => Eps
  | x :: s' => Seq (Chr (isChar x)) (Lit s')
  end.

(** A position in the subject: its index, the code unit before it and the
    text from it on. *)
Record cursor : Type := Cur { cpos : nat; cprev : option char; crest : jsstring }.

Definition start_of (s : jsstring) : cursor := Cur 0 None s.

(** Captures: the latest binding of a group comes first. *)
Definition caps := list (nat * jsstring).

Fixpoint capture (n : nat) (cs : caps) : option jsstring :=
  match cs with
  | [] => None
  | (i, v) :: cs' => if Nat.eqb i n then Some v else capture n cs'
  end.

Definition outcome : Type := option (cursor * caps).
Definition cont : Type := cursor -> caps -> outcome.

Definition at_bol (c : cursor) : bool :=
  match cprev c with None => true | Some x => isLineTerminator x end.
Definition at_eos (c : cursor) : bool :=
  match crest c with [] => true | _ :: _ => false end.
Definition at_eol (c : cursor) : bool :=
  match crest c with [] => true | x :: _ => isLineTerminator x end.

(** The iterations of a starred expression: one more iteration first
    (greedy), an iteration that consumes nothing is not considered. *)
Fixpoint star_loop (step : cursor -> caps -> cont -> outcome)
         (fuel : nat) (c : cursor) (cs : caps) (k : cont) : outcome :=
  match fuel with
  | 0 => k c cs
  | S f =>
      match step c cs (fun c' cs' =>
                         if cpos c' <=? cpos c then None
                         else star_loop step f c' cs' k) with
      | Some r => Some r
      | None => k c cs
      end
  end.

Fixpoint m (r : regex) (c : cursor) (cs : caps) (k : cont) {struct r} : outcome :=
  match r with
  | Eps => k c cs
  | Chr p =>
      match crest c with
      | x :: s => if p x then k (Cur (S (cpos c)) (Some x) s) cs else None
      | [] => None
      end
  | Seq a b => m a c cs (fun c' cs' => m b c' cs' k)
  | Alt a b =>
      match m a c cs k with
      | Some r => Some r
      | None => m b c cs k
      end
  | Star a => star_loop (m a) (length (crest c)) c cs k
  | Group n a =>
      m a c cs (fun c' cs' =>
                  k c' ((n, firstn (cpos c' - cpos c) (crest c)) :: cs'))
  | Bol => if at_bol c then k c cs else None
  | Eol => if at_eol c then k c cs else None
  | Eos => if at_eos c then k c cs else None
  end.

Definition accept : cont := fun c cs => Some (c, cs).

(** One match: where it starts, where it ends, what it captured. *)
Record rmatch : Type := RMatch { mstart : cursor; mend : cursor; mcaps : caps }.

Definition index (x : rmatch) : nat := cpos (mstart x).
Definition group (n : nat) (x : rmatch) : option jsstring := capture n (mcaps x).

(** Matching at the cursor itself. *)
Definition match_here (r : regex) (c : cursor) : option rmatch :=
  match m r c [] accept with
  | Some (c', cs) => Some (RMatch c c' cs)
  | None => None
  end.

(** [regex.exec] from [lastIndex]: the leftmost start at or after the
    cursor at which the expression matches. *)
Fixpoint search (r : regex) (pos : nat) (prev : option char) (s : jsstring)
  : option rmatch :=
  match match_here r (Cur pos prev s) with
  | Some x => Some x
  | None =>
      match s with
      | [] => None
      | x :: s' => search r (S pos) (Some x) s'
      end
  end.

Definition exec (r : regex) (c : cursor) : option rmatch :=
  search r (cpos c) (cprev c) (crest c).

(** [while ((match = regex.exec(content)) !== null)] with the [g] flag:
    each search resumes where the previous match ended.  Every match of the
    expressions below consumes at least one code unit, so the loop runs at
    most once per code unit of the subject. *)
Fixpoint exec_loop (fuel : nat) (r : regex) (c : cursor) : list rmatch :=
  match fuel with
  | 0 => []
  | S f =>
      match exec r c with
      | None => []
      | Some x => x :: exec_loop f r (mend x)
      end
  end.

Definition matchAll (r : regex) (content : jsstring) : list rmatch :=
  exec_loop (S (length content)) r (start_of content).

(* ================================================================= *)
(** ** String operations of the source *)

Fixpoint dropWhile (p : char -> bool) (s : jsstring) : jsstring :=
  match s with
  | [] => []
  | x :: s' => if p x then dropWhile p s' else s
  end.

(** [String.prototype.trim]. *)
Definition trim (s : jsstring) : jsstring :=
  rev (dropWhile isSpace (rev (dropWhile isSpace s))).

(** [s.split(',')]: the pieces between the separators; the piece being
    read is kept reversed in [acc]. *)
Fixpoint split_on (sep : char) (acc : jsstring) (s : jsstring) : list jsstring :=
  match s with
  | [] => [rev acc]
  | x :: s' =>
      if N.eqb x sep then rev acc :: split_on sep [] s'
      else split_on sep (x :: acc) s'
  end.

Definition split_comma (s : jsstring) : list jsstring := split_on 44%N [] s.

(** [s.split(regex)] on a non-empty subject: at each index the separator is
    matched there and nowhere else; a non-empty match closes the current
    piece and the scan resumes after it ([skip] counts the code units of
    the separator still to pass); an empty match separates nothing at the
    start of a piece and closes the piece elsewhere. *)
Fixpoint split_scan (r : regex) (pos : nat) (prev : option char) (s : jsstring)
         (skip : nat) (acc : jsstring) : list jsstring :=
  match s with
  | [] => [rev acc]
  | x :: s' =>
      match skip with
      | S n => split_scan r (S pos) (Some x) s' n acc
      | 0 =>
          match match_here r (Cur pos prev s) with
          | None => split_scan r (S pos) (Some x) s' 0 (x :: acc)
          | Some mt =>
              let e := cpos (mend mt) in
              if e <=? pos then
                match acc with
                | [] => split_scan r (S pos) (Some x) s' 0 [x]
                | _ :: _ => rev acc :: split_scan r (S pos) (Some x) s' 0 [x]
                end
              else rev acc :: split_scan r (S pos) (Some x) s' (e - pos - 1) []
          end
      end
  end.

Definition split_re (r : regex) (s : jsstring) : list jsstring :=
  match s with
  | [] => match match_here r (start_of []) with Some _ => [] | None => [[]] end
  | _ :: _ => split_scan r 0 None s 0 []
  end.

(** [s.indexOf(sub, from)]; [None] stands for -1. *)
Fixpoint find_from (sub s : jsstring) (i : nat) : option nat :=
  if startsWith s sub then Some i
  else match s with
       | [] => None
       | _ :: s' => find_from sub s' (S i)
       end.

Definition indexOf (sub s : jsstring) (from : nat) : option nat :=
  let k := Nat.min from (length s) in find_from sub (skipn k s) k.

(** [s.slice(a, b)] for indices [0 <= a] and [0 <= b]. *)
Definition slice (s : jsstring) (a b : nat) : jsstring :=
  firstn (b - a) (skipn a s).

(** [parts[0]] and [parts[parts.length - 1]]; a split never returns the
    empty array for the separators used here, [undefined] is not modelled. *)
Definition first_part (parts : list jsstring) : jsstring := hd [] parts.
Definition last_part (parts : list jsstring) : jsstring := last parts [].

(* ================================================================= *)
(** ** The data model ([src/types/index.ts]) *)

Inductive ExportType : Type :=
| TFunction | TClass | TConst | TType | TInterface | TEnum | TDefault | TVariable.

Definition ExportType_eqb (a b : ExportType) : bool :=
  match a, b with
  | TFunction, TFunction | TClass, TClass | TConst, TConst | TType, TType
  | TInterface, TInterface | TEnum, TEnum | TDefault, TDefault
  | TVariable, TVariable => true
  | _, _ => false
  end.

Module ExportedItem.
Record t : Type := Make {
    name : jsstring;
    type : ExportType;
    file : jsstring;
    line : nat;
    isDefault : bool;
    estimatedSize : nat
}.
End ExportedItem.

Module ImportReference.
Record t : Type := Make {
    name : jsstring;
    fromFile : jsstring;
    toFile : jsstring;
    line : nat;
    isDefault : bool
}.
End ImportReference.

Module ExportAnalysis.
Record t : Type := Make {
    export : ExportedItem.t;
    usageCount : nat;
    usedIn : list jsstring;
    isUnused : bool
}.
End ExportAnalysis.

Module FileAnalysis.
Record t : Type := Make {
    file : jsstring;
    exports : list ExportAnalysis.t;
    unusedCount : nat;
    usedCount : nat
}.
End FileAnalysis.

Module ScanResult.
Record t : Type := Make {
    files : list FileAnalysis.t;
    totalExports : nat;
    unusedExports : nat;
    usedExports : nat;
    estimatedSavings : nat
}.
End ScanResult.

(* ================================================================= *)
(** ** Export extraction *)

(** [Math.round(code.length * 0.6)].  [0.6 n] is never half-way between
    two integers ([6 n] is even), and the binary64 product rounds like
    [0.6 n] itself for every length below [2^49]: the result is
    [(6 n + 5) / 10] rounded down ([estimateSize_is_binary64] below). *)
Definition estimateSize (code : jsstring) : nat := (6 * length code + 5) / 10.

Definition ws : regex := Chr isSpace.
Definition word : regex := Chr isWord.
Definition LBRACE : char := 123%N.
Definition RBRACE : char := 125%N.

Local Open Scope regex_scope.

(** [/^export\s+KEYWORD\s+(\w+)/gm] *)
Definition export_decl (keyword : string) : regex :=
  Bol ;; Lit (js "export") ;; Plus ws ;; Lit (js keyword) ;; Plus ws ;;
  Group 1 (Plus word).

(** [/^export\s+async\s+function\s+(\w+)/gm] *)
Definition export_async_function : regex :=
  Bol ;; Lit (js "export") ;; Plus ws ;; Lit (js "async") ;; Plus ws ;;
  Lit (js "function") ;; Plus ws ;; Group 1 (Plus word).

(** [/^export\s+KEYWORD\s+(\w+)\s*[=:]/gm] *)
Definition export_binding (keyword : string) : regex :=
  Bol ;; Lit (js "export") ;; Plus ws ;; Lit (js keyword) ;; Plus ws ;;
  Group 1 (Plus word) ;; Star ws ;;
  Chr (fun c => N.eqb c 61 || N.eqb c 58)%N%bool.

(** [/^export\s+default\s+(?:function|class)\s+(\w+)?/gm] *)
Definition export_default_decl : regex :=
  Bol ;; Lit (js "export") ;; Plus ws ;; Lit (js "default") ;; Plus ws ;;
  Alt (Lit (js "function")) (Lit (js "class")) ;; Plus ws ;;
  Opt (Group 1 (Plus word)).

(** [/^export\s+default\s+(\w+)\s*;?$/gm] *)
Definition export_default_name : regex :=
  Bol ;; Lit (js "export") ;; Plus ws ;; Lit (js "default") ;; Plus ws ;;
  Group 1 (Plus word) ;; Star ws ;; Opt (Chr (isChar 59%N)) ;; Eol.

Definition patterns : list (regex * ExportType) :=
  [ (export_decl "function", TFunction);
    (export_async_function, TFunction);
    (export_decl "class", TClass);
    (export_binding "const", TConst);
    (export_binding "let", TVariable);
    (export_binding "var", TVariable);
    (export_decl "type", TType);
    (export_decl "interface", TInterface);
    (export_decl "enum", TEnum);
    (export_default_decl, TDefault);
    (export_default_name, TDefault) ].

(** [/^export\s*\{([^}]+)\}/gm] *)
Definition namedExportRegex : regex :=
  Bol ;; Lit (js "export") ;; Star ws ;; Chr (isChar LBRACE) ;;
  Group 1 (Plus (Chr (isNot RBRACE))) ;; Chr (isChar RBRACE).

(** [/\s+as\s+/] *)
Definition asRegex : regex := Plus ws ;; Lit (js "as") ;; Plus ws.

Local Close Scope regex_scope.

(** The loop of [getLineNumber]: one plus the line feeds before [index]. *)
Definition getLineNumber (content : jsstring) (index : nat) : nat :=
  fold_left (fun line x => if N.eqb x LF then S line else line)
            (firstn index content) 1.

(** [match[1] || 'default']: an absent or empty capture gives the marker. *)
Definition name_or_default (g : option jsstring) : jsstring :=
  match g with
  | Some (x :: s) => x :: s
  | _ => js "default"
  end.

(** The text from the match to the next blank line or the end of file. *)
Definition code_of (content : jsstring) (index : nat) : jsstring :=
  let endIndex := match indexOf [LF; LF] content index with
                  | Some i => i
                  | None => length content
                  end in
  slice content index endIndex.

(** The item pushed for one match of a declaration pattern. *)
Definition declared_item (content filePath : jsstring) (type : ExportType)
           (mt : rmatch) : ExportedItem.t :=
  ExportedItem.Make
    (name_or_default (group 1 mt))
    type
    filePath
    (getLineNumber content (index mt))
    (ExportType_eqb type TDefault)
    (estimateSize (code_of content (index mt))).

(** The first loop of [extractExports]: pattern by pattern, match by match. *)
Definition declared_exports (content filePath : jsstring) : list ExportedItem.t :=
  flat_map (fun p => map (declared_item content filePath (snd p))
                         (matchAll (fst p) content))
           patterns.

(** The names of an [export { ... }] list: the last [as] part of each. *)
Definition export_list_names (inner : jsstring) : list jsstring :=
  map (fun n => trim (last_part (split_re asRegex (trim n)))) (split_comma inner).

Definition has_name (exports : list ExportedItem.t) (name : jsstring) : bool :=
  existsb (fun e => str_eqb (ExportedItem.name e) name) exports.

Definition is_empty (s : jsstring) : bool :=
  match s with [] => true | _ :: _ => false end.

(** [if (name && !exports.some(e => e.name === name)) exports.push(...)] *)
Definition push_listed (filePath : jsstring) (line : nat)
           (exports : list ExportedItem.t) (name : jsstring) : list ExportedItem.t :=
  if negb (is_empty name) && negb (has_name exports name)
  then exports ++ [ExportedItem.Make name TConst filePath line false 100]
  else exports.

Definition push_export_list (content filePath : jsstring)
           (exports : list ExportedItem.t) (mt : rmatch) : list ExportedItem.t :=
  let names := export_list_names (match group 1 mt with Some g => g | None => [] end) in
  let line := getLineNumber content (index mt) in
  fold_left (push_listed filePath line) names exports.

Definition extractExports (content filePath : jsstring) : list ExportedItem.t :=
  fold_left (push_export_list content filePath)
            (matchAll namedExportRegex content)
            (declared_exports content filePath).

(* ================================================================= *)
(** ** The platform

    What the analyzer calls outside the repository: Node's [fs] and [path]
    modules and [fast-glob].  [readFileSync] gives the text of a readable
    file and [None] where the call throws; [glob] gives the file list and
    [None] where the returned promise rejects. *)

Section Analyzer.

Variable readFileSync : jsstring -> option jsstring.
Variable dirname : jsstring -> jsstring.
Variable resolve : jsstring -> jsstring -> jsstring.
Variable glob :
  list jsstring (* patterns *) -> jsstring (* cwd *) ->
  list jsstring (* ignore *) -> option (list jsstring).

(* ----------------------------------------------------------------- *)
(** *** Import path resolution *)

Definition extensions : list jsstring :=
  [js ".ts"; js ".tsx"; js ".js"; js ".jsx"; js ".mjs";
   js "/index.ts"; js "/index.tsx"; js "/index.js"].

(** The [for (const ext of extensions)] loop: the first candidate that can
    be read is returned. *)
Fixpoint probe (resolved : jsstring) (exts : list jsstring) : jsstring :=
  match exts with
  | [] => resolved
  | ext :: rest =>
      let withExt := resolved ++ ext in
      match readFileSync withExt with
      | Some _ => withExt
      | None => probe resolved rest
      end
  end.

Definition resolveImportPath (importPath fromFile rootDir : jsstring) : jsstring :=
  let dir := dirname fromFile in
  let resolved := resolve dir importPath in
  probe resolved extensions.

(* ----------------------------------------------------------------- *)
(** *** Import extraction *)

Local Open Scope regex_scope.

Definition from_clause : regex :=
  Lit (js "from") ;; Star ws ;; Chr isQuote ;;
  Group 2 (Plus (Chr notQuote)) ;; Chr isQuote.

(** [/import\s*\{([^}]+)\}\s*from\s*Q([^Q]+)Q/g], where [Q] stands for
    the class of the two quote characters. *)
Definition namedImportRegex : regex :=
  Lit (js "import") ;; Star ws ;; Chr (isChar LBRACE) ;;
  Group 1 (Plus (Chr (isNot RBRACE))) ;; Chr (isChar RBRACE) ;;
  Star ws ;; from_clause.

(** [/import\s+(\w+)(?:\s*,\s*\{[^}]*\})?\s+from\s*Q([^Q]+)Q/g] *)
Definition defaultImportRegex : regex :=
  Lit (js "import") ;; Plus ws ;; Group 1 (Plus word) ;;
  Opt (Star ws ;; Chr (isChar 44%N) ;; Star ws ;; Chr (isChar LBRACE) ;;
       Star (Chr (isNot RBRACE)) ;; Chr (isChar RBRACE)) ;;
  Plus ws ;; from_clause.

(** [/import\s*\*\s*as\s+(\w+)\s+from\s*Q([^Q]+)Q/g] *)
Definition namespaceImportRegex : regex :=
  Lit (js "import") ;; Star ws ;; Chr (isChar 42%N) ;; Star ws ;;
  Lit (js "as") ;; Plus ws ;; Group 1 (Plus word) ;; Plus ws ;; from_clause.

(** The array [importPatterns] of the source.  It is declared and never
    read: the scans below use [namedImportRegex] and [defaultImportRegex]
    only. *)
Definition importPatterns : list regex :=
  [ namedImportRegex;
    Lit (js "import") ;; Plus ws ;; Group 1 (Plus word) ;; Plus ws ;; from_clause;
    namespaceImportRegex ].

Local Close Scope regex_scope.

(** The names of an [import { ... }] list: the first [as] part of each. *)
Definition import_list_names (inner : jsstring) : list jsstring :=
  map (fun n => trim (first_part (split_re asRegex (trim n)))) (split_comma inner).

Definition group_or_empty (n : nat) (mt : rmatch) : jsstring :=
  match group n mt with Some g => g | None => [] end.

(** [fromPath.startsWith('.') || fromPath.startsWith('/')] *)
Definition is_project_path (fromPath : jsstring) : bool :=
  startsWith fromPath (js ".") || startsWith fromPath (js "/").

(** One iteration of the named-import loop. *)
Definition named_imports_of (content filePath rootDir : jsstring) (mt : rmatch)
  : list ImportReference.t :=
  let names := import_list_names (group_or_empty 1 mt) in
  let fromPath := group_or_empty 2 mt in
  let line := getLineNumber content (index mt) in
  if negb (is_project_path fromPath) then []
  else
    let resolvedPath := resolveImportPath fromPath filePath rootDir in
    map (fun name => ImportReference.Make name resolvedPath filePath line false)
        (filter (fun name => negb (is_empty name)) names).

(** One iteration of the default-import loop. *)
Definition default_import_of (content filePath rootDir : jsstring) (mt : rmatch)
  : list ImportReference.t :=
  let fromPath := group_or_empty 2 mt in
  let line := getLineNumber content (index mt) in
  if negb (is_project_path fromPath) then []
  else
    let resolvedPath := resolveImportPath fromPath filePath rootDir in
    [ImportReference.Make (js "default") resolvedPath filePath line true].

Definition extractImports (content filePath rootDir : jsstring)
  : list ImportReference.t :=
  flat_map (named_imports_of content filePath rootDir)
           (matchAll namedImportRegex content)
  ++ flat_map (default_import_of content filePath rootDir)
              (matchAll defaultImportRegex content).

(* ----------------------------------------------------------------- *)
(** *** Usage matching *)

(** [/\.(ts|tsx|js|jsx|mjs)$/] *)
Definition sourceExtRegex : regex :=
  Seq (Chr (isChar 46%N))
      (Seq (Alt (Lit (js "ts")) (Alt (Lit (js "tsx")) (Alt (Lit (js "js"))
           (Alt (Lit (js "jsx")) (Lit (js "mjs"))))))
           Eos).

(** [s.replace(regex, '')] for an expression without the [g] flag: the
    leftmost match is removed. *)
Definition remove_first (r : regex) (s : jsstring) : jsstring :=
  match exec r (start_of s) with
  | Some mt => firstn (index mt) s ++ crest (mend mt)
  | None => s
  end.

Definition stripExt (s : jsstring) : jsstring := remove_first sourceExtRegex s.

Definition isSameFile (imp : ImportReference.t) (exp : ExportedItem.t) : bool :=
  str_eqb (ImportReference.fromFile imp) (ExportedItem.file exp)
  || str_eqb (stripExt (ImportReference.fromFile imp))
             (stripExt (ExportedItem.file exp)).

(** The predicate of [allImports.filter(imp => ...)]. *)
Definition uses (exp : ExportedItem.t) (imp : ImportReference.t) : bool :=
  if negb (isSameFile imp exp) then false
  else if ExportedItem.isDefault exp then ImportReference.isDefault imp
  else str_eqb (ImportReference.name imp) (ExportedItem.name exp).

Definition mem (x : jsstring) (l : list jsstring) : bool :=
  existsb (str_eqb x) l.

(** [[...new Set(xs)]]: first occurrences, in order. *)
Definition uniq (xs : list jsstring) : list jsstring :=
  fold_left (fun acc x => if mem x acc then acc else acc ++ [x]) xs [].

Definition analyse (allImports : list ImportReference.t) (exp : ExportedItem.t)
  : ExportAnalysis.t :=
  let usages := filter (uses exp) allImports in
  let usedIn := uniq (map ImportReference.toFile usages) in
  let isUnused := Nat.eqb (length usedIn) 0 in
  ExportAnalysis.Make exp (length usedIn) usedIn isUnused.

(* ----------------------------------------------------------------- *)
(** *** Aggregation *)

(** [fileAnalysisMap]: a JavaScript [Map] keyed by file path keeps its
    entries in insertion order; it is a list of the values, each carrying
    its key in [file]. *)
Definition FileMap := list FileAnalysis.t.

Fixpoint map_get (mp : FileMap) (key : jsstring) : option FileAnalysis.t :=
  match mp with
  | [] => None
  | fa :: rest =>
      if str_eqb (FileAnalysis.file fa) key then Some fa else map_get rest key
  end.

Definition map_has (mp : FileMap) (key : jsstring) : bool :=
  match map_get mp key with Some _ => true | None => false end.

(** [map.set(key, v)], and what mutating the object stored under [key]
    amounts to: an existing entry is replaced in place, a new one is
    appended. *)
Fixpoint map_set (mp : FileMap) (key : jsstring) (v : FileAnalysis.t) : FileMap :=
  match mp with
  | [] => [v]
  | fa :: rest =>
      if str_eqb (FileAnalysis.file fa) key then v :: rest
      else fa :: map_set rest key v
  end.

(** [fileAnalysis.exports.push(analysis)] and the counter incremented. *)
Definition push_analysis (fa : FileAnalysis.t) (a : ExportAnalysis.t)
  : FileAnalysis.t :=
  FileAnalysis.Make
    (FileAnalysis.file fa)
    (FileAnalysis.exports fa ++ [a])
    (if ExportAnalysis.isUnused a then S (FileAnalysis.unusedCount fa)
     else FileAnalysis.unusedCount fa)
    (if ExportAnalysis.isUnused a then FileAnalysis.usedCount fa
     else S (FileAnalysis.usedCount fa)).

(** The body of [for (const exp of filteredExports)] after the analysis. *)
Definition record_analysis (mp : FileMap) (a : ExportAnalysis.t) : FileMap :=
  let key := ExportedItem.file (ExportAnalysis.export a) in
  let mp1 := if map_has mp key then mp
             else map_set mp key (FileAnalysis.Make key [] 0 0) in
  match map_get mp1 key with
  | Some fa => map_set mp1 key (push_analysis fa a)
  | None => mp1
  end.

(** [(a, b) => b.unusedCount - a.unusedCount] *)
Definition by_unused_desc (a b : FileAnalysis.t) : Z :=
  (Z.of_nat (FileAnalysis.unusedCount b) - Z.of_nat (FileAnalysis.unusedCount a))%Z.

(** [Array.prototype.sort] is stable: an element goes before the elements
    that followed it, unless the comparator puts them strictly first. *)
Fixpoint insert_sorted (cmp : FileAnalysis.t -> FileAnalysis.t -> Z)
         (x : FileAnalysis.t) (l : list FileAnalysis.t) : list FileAnalysis.t :=
  match l with
  | [] => [x]
  | y :: l' =>
      if (cmp y x <? 0)%Z then y :: insert_sorted cmp x l'
      else x :: y :: l'
  end.

Definition sort_by (cmp : FileAnalysis.t -> FileAnalysis.t -> Z)
           (l : list FileAnalysis.t) : list FileAnalysis.t :=
  fold_right (insert_sorted cmp) [] l.

(** [fa.exports.filter(e => e.isUnused).reduce((sum, e) => sum + e.export.estimatedSize, 0)] *)
Definition unused_size (fa : FileAnalysis.t) : nat :=
  fold_left (fun sum e => sum + ExportedItem.estimatedSize (ExportAnalysis.export e))
            (filter ExportAnalysis.isUnused (FileAnalysis.exports fa)) 0.

(** The running totals [(totalExports, unusedExports, estimatedSavings)]. *)
Definition add_totals (t : nat * nat * nat) (fa : FileAnalysis.t) : nat * nat * nat :=
  let '(totalExports, unusedExports, estimatedSavings) := t in
  (totalExports + length (FileAnalysis.exports fa),
   unusedExports + FileAnalysis.unusedCount fa,
   estimatedSavings + unused_size fa).

Definition is_type_export (e : ExportedItem.t) : bool :=
  ExportType_eqb (ExportedItem.type e) TType
  || ExportType_eqb (ExportedItem.type e) TInterface.

(** [analyzeExports] from the filtering of the type exports on. *)
Definition analyzeUsage (includeTypes : bool)
           (allExports : list ExportedItem.t)
           (allImports : list ImportReference.t) : ScanResult.t :=
  let filteredExports :=
    if includeTypes then allExports
    else filter (fun e => negb (is_type_export e)) allExports in
  let fileAnalysisMap :=
    fold_left record_analysis (map (analyse allImports) filteredExports) [] in
  let fileAnalyses :=
    sort_by by_unused_desc
            (filter (fun f => 0 <? length (FileAnalysis.exports f)) fileAnalysisMap) in
  let '(totalExports, unusedExports, estimatedSavings) :=
    fold_left add_totals fileAnalyses (0, 0, 0) in
  ScanResult.Make fileAnalyses totalExports unusedExports
                  (totalExports - unusedExports) estimatedSavings.

(* ----------------------------------------------------------------- *)
(** *** The scan *)

Definition DEFAULT_INCLUDE : list jsstring :=
  [js "**/*.ts"; js "**/*.tsx"; js "**/*.js"; js "**/*.jsx"; js "**/*.mjs"].

Definition DEFAULT_EXCLUDE : list jsstring :=
  [js "**/node_modules/**"; js "**/dist/**"; js "**/build/**"; js "**/.next/**";
   js "**/coverage/**"; js "**/*.d.ts"; js "**/*.test.*"; js "**/*.spec.*";
   js "**/__tests__/**"].

Record Options : Type := MkOptions {
  includeTypes : option bool;
  exclude : option (list jsstring)
}.

Definition no_options : Options := MkOptions None None.

(** One iteration of [for (const file of files)]: a file that cannot be
    read leaves both lists as they are. *)
Definition scan_file (rootDir : jsstring)
           (acc : list ExportedItem.t * list ImportReference.t) (file : jsstring)
  : list ExportedItem.t * list ImportReference.t :=
  match readFileSync file with
  | Some content =>
      let exports := extractExports content file in
      let imports := extractImports content file rootDir in
      (fst acc ++ exports, snd acc ++ imports)
  | None => acc
  end.

Definition analyzeExports (rootDir : jsstring) (options : Options)
  : option ScanResult.t :=
  let includeTypes := match includeTypes options with Some b => b | None => false end in
  let exclude := match exclude options with Some l => l | None => [] end in
  let allExcludes := DEFAULT_EXCLUDE ++ exclude in
  match glob DEFAULT_INCLUDE rootDir allExcludes with
  | None => None
  | Some files =>
      let '(allExports, allImports) := fold_left (scan_file rootDir) files ([], []) in
      Some (analyzeUsage includeTypes allExports allImports)
  end.

End Analyzer.

(* ================================================================= *)
(** ** A POSIX platform over a finite file system

    The analyzer above is stated for any platform.  To run it, the
    functions of Node's [path] module are written out for POSIX paths, and
    the file system is a finite table of readable files. *)

Definition SLASH : char := 47%N.

Definition joinPath (segments : list jsstring) : jsstring :=
  match segments with
  | [] => []
  | s :: rest => s ++ flat_map (fun x => SLASH :: x) rest
  end.

(** [normalizeString] of Node's [path] for an absolute path: empty and [.]
    segments vanish, [..] removes the segment before it. *)
Definition normalize_step (stack : list jsstring) (seg : jsstring) : list jsstring :=
  if is_empty seg || str_eqb seg (js ".") then stack
  else if str_eqb seg (js "..") then removelast stack
  else stack ++ [seg].

Definition normalize_abs (p : jsstring) : jsstring :=
  SLASH :: joinPath (fold_left normalize_step (split_on SLASH [] p) []).

(** [path.resolve(dir, importPath)]: the arguments are taken from the right
    until the path is absolute; the working directory comes last. *)
Definition posix_resolve (cwd dir importPath : jsstring) : jsstring :=
  if startsWith importPath [SLASH] then normalize_abs importPath
  else if startsWith dir [SLASH] then normalize_abs (dir ++ SLASH :: importPath)
  else normalize_abs (cwd ++ SLASH :: dir ++ SLASH :: importPath).

(** The backwards loop of [path.dirname]: [rs] holds the code units at the
    indices [i], [i-1], ... *)
Fixpoint dirname_scan (i : nat) (rs : jsstring) (matchedSlash : bool) : option nat :=
  match i, rs with
  | S i', x :: rs' =>
      if N.eqb x SLASH then
        if matchedSlash then dirname_scan i' rs' true else Some i
      else dirname_scan i' rs' false
  | _, _ => None
  end.

Definition posix_dirname (path : jsstring) : jsstring :=
  match path with
  | [] => js "."
  | x0 :: _ =>
      let hasRoot := N.eqb x0 SLASH in
      match dirname_scan (length path - 1) (rev path) true with
      | None => if hasRoot then js "/" else js "."
      | Some e => if hasRoot && Nat.eqb e 1 then js "//" else firstn e path
      end
  end.

(** A file system: the readable files and their texts. *)
Definition FileSystem := list (jsstring * jsstring).

Fixpoint fs_read (fs : FileSystem) (path : jsstring) : option jsstring :=
  match fs with
  | [] => None
  | (p, text) :: rest => if str_eqb p path then Some text else fs_read rest path
  end.

Definition endsWith (s suffix : jsstring) : bool :=
  startsWith (rev s) (rev suffix).

(** The traversal: the files of [listing] below [cwd] that carry one of the
    included extensions.  [fast-glob] reports a directory that does not
    exist as having no entries, so a missing [cwd] gives the empty list;
    the ignore patterns are not interpreted. *)
Definition fs_glob (listing : list jsstring)
           (patterns : list jsstring) (cwd : jsstring) (ignore : list jsstring)
  : option (list jsstring) :=
  Some (filter (fun p =>
                  startsWith p (cwd ++ [SLASH])
                  && existsb (endsWith p)
                             [js ".ts"; js ".tsx"; js ".js"; js ".jsx"; js ".mjs"])
               listing).

(** The scan of the files [listing] over the file system [fs]. *)
Definition scan (fs : FileSystem) (listing : list jsstring)
           (rootDir : jsstring) (options : Options) : option ScanResult.t :=
  analyzeExports (fs_read fs) posix_dirname (posix_resolve (js "/"))
                 (fs_glob listing) rootDir options.

(* ================================================================= *)
(** ** What a match is: the declarative reading of the expressions

    [Matches r c c'] says that [r] can match from the cursor [c] to the
    cursor [c'], whatever the priorities.  The matcher only ever reports
    such matches. *)

Inductive Matches : regex -> cursor -> cursor -> Prop :=
| M_Eps : forall c, Matches Eps c c
| M_Chr : forall p c x s,
    crest c = x :: s -> p x = true ->
    Matches (Chr p) c (Cur (S (cpos c)) (Some x) s)
| M_Seq : forall a b c1 c2 c3,
    Matches a c1 c2 -> Matches b c2 c3 -> Matches (Seq a b) c1 c3
| M_AltL : forall a b c c', Matches a c c' -> Matches (Alt a b) c c'
| M_AltR : forall a b c c', Matches b c c' -> Matches (Alt a b) c c'
| M_Star0 : forall a c, Matches (Star a) c c
| M_StarS : forall a c1 c2 c3,
    Matches a c1 c2 -> Matches (Star a) c2 c3 -> Matches (Star a) c1 c3
| M_Group : forall n a c c', Matches a c c' -> Matches (Group n a) c c'
| M_Bol : forall c, at_bol c = true -> Matches Bol c c
| M_Eol : forall c, at_eol c = true -> Matches Eol c c
| M_Eos : forall c, at_eos c = true -> Matches Eos c c.

(** An expression that cannot match the empty string. *)
Fixpoint consumes (r : regex) : bool :=
  match r with
  | Chr _ => true
  | Seq a b => consumes a || consumes b
  | Alt a b => consumes a && consumes b
  | Group _ a => consumes a
  | Eps | Star _ | Bol | Eol | Eos => false
  end.

(** [c'] is [c] moved forward over the text [w]. *)
Definition advanced (c : cursor) (w : jsstring) (c' : cursor) : Prop :=
  crest c = w ++ crest c' /\ cpos c' = cpos c + length w.


(* ================================================================= *)
(** ** Names for the intermediate results of the scan *)

(** The exports that enter the usage matching. *)
Definition filteredExports (includeTypes : bool) (allExports : list ExportedItem.t)
  : list ExportedItem.t :=
  if includeTypes then allExports
  else filter (fun e => negb (is_type_export e)) allExports.

(** What the loop over the files has collected. *)
Definition scanned (readFileSync : jsstring -> option jsstring)
           (dirname : jsstring -> jsstring)
           (resolve : jsstring -> jsstring -> jsstring)
           (rootDir : jsstring) (files : list jsstring)
  : list ExportedItem.t * list ImportReference.t :=
  fold_left (scan_file readFileSync dirname resolve rootDir) files ([], []).

Definition readable (readFileSync : jsstring -> option jsstring) (file : jsstring)
  : bool :=
  match readFileSync file with Some _ => true | None => false end.

(** The quantities the totals are made of. *)
Definition exports_count (fa : FileAnalysis.t) : nat :=
  length (FileAnalysis.exports fa).

Definition unused_one (a : ExportAnalysis.t) : nat :=
  if ExportAnalysis.isUnused a then 1 else 0.

Definition unused_bytes (a : ExportAnalysis.t) : nat :=
  if ExportAnalysis.isUnused a
  then ExportedItem.estimatedSize (ExportAnalysis.export a) else 0.

(** What holds of every entry of the map built from the analyses [l]: it
    has at least one export, its exports were recorded and belong to its
    file, and its counters count them. *)
Definition entry_ok (l : list ExportAnalysis.t) (fa : FileAnalysis.t) : Prop :=
  FileAnalysis.exports fa <> []
  /\ (forall a, In a (FileAnalysis.exports fa) ->
        In a l /\ ExportedItem.file (ExportAnalysis.export a) = FileAnalysis.file fa)
  /\ FileAnalysis.unusedCount fa
     = list_sum (map unused_one (FileAnalysis.exports fa))
  /\ FileAnalysis.unusedCount fa + FileAnalysis.usedCount fa
     = length (FileAnalysis.exports fa).

(** The destructuring defaults of [options]. *)
Definition includeTypes_of (options : Options) : bool :=
  match includeTypes options with Some b => b | None => false end.

Definition excludes_of (options : Options) : list jsstring :=
  DEFAULT_EXCLUDE ++ match exclude options with Some l => l | None => [] end.

(** A cursor that stands at its own index in [content]. *)
Definition placed (content : jsstring) (c : cursor) : Prop :=
  exists pre, content = pre ++ crest c /\ cpos c = length pre.

(** An item pushed for a listed name: kind [const], not default, 100 bytes. *)
Definition listed_item (filePath : jsstring) (e : ExportedItem.t) : Prop :=
  exists name line, name <> []
                    /\ e = ExportedItem.Make name TConst filePath line false 100.

(* ================================================================= *)
(** ** Small projects to run the scan on *)

Definition files_of (fs : FileSystem) : list jsstring := map fst fs.

(** The scan of all the files of [fs] from the root [/p]. *)
Definition scan_project (fs : FileSystem) (options : Options) : option ScanResult.t :=
  scan fs (files_of fs) (js "/p") options.

Definition report_of (r : option ScanResult.t) : ScanResult.t :=
  match r with
  | Some report => report
  | None => ScanResult.Make [] 0 0 0 0
  end.

(** [b.ts] consumes [a.ts] through a namespace import. *)
Definition fs_namespace : FileSystem :=
  [ (js "/p/a.ts", js "export function helper() {}");
    (js "/p/b.ts", js "import * as ns from './a'") ].

(** Two overload signatures and the implementation of one function. *)
Definition text_overloads : jsstring :=
  js "export function parse(input: string): number;" ++ [LF] ++
  js "export function parse(input: Buffer): number;" ++ [LF] ++
  js "export function parse(input: any): number { return 0; }".

(** Both [/p/a.js] and [/p/a.js.ts] can be read. *)
Definition fs_two_candidates : FileSystem :=
  [ (js "/p/a.js", js "export const a = 1");
    (js "/p/a.js.ts", js "export const b = 2");
    (js "/p/b.ts", js "import { a } from './a.js'") ].

Definition text_export_list : jsstring := js "export { foo }".

(** The default export of [a.ts] imported under another name in [b.ts]. *)
Definition fs_default : FileSystem :=
  [ (js "/p/a.ts", js "export default function run(){}");
    (js "/p/b.ts", js "import main from './a'") ].

(** [a.ts] declares an interface only; [b.ts] imports it and declares a
    constant. *)
Definition fs_types : FileSystem :=
  [ (js "/p/a.ts", js "export interface Foo {}");
    (js "/p/b.ts", js "import { Foo } from './a'" ++ [LF] ++ js "export const b = 1") ].

(** Three files, one export each, no import. *)
Definition fs_three : FileSystem :=
  [ (js "/p/a.ts", js "export function alpha() {}");
    (js "/p/b.ts", js "export const beta = 2");
    (js "/p/c.ts", js "export class Gamma {}") ].

(** [b.ts] takes the default export and a named export of [a.ts] in one
    combined import statement. *)
Definition fs_combined : FileSystem :=
  [ (js "/p/a.ts", js "export default function run(){}" ++ [LF] ++ js "export const a = 1");
    (js "/p/b.ts", js "import d, { a } from './a'") ].

Definition item (name : string) (type : ExportType) (file : string) (line : nat)
           (isDefault : bool) (size : nat) : ExportedItem.t :=
  ExportedItem.Make (js name) type (js file) line isDefault size.

Definition reference (name fromFile toFile : string) (line : nat) (isDefault : bool)
  : ImportReference.t :=
  ImportReference.Make (js name) (js fromFile) (js toFile) line isDefault.

(** [extractImports] on the POSIX platform over [fs]. *)
Definition imports_in (fs : FileSystem) (content : jsstring) (filePath : string)
  : list ImportReference.t :=
  extractImports (fs_read fs) posix_dirname (posix_resolve (js "/"))
                 content (js filePath) (js "/p").

(* ================================================================= *)
(** ** Vocabulary for reasoning about scans of a text *)

(** The code unit before the cursor once [w] has been passed. *)
Definition prev_after (w : jsstring) (prev : option char) : option char :=
  fold_left (fun _ y => Some y) w prev.

(** The text [rest] does not continue a run of the class [p]. *)
Definition stops (p : char -> bool) (rest : jsstring) : Prop :=
  match rest with
  | [] => True
  | x :: _ => p x = false
  end.

(** All the code units of [w] are in the class [p]. *)
Definition all_in (p : char -> bool) (w : jsstring) : Prop :=
  Forall (fun c => p c = true) w.

(** An identifier as [\w+] reads it. *)
Definition identifier (w : jsstring) : Prop := w <> [] /\ all_in isWord w.

(** [text] without the prefix [l], when it starts with it. *)
Fixpoint strip (l text : jsstring) : option jsstring :=
  match l with
  | [] => Some text
  | x :: l' =>
      match text with
      | y :: t => if N.eqb y x then strip l' t else None
      | [] => None
      end
  end.

(** A text without braces. *)
Definition brace_free (w : jsstring) : Prop :=
  all_in (fun c => isNot LBRACE c && isNot RBRACE c) w.

(** A module specifier as the import expressions read it, here without
    braces: [[^Q]+] with [Q] the two quote characters. *)
Definition specifier (spec : jsstring) : Prop :=
  spec <> [] /\ all_in notQuote spec /\ brace_free spec.

(** [import d, {inner} from 'spec'] *)
Definition combined_import (d inner spec : jsstring) : jsstring :=
  js "import " ++ d ++ js ", {" ++ inner ++ js "} from '" ++ spec ++ js "'".

(** [import * as name from 'spec'] *)
Definition namespace_import (name spec : jsstring) : jsstring :=
  js "import * as " ++ name ++ js " from '" ++ spec ++ js "'".

(** [ foo, bar as baz ]: the text between the braces. *)
Definition binding_list (foo bar baz : jsstring) : jsstring :=
  js " " ++ foo ++ js ", " ++ bar ++ js " as " ++ baz ++ js " ".

(** [export {inner}] *)
Definition export_list (inner : jsstring) : jsstring :=
  js "export {" ++ inner ++ js "}".

(** [import {inner} from 'spec'] *)
Definition import_list (inner spec : jsstring) : jsstring :=
  js "import {" ++ inner ++ js "} from '" ++ spec ++ js "'".

Definition not_terminator (c : char) : bool := negb (isLineTerminator c).
Definition not_comma (c : char) : bool := negb (N.eqb c 44%N).

(* ================================================================= *)
(** ** [Math.round(n * 0.6)] in binary64

    The double nearest to 0.6 is [5404319552844595 / 2^53].  The product
    with an integer [n] is rounded to 53 significant bits, ties to even;
    [Math.round] then takes the floor of the result plus one half.  The
    values are kept scaled by [2^53]. *)

Definition double_0_6 : Z := 5404319552844595%Z.

(** Rounding of the positive integer [M] to 53 significant bits. *)
Definition round53 (M : Z) : Z :=
  let bits := (Z.log2 M + 1)%Z in
  if (bits <=? 53)%Z then M
  else
    let sh := (bits - 53)%Z in
    let q := (M / 2 ^ sh)%Z in
    let r := (M mod 2 ^ sh)%Z in
    let half := (2 ^ (sh - 1))%Z in
    let q' := if (half <? r)%Z || ((r =? half)%Z && Z.odd q) then (q + 1)%Z else q in
    (q' * 2 ^ sh)%Z.

Definition estimateSize_double (n : Z) : Z :=
  ((round53 (n * double_0_6) + 2 ^ 52) / 2 ^ 53)%Z.

(** Two continuations that agree at every cursor reached from [c]: the
    matcher calls its continuation at such cursors only. *)
Definition agree_from (c : cursor) (k1 k2 : cont) : Prop :=
  forall w c' cs', advanced c w c' -> k1 c' cs' = k2 c' cs'.

Definition fail : cont := fun _ _ => None.

(* ================================================================= *)
(** ** Vocabulary for the report *)

(** The file an analysis belongs to. *)
Definition file_of (a : ExportAnalysis.t) : jsstring :=
  ExportedItem.file (ExportAnalysis.export a).

Definition in_file (key : jsstring) (a : ExportAnalysis.t) : bool :=
  str_eqb (file_of a) key.

(** The file map after the analyses [processed]: its keys are the files in
    the order of their first analysis, and each entry holds the analyses
    of its file in their order. *)
Definition grouped (processed : list ExportAnalysis.t) (mp : FileMap) : Prop :=
  map FileAnalysis.file mp = uniq (map file_of processed)
  /\ forall fa, In fa mp ->
       FileAnalysis.exports fa = filter (in_file (FileAnalysis.file fa)) processed.

(** How many of the analyses of the file [key] are unused. *)
Definition unused_in (analyses : list ExportAnalysis.t) (key : jsstring) : nat :=
  length (filter ExportAnalysis.isUnused (filter (in_file key) analyses)).

(** The order of the report: no file before one with more unused exports. *)
Definition unused_desc (a b : FileAnalysis.t) : Prop :=
  FileAnalysis.unusedCount b <= FileAnalysis.unusedCount a.

(** What one file contributes to the two lists of the scan. *)
Definition exports_of_file (readFileSync : jsstring -> option jsstring)
           (file : jsstring) : list ExportedItem.t :=
  match readFileSync file with
  | Some content => extractExports content file
  | None => []
  end.

Definition imports_of_file (readFileSync : jsstring -> option jsstring)
           (dirname : jsstring -> jsstring)
           (resolve : jsstring -> jsstring -> jsstring)
           (rootDir file : jsstring) : list ImportReference.t :=
  match readFileSync file with
  | Some content => extractImports readFileSync dirname resolve content file rootDir
  | None => []
  end.

(** The extensions the usage matching strips: the alternatives of
    [sourceExtRegex]. *)
Definition source_extensions : list jsstring :=
  [js ".ts"; js ".tsx"; js ".js"; js ".jsx"; js ".mjs"].

(* ================================================================= *)
(** ** Vocabulary for the places of the matches *)

(** A cursor of a scan of [content]: it stands at its own index and
    carries the code unit before it. *)
Definition seated (content : jsstring) (c : cursor) : Prop :=
  exists pre, content = pre ++ crest c
              /\ cpos c = length pre
              /\ cprev c = prev_after pre None.

(** A line begins after [pre]: nothing comes before, or a line terminator
    does. *)
Definition line_start (pre : jsstring) : Prop :=
  pre = [] \/ exists p x, pre = p ++ [x] /\ isLineTerminator x = true.

(** The line feeds of a text. *)
Definition line_feeds (s : jsstring) : nat :=
  length (filter (fun x => N.eqb x LF) s).

(** The names of a list of items. *)
Definition names_of (exports : list ExportedItem.t) : list jsstring :=
  map ExportedItem.name exports.

(** [parts.join(sep)] for a separator of one code unit. *)
Definition join_on (sep : char) (parts : list jsstring) : jsstring :=
  match parts with
  | [] => []
  | p :: rest => p ++ flat_map (fun x => sep :: x) rest
  end.

(* ================================================================= *)
(** ** The command line ([src/cli/index.ts]) *)

(** The options as [commander] hands them to the action. *)
Module Cli.
Record options : Type := Make {
    json : bool;
    compact : bool;
    includeTypes : bool;
    showUsed : bool;
    ignore : jsstring
}.
End Cli.

(** What the action does to the terminal, call by call. *)
Inductive event : Type :=
| SpinnerStart
| SpinnerStop
| SpinnerFail
| PrintJsonResult (result : ScanResult.t) (cwd : jsstring)
| PrintCompactResult (result : ScanResult.t) (cwd : jsstring)
| PrintScanResult (result : ScanResult.t) (cwd : jsstring) (showUsed : bool)
| PrintSupportMessage
| ConsoleError.

(** How the action ends: by [process.exit(1)], or by returning. *)
Inductive ending : Type := Exit1 | Returns.

(** [options.ignore ? options.ignore.split(',').map(p => p.trim()) : []]:
    the empty string is falsy. *)
Definition ignorePatterns (ignore : jsstring) : list jsstring :=
  if is_empty ignore then [] else map trim (split_comma ignore).

Section Command.

Variable readFileSync : jsstring -> option jsstring.
Variable dirname : jsstring -> jsstring.
Variable resolve : jsstring -> jsstring -> jsstring.
Variable glob :
  list jsstring -> jsstring -> list jsstring -> option (list jsstring).
(** [path.resolve] with one argument: against the working directory. *)
Variable resolve_cwd : jsstring -> jsstring.

(** The action of the command.  A rejected scan is caught twice: the inner
    handler stops the spinner with a failure and throws again, the outer
    one prints the error and exits with 1. *)
Definition action (pathArg : jsstring) (options : Cli.options)
  : list event * ending :=
  let projectPath := resolve_cwd pathArg in
  let ignored := ignorePatterns (Cli.ignore options) in
  match analyzeExports readFileSync dirname resolve glob projectPath
                       (MkOptions (Some (Cli.includeTypes options)) (Some ignored)) with
  | None => ([SpinnerStart; SpinnerFail; ConsoleError], Exit1)
  | Some result =>
      if Cli.json options
      then ([SpinnerStart; SpinnerStop; PrintJsonResult result projectPath], Returns)
      else
        let print :=
          if Cli.compact options then PrintCompactResult result projectPath
          else PrintScanResult result projectPath (Cli.showUsed options) in
        ([SpinnerStart; SpinnerStop; print; PrintSupportMessage],
         if 0 <? ScanResult.unusedExports result then Exit1 else Returns)
  end.

End Command.

(** The command over a finite file system, run in the directory [cwd]. *)
Definition run_cli (fs : FileSystem) (listing : list jsstring) (cwd : jsstring)
           (pathArg : jsstring) (options : Cli.options) : list event * ending :=
  action (fs_read fs) posix_dirname (posix_resolve cwd) (fs_glob listing)
         (posix_resolve cwd cwd) pathArg options.

(* ================================================================= *)
(** ** The output ([src/cli/output.ts]) *)

(** An integer as a template literal prints it. *)
Definition decimal (n : N) : jsstring :=
  js (NilZero.string_of_uint (N.to_uint n)).

(** [(num / den).toFixed(1)] for an integer [num] and a power of two
    [den]: the quotient is exact in binary64, and [toFixed] prints the
    number of tenths nearest to it, the larger of two that are as near. *)
Definition toFixed1 (num den : N) : jsstring :=
  let tenths := ((10 * num + den / 2) / den)%N in
  decimal (tenths / 10) ++ js "." ++ decimal (tenths mod 10).

Definition formatBytes (bytes : N) : jsstring :=
  if (bytes <? 1024)%N then decimal bytes ++ js " B"
  else if (bytes <? 1024 * 1024)%N then toFixed1 bytes 1024 ++ js " KB"
  else toFixed1 bytes (1024 * 1024) ++ js " MB".

(** The colours of [chalk] the output uses for the kinds. *)
Inductive color : Type :=
| Blue | Magenta | Cyan | Gray | Yellow | Green | White | Red.

(** The string of a kind ([ExportType] is a union of string literals). *)
Definition type_name (t : ExportType) : jsstring :=
  match t with
  | TFunction => js "function"
  | TClass => js "class"
  | TConst => js "const"
  | TType => js "type"
  | TInterface => js "interface"
  | TEnum => js "enum"
  | TDefault => js "default"
  | TVariable => js "variable"
  end.

Definition getTypeColor (type : jsstring) : color :=
  if str_eqb type (js "function") then Blue
  else if str_eqb type (js "class") then Magenta
  else if str_eqb type (js "const") || str_eqb type (js "variable") then Cyan
  else if str_eqb type (js "type") || str_eqb type (js "interface") then Gray
  else if str_eqb type (js "enum") then Yellow
  else if str_eqb type (js "default") then Green
  else White.

(** A style of [chalk]: [chalk.bold.yellow] is [[Bold; Colored Yellow]]. *)
Inductive style : Type := Bold | Colored (c : color).

(** The characters of the output outside ASCII, in UTF-16. *)
Definition CHECK_MARK : jsstring := [9989%N].
Definition CROSS_MARK : jsstring := [10060%N].
Definition MAGNIFIER : jsstring := [55357%N; 56589%N].
Definition FOLDER : jsstring := [55357%N; 56513%N].
Definition BULB : jsstring := [55357%N; 56481%N].
Definition BULLET : jsstring := [8226%N].
Definition RULE : char := 9472%N.

(** [parts.join(sep)] *)
Definition join (sep : jsstring) (parts : list jsstring) : jsstring :=
  match parts with
  | [] => []
  | p :: rest => p ++ flat_map (fun x => sep ++ x) rest
  end.

Section Output.

(** [chalk] with the styles chained, and [path.relative]. *)
Variable chalk : list style -> jsstring -> jsstring.
Variable relative : jsstring -> jsstring -> jsstring.

(** The output is the list of the lines logged, one per call of
    [console.log]. *)
Definition typeLabel (type : ExportType) : jsstring :=
  chalk [Colored (getTypeColor (type_name type))] (js "[" ++ type_name type ++ js "]").

(** The body of [for (const exp of fileAnalysis.exports)]. *)
Definition print_export (showUsed : bool) (exp : ExportAnalysis.t) : list jsstring :=
  let e := ExportAnalysis.export exp in
  if ExportAnalysis.isUnused exp then
    [ js "  " ++ chalk [Colored Red] CROSS_MARK ++ js " " ++ ExportedItem.name e
        ++ js "() " ++ typeLabel (ExportedItem.type e);
      chalk [Colored Gray]
            (js "     Line " ++ decimal (N.of_nat (ExportedItem.line e))
               ++ js " - exported but never imported") ]
  else if showUsed then
    [ js "  " ++ chalk [Colored Green] CHECK_MARK ++ js " " ++ ExportedItem.name e
        ++ js "() " ++ typeLabel (ExportedItem.type e);
      chalk [Colored Gray]
            (js "     Used in " ++ decimal (N.of_nat (ExportAnalysis.usageCount exp))
               ++ js " file(s)") ]
  else [].

(** The body of [for (const fileAnalysis of result.files)]. *)
Definition print_file (cwd : jsstring) (showUsed : bool) (fileAnalysis : FileAnalysis.t)
  : list jsstring :=
  if (FileAnalysis.unusedCount fileAnalysis =? 0) && negb showUsed then []
  else
    let relativePath := relative cwd (FileAnalysis.file fileAnalysis) in
    [chalk [Bold; Colored White] (FOLDER ++ js " " ++ relativePath)]
      ++ flat_map (print_export showUsed) (FileAnalysis.exports fileAnalysis)
      ++ [[]].

Definition printScanResult (result : ScanResult.t) (cwd : jsstring) (showUsed : bool)
  : list jsstring :=
  let savings := formatBytes (N.of_nat (ScanResult.estimatedSavings result)) in
  [[]] ++
  if ScanResult.unusedExports result =? 0 then
    [ chalk [Colored Green] (CHECK_MARK ++ js " No unused exports found!");
      chalk [Colored Gray]
            (js "   Scanned " ++ decimal (N.of_nat (ScanResult.totalExports result))
               ++ js " exports across "
               ++ decimal (N.of_nat (length (ScanResult.files result))) ++ js " files.");
      [] ]
  else
    [ chalk [Bold; Colored Yellow]
            (MAGNIFIER ++ js " Unused Exports ("
               ++ decimal (N.of_nat (ScanResult.unusedExports result)) ++ js " found):");
      [];
      chalk [Colored Gray] (js "Summary:");
      js "  Total exports:  " ++ decimal (N.of_nat (ScanResult.totalExports result));
      js "  " ++ chalk [Colored Red] (js "Unused:") ++ js "        "
         ++ decimal (N.of_nat (ScanResult.unusedExports result));
      js "  " ++ chalk [Colored Green] (js "Used:") ++ js "          "
         ++ decimal (N.of_nat (ScanResult.usedExports result));
      js "  Potential savings: " ++ chalk [Colored Cyan] savings;
      [] ]
      ++ flat_map (print_file cwd showUsed) (ScanResult.files result)
      ++ [ chalk [Colored Gray] (repeat RULE 50);
           chalk [Bold] (js "Potential bundle reduction:") ++ js " "
             ++ chalk [Colored Cyan] savings;
           [];
           chalk [Colored Gray] (BULB ++ js " Tips:");
           chalk [Colored Gray]
                 (js "  " ++ BULLET ++ js " Remove unused exports to reduce bundle size");
           chalk [Colored Gray]
                 (js "  " ++ BULLET
                    ++ js " Some exports may be used dynamically (check manually)");
           chalk [Colored Gray]
                 (js "  " ++ BULLET ++ js " Entry points and public APIs may show as "
                    ++ [DQUOTE] ++ js "unused" ++ [DQUOTE]);
           [] ].

(** The names a file is listed with in the compact output. *)
Definition unusedNames (fileAnalysis : FileAnalysis.t) : jsstring :=
  join (js ", ")
       (map (fun e => ExportedItem.name (ExportAnalysis.export e))
            (filter ExportAnalysis.isUnused (FileAnalysis.exports fileAnalysis))).

Definition print_compact_file (cwd : jsstring) (fileAnalysis : FileAnalysis.t)
  : list jsstring :=
  if FileAnalysis.unusedCount fileAnalysis =? 0 then []
  else
    let relativePath := relative cwd (FileAnalysis.file fileAnalysis) in
    [ js "  " ++ chalk [Colored Gray] relativePath;
      js "    " ++ chalk [Colored Red] (unusedNames fileAnalysis) ].

Definition printCompactResult (result : ScanResult.t) (cwd : jsstring) : list jsstring :=
  [[]] ++
  if ScanResult.unusedExports result =? 0 then
    [ chalk [Colored Green] (CHECK_MARK ++ js " No unused exports found!") ]
  else
    [ chalk [Bold; Colored Yellow]
            (MAGNIFIER ++ js " Found "
               ++ decimal (N.of_nat (ScanResult.unusedExports result))
               ++ js " unused exports:");
      [] ]
      ++ flat_map (print_compact_file cwd) (ScanResult.files result)
      ++ [ [];
           chalk [Colored Gray]
                 (js "Potential savings: "
                    ++ formatBytes (N.of_nat (ScanResult.estimatedSavings result)));
           [] ].

End Output.

(** The files of a report that have a record of an unused export. *)
Definition files_with_unused (result : ScanResult.t) : list FileAnalysis.t :=
  filter (fun fa => existsb ExportAnalysis.isUnused (FileAnalysis.exports fa))
         (ScanResult.files result).
(* ================================================================= *)
(** ** Strings: basic facts *)

Lemma str_eqb_refl : forall a, str_eqb a a = true.
Proof.
  induction a as [|x a IH]; simpl; [reflexivity|].
  now rewrite N.eqb_refl, IH.
Qed.

Lemma str_eqb_eq : forall a b, str_eqb a b = true <-> a = b.
Proof.
  induction a as [|x a IH]; destruct b as [|y b]; simpl; split; intro H;
    try reflexivity; try discriminate.
  - apply andb_true_iff in H as [H1 H2].
    apply N.eqb_eq in H1. apply IH in H2. now subst.
  - injection H as -> ->. now rewrite N.eqb_refl, str_eqb_refl.
Qed.

Lemma str_eqb_neq : forall a b, str_eqb a b = false <-> a <> b.
Proof.
  intros a b. split; intro H.
  - intro E. apply str_eqb_eq in E. congruence.
  - destruct (str_eqb a b) eqn:E; [|reflexivity].
    apply str_eqb_eq in E. contradiction.
Qed.

(* ================================================================= *)
(** ** The matcher reports matches only *)

Lemma star_loop_sound : forall (step : cursor -> caps -> cont -> outcome) a,
    (forall c cs k res, step c cs k = Some res ->
       exists c' cs', Matches a c c' /\ k c' cs' = Some res) ->
    forall fuel c cs k res,
      star_loop step fuel c cs k = Some res ->
      exists c' cs', Matches (Star a) c c' /\ k c' cs' = Some res.
Proof.
  intros step a Hstep. induction fuel as [|f IH]; intros c cs k res H; simpl in H.
  - exists c, cs. split; [constructor | exact H].
  - destruct (step c cs _) as [r0|] eqn:E.
    + injection H as ->.
      apply Hstep in E as (c1 & cs1 & Hm & Hk).
      destruct (cpos c1 <=? cpos c); [discriminate|].
      apply IH in Hk as (c2 & cs2 & Hm2 & Hk2).
      exists c2, cs2. split; [eapply M_StarS; eassumption | exact Hk2].
    + exists c, cs. split; [constructor | exact H].
Qed.

Lemma m_sound : forall r c cs k res,
    m r c cs k = Some res ->
    exists c' cs', Matches r c c' /\ k c' cs' = Some res.
Proof.
  induction r as [|p|a IHa b IHb|a IHa b IHb|a IHa|n a IHa| | |];
    intros c cs k res H; simpl in H.
  - exists c, cs. split; [constructor | exact H].
  - destruct (crest c) as [|x s] eqn:E; [discriminate|].
    destruct (p x) eqn:Hp; [|discriminate].
    eexists _, cs. split; [eapply M_Chr; eassumption | exact H].
  - apply IHa in H as (c1 & cs1 & H1 & H).
    apply IHb in H as (c2 & cs2 & H2 & H).
    exists c2, cs2. split; [econstructor; eassumption | exact H].
  - destruct (m a c cs k) as [r0|] eqn:E.
    + injection H as ->. apply IHa in E as (c1 & cs1 & H1 & H).
      exists c1, cs1. split; [now apply M_AltL | exact H].
    + apply IHb in H as (c1 & cs1 & H1 & H).
      exists c1, cs1. split; [now apply M_AltR | exact H].
  - eapply star_loop_sound; [exact IHa | exact H].
  - apply IHa in H as (c1 & cs1 & H1 & H).
    eexists c1, _. split; [constructor; exact H1 | exact H].
  - destruct (at_bol c) eqn:E; [|discriminate].
    exists c, cs. split; [now constructor | exact H].
  - destruct (at_eol c) eqn:E; [|discriminate].
    exists c, cs. split; [now constructor | exact H].
  - destruct (at_eos c) eqn:E; [|discriminate].
    exists c, cs. split; [now constructor | exact H].
Qed.

Lemma advanced_refl : forall c, advanced c [] c.
Proof. intro c. split; simpl; [reflexivity | lia]. Qed.

Lemma advanced_trans : forall c1 w1 c2 w2 c3,
    advanced c1 w1 c2 -> advanced c2 w2 c3 -> advanced c1 (w1 ++ w2) c3.
Proof.
  intros c1 w1 c2 w2 c3 [E1 P1] [E2 P2]. split.
  - rewrite E1, E2. now rewrite app_assoc.
  - rewrite P2, P1, length_app. lia.
Qed.

(** A match moves the cursor forward over the text it matched, and over
    at least one code unit when the expression cannot match the empty
    string. *)
Lemma Matches_advanced : forall r c c',
    Matches r c c' ->
    exists w, advanced c w c' /\ (consumes r = true -> w <> []).
Proof.
  induction 1; simpl.
  - exists []. split; [apply advanced_refl | discriminate].
  - exists [x]. split; [|discriminate]. split; simpl; [assumption | lia].
  - destruct IHMatches1 as (w1 & A1 & N1), IHMatches2 as (w2 & A2 & N2).
    exists (w1 ++ w2). split; [eapply advanced_trans; eassumption|].
    intros Hc E. apply app_eq_nil in E as [-> ->].
    apply orb_true_iff in Hc as [Hc|Hc]; [now apply N1 | now apply N2].
  - destruct IHMatches as (w & A & N). exists w. split; [exact A|].
    intro Hc. apply andb_true_iff in Hc as [Hc _]. auto.
  - destruct IHMatches as (w & A & N). exists w. split; [exact A|].
    intro Hc. apply andb_true_iff in Hc as [_ Hc]. auto.
  - exists []. split; [apply advanced_refl | discriminate].
  - destruct IHMatches1 as (w1 & A1 & _), IHMatches2 as (w2 & A2 & _).
    exists (w1 ++ w2). split; [eapply advanced_trans; eassumption | discriminate].
  - exact IHMatches.
  - exists []. split; [apply advanced_refl | discriminate].
  - exists []. split; [apply advanced_refl | discriminate].
  - exists []. split; [apply advanced_refl | discriminate].
Qed.

Lemma match_here_sound : forall r c x,
    match_here r c = Some x ->
    mstart x = c /\ Matches r c (mend x).
Proof.
  intros r c x H. unfold match_here in H.
  destruct (m r c [] accept) as [[c' cs]|] eqn:E; [|discriminate].
  injection H as <-. simpl. split; [reflexivity|].
  apply m_sound in E as (c1 & cs1 & Hm & Hk).
  unfold accept in Hk. now injection Hk as -> ->.
Qed.

(** The start of a found match lies at or after the cursor searched from. *)
Lemma search_sound : forall r s pos prev x,
    search r pos prev s = Some x ->
    exists pre, s = pre ++ crest (mstart x)
                /\ cpos (mstart x) = pos + length pre
                /\ Matches r (mstart x) (mend x).
Proof.
  intros r. induction s as [|y s IH]; intros pos prev x H; simpl in H.
  - destruct (match_here r (Cur pos prev [])) as [x0|] eqn:E; [|discriminate].
    injection H as ->. apply match_here_sound in E as [E1 E2].
    exists []. rewrite E1 in *. simpl. repeat split; [lia | exact E2].
  - destruct (match_here r (Cur pos prev (y :: s))) as [x0|] eqn:E.
    + injection H as ->. apply match_here_sound in E as [E1 E2].
      exists []. rewrite E1 in *. simpl. repeat split; [lia | exact E2].
    + apply IH in H as (pre & Hs & Hp & Hm).
      exists (y :: pre). simpl. rewrite <- Hs. repeat split; [lia | exact Hm].
Qed.

(** A found match of an expression that consumes leaves strictly less of
    the subject to search. *)
Lemma exec_shrinks : forall r c x,
    consumes r = true -> exec r c = Some x ->
    length (crest (mend x)) < length (crest c).
Proof.
  intros r c x Hc H. unfold exec in H.
  apply search_sound in H as (pre & Hs & _ & Hm).
  apply Matches_advanced in Hm as (w & [E _] & N).
  specialize (N Hc). rewrite Hs, E, !length_app.
  destruct w; [contradiction | simpl; lia].
Qed.

(** The loop over the matches needs no more fuel than the subject has code
    units left, plus one: with any larger amount the result is the same. *)
Lemma exec_loop_fuel : forall r, consumes r = true ->
    forall f1 f2 c,
      length (crest c) < f1 -> length (crest c) < f2 ->
      exec_loop f1 r c = exec_loop f2 r c.
Proof.
  intros r Hc. induction f1 as [|f1 IH]; intros f2 c H1 H2; [lia|].
  destruct f2 as [|f2]; [lia|]. simpl.
  destruct (exec r c) as [x|] eqn:E; [|reflexivity].
  f_equal. pose proof (exec_shrinks r c x Hc E). apply IH; lia.
Qed.

Lemma exec_loop_S : forall f r c,
    exec_loop (S f) r c =
    match exec r c with
    | None => []
    | Some x => x :: exec_loop f r (mend x)
    end.
Proof. reflexivity. Qed.

(** The loop stops because the expression no longer matches, never because
    the fuel is spent: after the last match the search fails. *)
Lemma exec_loop_complete : forall r, consumes r = true ->
    forall fuel c, length (crest c) < fuel ->
      match exec r c with
      | None => exec_loop fuel r c = []
      | Some x => exec_loop fuel r c = x :: exec_loop fuel r (mend x)
      end.
Proof.
  intros r Hc fuel c H. destruct fuel as [|f]; [lia|].
  destruct (exec r c) as [x|] eqn:E.
  - rewrite (exec_loop_S f r c), E. f_equal.
    pose proof (exec_shrinks r c x Hc E).
    apply exec_loop_fuel; [exact Hc | lia | lia].
  - rewrite exec_loop_S, E. reflexivity.
Qed.

(* ================================================================= *)
(** ** The fuel of the loops is enough

    A starred expression iterates at most once per code unit left, and a
    scan finds at most one match per code unit: more fuel never changes
    a result. *)

Lemma agree_from_advanced : forall c w c' k1 k2,
    agree_from c k1 k2 -> advanced c w c' -> agree_from c' k1 k2.
Proof.
  intros c w c' k1 k2 H Ha w' c'' cs'' Ha'.
  apply (H (w ++ w')). eapply advanced_trans; eassumption.
Qed.

Lemma star_loop_ext : forall step,
    (forall c cs k1 k2, agree_from c k1 k2 -> step c cs k1 = step c cs k2) ->
    forall fuel c cs k1 k2,
      agree_from c k1 k2 ->
      star_loop step fuel c cs k1 = star_loop step fuel c cs k2.
Proof.
  intros step Hstep. induction fuel as [|f IH]; intros c cs k1 k2 Hk; simpl.
  - apply (Hk []). apply advanced_refl.
  - rewrite (Hstep c cs _ (fun c' cs' => if cpos c' <=? cpos c then None
                                          else star_loop step f c' cs' k2)).
    + rewrite (Hk [] c cs) by apply advanced_refl. reflexivity.
    + intros w c' cs' Ha. destruct (cpos c' <=? cpos c); [reflexivity|].
      apply IH. eapply agree_from_advanced; eassumption.
Qed.

Lemma m_ext : forall r c cs k1 k2,
    agree_from c k1 k2 -> m r c cs k1 = m r c cs k2.
Proof.
  induction r as [|p|a IHa b IHb|a IHa b IHb|a IHa|n a IHa| | |];
    intros c cs k1 k2 Hk; simpl.
  - apply (Hk []). apply advanced_refl.
  - destruct (crest c) as [|x s] eqn:E; [reflexivity|].
    destruct (p x); [|reflexivity].
    apply (Hk [x]). split; simpl; [exact E | lia].
  - apply IHa. intros w c' cs' Ha. apply IHb.
    eapply agree_from_advanced; eassumption.
  - rewrite (IHa c cs k1 k2 Hk), (IHb c cs k1 k2 Hk). reflexivity.
  - apply star_loop_ext; [exact IHa | exact Hk].
  - apply IHa. intros w c' cs' Ha. now apply (Hk w).
  - destruct (at_bol c); [|reflexivity]. apply (Hk []). apply advanced_refl.
  - destruct (at_eol c); [|reflexivity]. apply (Hk []). apply advanced_refl.
  - destruct (at_eos c); [|reflexivity]. apply (Hk []). apply advanced_refl.
Qed.

Lemma star_loop_fail : forall step,
    (forall c cs k1 k2, agree_from c k1 k2 -> step c cs k1 = step c cs k2) ->
    (forall c cs, step c cs fail = None) ->
    forall fuel c cs, star_loop step fuel c cs fail = None.
Proof.
  intros step Hext Hfail. induction fuel as [|f IH]; intros c cs; simpl; [reflexivity|].
  rewrite (Hext c cs _ fail); [now rewrite Hfail|].
  intros w c' cs' _. destruct (cpos c' <=? cpos c); [reflexivity | apply IH].
Qed.

Lemma m_fail : forall r c cs, m r c cs fail = None.
Proof.
  induction r as [|p|a IHa b IHb|a IHa b IHb|a IHa|n a IHa| | |];
    intros c cs; simpl; try reflexivity.
  - destruct (crest c) as [|x s]; [reflexivity|]. now destruct (p x).
  - rewrite (m_ext a c cs _ fail); [apply IHa|]. intros w c' cs' _. apply IHb.
  - now rewrite IHa, IHb.
  - apply star_loop_fail; [intros; now apply m_ext | exact IHa].
  - rewrite (m_ext a c cs _ fail); [apply IHa|]. intros w c' cs' _. reflexivity.
  - now destruct (at_bol c).
  - now destruct (at_eol c).
  - now destruct (at_eos c).
Qed.

(** With the text left as fuel, and with any larger amount, a starred
    expression gives the same result. *)
Lemma star_loop_fuel : forall a f1 f2 c cs k,
    length (crest c) <= f1 -> length (crest c) <= f2 ->
    star_loop (m a) f1 c cs k = star_loop (m a) f2 c cs k.
Proof.
  intros a.
  assert (Hstuck : forall f c cs k,
             length (crest c) = 0 ->
             m a c cs (fun c' cs' => if cpos c' <=? cpos c then None
                                     else star_loop (m a) f c' cs' k) = None).
  { intros f c cs k H0. rewrite (m_ext a c cs _ fail); [apply m_fail|].
    intros w c' cs' [E P]. rewrite E, length_app in H0.
    replace (cpos c' <=? cpos c) with true; [reflexivity|].
    symmetry. apply Nat.leb_le. lia. }
  induction f1 as [|f1 IH]; intros f2 c cs k H1 H2.
  - destruct f2 as [|f2]; [reflexivity|]. simpl.
    rewrite Hstuck by lia. reflexivity.
  - destruct f2 as [|f2]; simpl.
    + rewrite Hstuck by lia. reflexivity.
    + rewrite (m_ext a c cs _ (fun c' cs' => if cpos c' <=? cpos c then None
                                             else star_loop (m a) f2 c' cs' k));
        [reflexivity|].
      intros w c' cs' [E P].
      destruct (Nat.leb_spec (cpos c') (cpos c)) as [Hle|Hlt]; [reflexivity|].
      rewrite E, length_app in H1, H2. apply IH; lia.
Qed.

(** The expressions the analyzer scans with all consume: their scans end
    because no match is left. *)
Lemma scanned_expressions_consume :
  Forall (fun r => consumes r = true)
         (namedExportRegex :: namedImportRegex :: defaultImportRegex
            :: map fst patterns).
Proof. repeat constructor. Qed.

Lemma matchAll_fuel : forall r content fuel,
    consumes r = true -> length content < fuel ->
    exec_loop fuel r (start_of content) = matchAll r content.
Proof.
  intros r content fuel Hc Hf. unfold matchAll.
  apply exec_loop_fuel; [exact Hc | exact Hf | simpl; lia].
Qed.

(* ================================================================= *)
(** ** The size estimate agrees with the binary64 computation *)

Lemma round53_error : forall M n,
    (0 < M)%Z -> (M < n * 2 ^ 53)%Z ->
    (M - n <= round53 M <= M + n)%Z.
Proof.
  intros M n HM Hn. unfold round53.
  destruct (Z.leb_spec (Z.log2 M + 1) 53) as [Hb|Hb]; [nia|].
  set (sh := (Z.log2 M + 1 - 53)%Z).
  assert (Hsh : (0 < sh)%Z) by (unfold sh; lia).
  pose proof (Z.log2_spec M HM) as [Hlo _].
  assert (Hpow : (2 ^ Z.log2 M = 2 ^ (sh - 1) * 2 ^ 53)%Z).
  { rewrite <- Z.pow_add_r by lia. f_equal. unfold sh. lia. }
  assert (Hhalf : (2 ^ (sh - 1) < n)%Z) by nia.
  assert (Hdbl : (2 ^ sh = 2 * 2 ^ (sh - 1))%Z).
  { replace sh with (1 + (sh - 1))%Z at 1 by lia.
    rewrite Z.pow_add_r by lia. reflexivity. }
  assert (Hpos : (0 < 2 ^ (sh - 1))%Z) by (apply Z.pow_pos_nonneg; lia).
  pose proof (Z.div_mod M (2 ^ sh)) as Hdm.
  pose proof (Z.mod_pos_bound M (2 ^ sh)) as Hmod.
  destruct (Z.ltb_spec (2 ^ (sh - 1)) (M mod 2 ^ sh)) as [H1|H1]; cbn [orb].
  - nia.
  - destruct (Z.eqb_spec (M mod 2 ^ sh) (2 ^ (sh - 1))) as [H2|H2]; cbn [andb].
    + destruct (Z.odd (M / 2 ^ sh)); nia.
    + nia.
Qed.

(** For every length below [2^49] the binary64 computation of
    [Math.round(n * 0.6)] gives [(6 n + 5) / 10]. *)
Lemma estimateSize_double_exact : forall n,
    (0 <= n < 2 ^ 49)%Z -> estimateSize_double n = ((6 * n + 5) / 10)%Z.
Proof.
  intros n Hn. unfold estimateSize_double.
  destruct (Z.eq_dec n 0) as [->|Hn0]; [reflexivity|].
  assert (HM : (0 < n * double_0_6)%Z) by (unfold double_0_6; lia).
  assert (HMn : (n * double_0_6 < n * 2 ^ 53)%Z).
  { unfold double_0_6. change (2 ^ 53)%Z with 9007199254740992%Z. lia. }
  pose proof (round53_error _ _ HM HMn) as HE.
  set (E := round53 (n * double_0_6)) in *.
  assert (H5 : (5 * (n * double_0_6) = 3 * n * 2 ^ 53 - n)%Z).
  { unfold double_0_6. change (2 ^ 53)%Z with 9007199254740992%Z. lia. }
  pose proof (Z.div_mod (6 * n + 5) 10) as Hdm.
  pose proof (Z.mod_pos_bound (6 * n + 5) 10) as Hmod.
  set (k := ((6 * n + 5) / 10)%Z) in *.
  assert (Hodd : ((6 * n + 5) mod 10 <> 0)%Z).
  { intro H0. rewrite H0 in Hdm. lia. }
  change (2 ^ 49)%Z with 562949953421312%Z in Hn.
  change (2 ^ 53)%Z with 9007199254740992%Z in *.
  change (2 ^ 52)%Z with 4503599627370496%Z.
  symmetry. apply Z.div_unique with (r := (E + 4503599627370496 - 9007199254740992 * k)%Z); lia.
Qed.

Lemma estimateSize_is_binary64 : forall code,
    (Z.of_nat (length code) < 2 ^ 49)%Z ->
    Z.of_nat (estimateSize code) = estimateSize_double (Z.of_nat (length code)).
Proof.
  intros code H. rewrite estimateSize_double_exact by lia.
  unfold estimateSize. rewrite Nat2Z.inj_div. f_equal. lia.
Qed.

(* ================================================================= *)
(** ** The aggregation: what the file map holds *)

Lemma list_sum_perm : forall l l', Permutation l l' -> list_sum l = list_sum l'.
Proof.
  induction 1; simpl; lia.
Qed.

Lemma fold_left_add : forall (A : Type) (f : A -> nat) l n,
    fold_left (fun sum e => sum + f e) l n = n + list_sum (map f l).
Proof.
  intros A f. induction l as [|x l IH]; intro n; simpl; [lia|].
  rewrite IH. lia.
Qed.

(** Setting a key that is absent appends; setting one that is present
    replaces the first entry that carries it. *)
Lemma map_set_absent : forall mp key v,
    map_get mp key = None -> map_set mp key v = mp ++ [v].
Proof.
  induction mp as [|fa mp IH]; intros key v H; simpl in *; [reflexivity|].
  destruct (str_eqb (FileAnalysis.file fa) key); [discriminate|].
  now rewrite IH.
Qed.

Lemma map_set_present : forall mp key fa v,
    map_get mp key = Some fa ->
    exists l1 l2, mp = l1 ++ fa :: l2 /\ map_set mp key v = l1 ++ v :: l2
                  /\ FileAnalysis.file fa = key.
Proof.
  induction mp as [|x mp IH]; intros key fa v H; simpl in *; [discriminate|].
  destruct (str_eqb (FileAnalysis.file x) key) eqn:E.
  - injection H as ->. exists [], mp. apply str_eqb_eq in E. auto.
  - destruct (IH _ _ v H) as (l1 & l2 & -> & -> & Hk).
    exists (x :: l1), l2. auto.
Qed.

Lemma map_get_last : forall mp key v,
    map_get mp key = None -> FileAnalysis.file v = key ->
    map_get (mp ++ [v]) key = Some v.
Proof.
  induction mp as [|fa mp IH]; intros key v H Hv; simpl in *.
  - subst. now rewrite str_eqb_refl.
  - destruct (str_eqb (FileAnalysis.file fa) key); [discriminate|]. auto.
Qed.

Lemma map_set_last : forall mp key v v',
    map_get mp key = None -> FileAnalysis.file v = key ->
    map_set (mp ++ [v]) key v' = mp ++ [v'].
Proof.
  induction mp as [|fa mp IH]; intros key v v' H Hv; simpl in *.
  - subst. now rewrite str_eqb_refl.
  - destruct (str_eqb (FileAnalysis.file fa) key); [discriminate|].
    f_equal. auto.
Qed.

(** One recorded analysis either extends the entry of its file in place or
    appends a fresh entry holding it alone. *)
Lemma record_analysis_cases : forall mp a,
    let key := ExportedItem.file (ExportAnalysis.export a) in
    (exists l1 fa l2, mp = l1 ++ fa :: l2 /\ FileAnalysis.file fa = key
                      /\ record_analysis mp a = l1 ++ push_analysis fa a :: l2)
    \/ (map_get mp key = None
        /\ record_analysis mp a
           = mp ++ [push_analysis (FileAnalysis.Make key [] 0 0) a]).
Proof.
  intros mp a key. unfold record_analysis, map_has. fold key.
  destruct (map_get mp key) as [fa|] eqn:E.
  - left. rewrite E.
    destruct (map_set_present _ _ _ (push_analysis fa a) E) as (l1 & l2 & H1 & H2 & H3).
    exists l1, fa, l2. auto.
  - right. split; [reflexivity|].
    rewrite (map_set_absent _ _ _ E).
    rewrite (map_get_last _ _ _ E) by reflexivity.
    now apply map_set_last.
Qed.

(** A quantity that is zero on a fresh entry and grows by [d a] when [a] is
    pushed sums, over the map, to the total of [d] over what was recorded. *)
Lemma record_analysis_sum : forall (g : FileAnalysis.t -> nat) (d : ExportAnalysis.t -> nat),
    (forall key, g (FileAnalysis.Make key [] 0 0) = 0) ->
    (forall fa a, g (push_analysis fa a) = g fa + d a) ->
    forall mp a,
      list_sum (map g (record_analysis mp a)) = list_sum (map g mp) + d a.
Proof.
  intros g d G0 Gp mp a.
  destruct (record_analysis_cases mp a) as [(l1 & fa & l2 & -> & _ & ->)|[_ ->]].
  - rewrite !map_app, !list_sum_app. simpl. rewrite Gp. lia.
  - rewrite map_app, list_sum_app. simpl. rewrite Gp, G0. lia.
Qed.

Lemma recorded_sum : forall (g : FileAnalysis.t -> nat) (d : ExportAnalysis.t -> nat),
    (forall key, g (FileAnalysis.Make key [] 0 0) = 0) ->
    (forall fa a, g (push_analysis fa a) = g fa + d a) ->
    forall l mp,
      list_sum (map g (fold_left record_analysis l mp))
      = list_sum (map g mp) + list_sum (map d l).
Proof.
  intros g d G0 Gp. induction l as [|a l IH]; intro mp; simpl; [lia|].
  rewrite IH, (record_analysis_sum g d G0 Gp). lia.
Qed.

Lemma unused_size_sum : forall fa,
    unused_size fa = list_sum (map unused_bytes (FileAnalysis.exports fa)).
Proof.
  intro fa. unfold unused_size. rewrite fold_left_add. simpl.
  induction (FileAnalysis.exports fa) as [|a l IH]; simpl; [reflexivity|].
  unfold unused_bytes at 1. destruct (ExportAnalysis.isUnused a); simpl; lia.
Qed.

Lemma unused_size_push : forall fa a,
    unused_size (push_analysis fa a) = unused_size fa + unused_bytes a.
Proof.
  intros fa a. rewrite !unused_size_sum.
  unfold push_analysis. cbn [FileAnalysis.exports].
  rewrite map_app, list_sum_app. simpl. lia.
Qed.

Lemma exports_count_push : forall fa a,
    exports_count (push_analysis fa a) = exports_count fa + 1.
Proof. intros. unfold exports_count. simpl. now rewrite length_app. Qed.

Lemma unusedCount_push : forall fa a,
    FileAnalysis.unusedCount (push_analysis fa a)
    = FileAnalysis.unusedCount fa + unused_one a.
Proof.
  intros fa a. unfold unused_one. simpl.
  destruct (ExportAnalysis.isUnused a); lia.
Qed.

Lemma entry_ok_push : forall l fa a,
    (FileAnalysis.exports fa = [] \/ entry_ok l fa) ->
    (forall a', In a' (FileAnalysis.exports fa) ->
        In a' l /\ ExportedItem.file (ExportAnalysis.export a') = FileAnalysis.file fa) ->
    FileAnalysis.unusedCount fa = list_sum (map unused_one (FileAnalysis.exports fa)) ->
    FileAnalysis.unusedCount fa + FileAnalysis.usedCount fa
    = length (FileAnalysis.exports fa) ->
    In a l -> ExportedItem.file (ExportAnalysis.export a) = FileAnalysis.file fa ->
    entry_ok l (push_analysis fa a).
Proof.
  intros l fa a _ H2 H3 H4 Ha Hf. repeat split.
  - simpl. intro E. now apply app_eq_nil in E as [_ E].
  - simpl in H. apply in_app_or in H as [H|[<-|[]]]; [now apply H2 | exact Ha].
  - simpl in H. apply in_app_or in H as [H|[<-|[]]]; [now apply H2 | exact Hf].
  - rewrite unusedCount_push. unfold push_analysis. cbn [FileAnalysis.exports].
    rewrite map_app, list_sum_app. simpl. lia.
  - simpl. rewrite length_app. simpl.
    destruct (ExportAnalysis.isUnused a); lia.
Qed.

Lemma record_analysis_ok : forall l mp a,
    Forall (entry_ok l) mp -> In a l ->
    Forall (entry_ok l) (record_analysis mp a).
Proof.
  intros l mp a Hmp Ha.
  destruct (record_analysis_cases mp a) as [(l1 & fa & l2 & -> & Hk & ->)|[_ ->]].
  - apply Forall_app in Hmp as [F1 F2]. inversion F2 as [|? ? Hfa F3]; subst.
    apply Forall_app. split; [exact F1|]. constructor; [|exact F3].
    destruct Hfa as (H1 & H2 & H3 & H4).
    apply entry_ok_push; auto. right. repeat split; auto; now apply H2.
  - apply Forall_app. split; [exact Hmp|]. constructor; [|constructor].
    apply entry_ok_push; simpl; auto. intros a' [].
Qed.

Lemma recorded_ok : forall l done todo mp,
    l = done ++ todo ->
    Forall (entry_ok l) mp ->
    Forall (entry_ok l) (fold_left record_analysis todo mp).
Proof.
  intros l done todo. revert done.
  induction todo as [|a todo IH]; intros done mp Hl Hmp; simpl; [exact Hmp|].
  apply (IH (done ++ [a])).
  - rewrite Hl, <- app_assoc. reflexivity.
  - apply record_analysis_ok; [exact Hmp|].
    rewrite Hl. apply in_or_app. right. now left.
Qed.

(** The stable sort permutes its argument. *)
Lemma insert_sorted_perm : forall cmp x l,
    Permutation (insert_sorted cmp x l) (x :: l).
Proof.
  intros cmp x. induction l as [|y l IH]; simpl; [reflexivity|].
  destruct (cmp y x <? 0)%Z; [|reflexivity].
  rewrite IH. apply perm_swap.
Qed.

Lemma sort_by_perm : forall cmp l, Permutation (sort_by cmp l) l.
Proof.
  intros cmp. induction l as [|x l IH]; simpl; [reflexivity|].
  rewrite insert_sorted_perm. now constructor.
Qed.

Lemma filter_all : forall (A : Type) (p : A -> bool) l,
    Forall (fun x => p x = true) l -> filter p l = l.
Proof.
  intros A p. induction l as [|x l IH]; intro H; simpl; [reflexivity|].
  inversion H; subst. rewrite H2. f_equal. auto.
Qed.

Lemma add_totals_sum : forall l t1 t2 t3,
    fold_left add_totals l (t1, t2, t3)
    = (t1 + list_sum (map exports_count l),
       t2 + list_sum (map FileAnalysis.unusedCount l),
       t3 + list_sum (map unused_size l)).
Proof.
  induction l as [|fa l IH]; intros t1 t2 t3; simpl.
  - f_equal; [f_equal|]; lia.
  - rewrite IH. unfold exports_count. f_equal; [f_equal|]; lia.
Qed.

(* ================================================================= *)
(** ** The matches of a scan lie in the text scanned *)

Lemma placed_start : forall content, placed content (start_of content).
Proof. intro content. exists []. split; reflexivity. Qed.

Lemma placed_advanced : forall content c w c',
    placed content c -> advanced c w c' -> placed content c'.
Proof.
  intros content c w c' (pre & E & P) [E' P'].
  exists (pre ++ w). split.
  - rewrite E, E', app_assoc. reflexivity.
  - rewrite P', P, length_app. reflexivity.
Qed.

Lemma placed_skipn : forall content c,
    placed content c ->
    skipn (cpos c) content = crest c /\ cpos c <= length content.
Proof.
  intros content c (pre & E & P). rewrite E, P. split.
  - rewrite skipn_app, skipn_all, Nat.sub_diag. reflexivity.
  - rewrite length_app. lia.
Qed.

Lemma exec_placed : forall content r c x,
    placed content c -> exec r c = Some x ->
    placed content (mstart x) /\ Matches r (mstart x) (mend x)
    /\ placed content (mend x).
Proof.
  intros content r c x Hc H. unfold exec in H.
  apply search_sound in H as (pre & Hs & Hp & Hm).
  assert (Hst : placed content (mstart x)).
  { apply (placed_advanced content c pre); [exact Hc|]. split; assumption. }
  split; [exact Hst|]. split; [exact Hm|].
  destruct (Matches_advanced _ _ _ Hm) as (w & Ha & _).
  eapply placed_advanced; eassumption.
Qed.

Lemma exec_loop_placed : forall content r fuel c x,
    placed content c -> In x (exec_loop fuel r c) ->
    placed content (mstart x) /\ Matches r (mstart x) (mend x).
Proof.
  intros content r. induction fuel as [|f IH]; intros c x Hc Hin; simpl in Hin.
  - destruct Hin.
  - destruct (exec r c) as [y|] eqn:E; [|destruct Hin].
    destruct (exec_placed content r c y Hc E) as (H1 & H2 & H3).
    destruct Hin as [<-|Hin]; [auto|]. eapply IH; eassumption.
Qed.

(** Every match reported by a scan starts at its index in the content and
    is a match of the expression there. *)
Lemma matchAll_placed : forall r content x,
    In x (matchAll r content) ->
    skipn (index x) content = crest (mstart x)
    /\ index x <= length content
    /\ Matches r (mstart x) (mend x).
Proof.
  intros r content x H. unfold matchAll in H.
  apply (exec_loop_placed content) in H as [H1 H2]; [|apply placed_start].
  destruct (placed_skipn _ _ H1). auto.
Qed.

(* ================================================================= *)
(** ** The text a declaration is sized by *)

Lemma find_from_spec : forall sub s i,
    match find_from sub s i with
    | Some j => exists k, j = i + k /\ k <= length s
                          /\ startsWith (skipn k s) sub = true
                          /\ forall k', k' < k -> startsWith (skipn k' s) sub = false
    | None => forall k, k <= length s -> startsWith (skipn k s) sub = false
    end.
Proof.
  intros sub. induction s as [|x s IH]; intro i.
  - cbn [find_from]. destruct (startsWith [] sub) eqn:E.
    + exists 0. repeat split; [lia | apply Nat.le_refl | exact E | intros; lia].
    + intros k _. destruct k; exact E.
  - cbn [find_from]. destruct (startsWith (x :: s) sub) eqn:E.
    + exists 0. repeat split; [lia | apply Nat.le_0_l | exact E | intros; lia].
    + specialize (IH (S i)). destruct (find_from sub s (S i)) as [j|].
      * destruct IH as (k & -> & Hk & H1 & H2).
        exists (S k). repeat split; [lia | simpl; lia | exact H1 |].
        intros [|k'] Hlt; [exact E | apply H2; lia].
      * intros [|k] Hk; [exact E | apply IH; simpl in Hk; lia].
Qed.

(** [code_of content i] is the text from [i] up to the first blank line
    (two line feeds in a row) at or after [i], or up to the end of the
    content when there is none. *)
Lemma code_of_spec : forall content i,
    i <= length content ->
    exists rest,
      skipn i content = code_of content i ++ rest
      /\ (rest = [] \/ startsWith rest [LF; LF] = true)
      /\ (forall k, k < length (code_of content i) ->
                    startsWith (skipn (i + k) content) [LF; LF] = false).
Proof.
  intros content i Hi. unfold code_of, indexOf, slice.
  rewrite Nat.min_l by exact Hi.
  pose proof (find_from_spec [LF; LF] (skipn i content) i) as H.
  destruct (find_from [LF; LF] (skipn i content) i) as [j|].
  - destruct H as (k & -> & Hk & H1 & H2).
    replace (i + k - i) with k by lia.
    exists (skipn k (skipn i content)). split; [now rewrite firstn_skipn|].
    split; [now right|].
    intros k' Hk'. rewrite length_firstn in Hk'.
    replace (i + k') with (k' + i) by lia.
    rewrite <- skipn_skipn. apply H2. lia.
  - exists []. rewrite app_nil_r.
    assert (E : firstn (length content - i) (skipn i content) = skipn i content).
    { apply firstn_all2. rewrite length_skipn. lia. }
    rewrite E. split; [reflexivity|]. split; [now left|].
    intros k Hk. rewrite length_skipn in Hk.
    replace (i + k) with (k + i) by lia.
    rewrite <- skipn_skipn. apply H. rewrite length_skipn. lia.
Qed.

(** [(6 n + 5) / 10] is the integer nearest to [0.6 n]. *)
Lemma estimateSize_nearest : forall code,
    10 * estimateSize code <= 6 * length code + 5 < 10 * estimateSize code + 10.
Proof.
  intro code. unfold estimateSize.
  pose proof (Nat.div_mod (6 * length code + 5) 10).
  pose proof (Nat.mod_upper_bound (6 * length code + 5) 10). lia.
Qed.

(* ================================================================= *)
(** ** Where the items of [extractExports] come from *)

Lemma declared_exports_In : forall content filePath e,
    In e (declared_exports content filePath) <->
    exists p mt, In p patterns /\ In mt (matchAll (fst p) content)
                 /\ e = declared_item content filePath (snd p) mt.
Proof.
  intros content filePath e. unfold declared_exports. rewrite in_flat_map. split.
  - intros (p & Hp & He). apply in_map_iff in He as (mt & <- & Hmt).
    exists p, mt. auto.
  - intros (p & mt & Hp & Hmt & ->). exists p. split; [exact Hp|].
    now apply in_map.
Qed.

Lemma push_listed_In : forall filePath line names exports e,
    In e (fold_left (push_listed filePath line) names exports) ->
    In e exports \/ listed_item filePath e.
Proof.
  intros filePath line. induction names as [|n names IH]; intros exports e H; simpl in H.
  - now left.
  - apply IH in H as [H|H]; [|now right].
    unfold push_listed in H.
    destruct (negb (is_empty n) && negb (has_name exports n)) eqn:E; [|now left].
    apply in_app_or in H as [H|[<-|[]]]; [now left|].
    right. exists n, line. split; [|reflexivity].
    apply andb_true_iff in E as [E _]. now destruct n.
Qed.

Lemma push_export_lists_In : forall content filePath mts exports e,
    In e (fold_left (push_export_list content filePath) mts exports) ->
    In e exports \/ listed_item filePath e.
Proof.
  intros content filePath. induction mts as [|mt mts IH]; intros exports e H; simpl in H.
  - now left.
  - apply IH in H as [H|H]; [|now right].
    unfold push_export_list in H. now apply push_listed_In in H.
Qed.


(* ================================================================= *)
(** ** The usage matcher and the report *)

Lemma mem_In : forall x l, mem x l = true <-> In x l.
Proof.
  intros x l. unfold mem. rewrite existsb_exists. split.
  - intros (y & Hy & E). apply str_eqb_eq in E. now subst.
  - intro H. exists x. split; [exact H | apply str_eqb_refl].
Qed.

Lemma uniq_step_In : forall xs acc x,
    In x (fold_left (fun acc x => if mem x acc then acc else acc ++ [x]) xs acc)
    <-> In x acc \/ In x xs.
Proof.
  induction xs as [|y xs IH]; intros acc x; simpl.
  - tauto.
  - rewrite IH. destruct (mem y acc) eqn:E.
    + apply mem_In in E. split; [tauto|]. intros [H|[<-|H]]; auto.
    + rewrite in_app_iff. simpl. tauto.
Qed.

Lemma uniq_In : forall xs x, In x (uniq xs) <-> In x xs.
Proof. intros xs x. unfold uniq. rewrite uniq_step_In. simpl. tauto. Qed.

Lemma uniq_nil : forall xs, uniq xs = [] <-> xs = [].
Proof.
  intros xs. split; intro H.
  - destruct xs as [|x xs]; [reflexivity|].
    assert (Hx : In x (uniq (x :: xs))) by (apply uniq_In; now left).
    rewrite H in Hx. destruct Hx.
  - now subst.
Qed.

(** An export is unused exactly when no import reference uses it. *)
Lemma isUnused_iff : forall allImports exp,
    ExportAnalysis.isUnused (analyse allImports exp) = true
    <-> filter (uses exp) allImports = [].
Proof.
  intros allImports exp. unfold analyse. simpl. rewrite Nat.eqb_eq, length_zero_iff_nil.
  rewrite uniq_nil. split; intro H.
  - now apply map_eq_nil in H.
  - now rewrite H.
Qed.

Lemma isUnused_false_iff : forall allImports exp,
    ExportAnalysis.isUnused (analyse allImports exp) = false
    <-> exists imp, In imp allImports /\ uses exp imp = true.
Proof.
  intros allImports exp. split.
  - intro H. destruct (filter (uses exp) allImports) as [|imp l] eqn:E.
    + apply isUnused_iff in E. congruence.
    + exists imp. apply filter_In. rewrite E. now left.
  - intros (imp & Hi & Hu).
    destruct (ExportAnalysis.isUnused (analyse allImports exp)) eqn:E; [|reflexivity].
    apply isUnused_iff in E.
    assert (Hin : In imp (filter (uses exp) allImports)) by (apply filter_In; auto).
    rewrite E in Hin. destruct Hin.
Qed.

(** The report in terms of the file map: the files are the entries of the
    map, reordered; the totals are sums over what was recorded. *)
Lemma analyzeUsage_report : forall includeTypes allExports allImports,
    let analyses := map (analyse allImports) (filteredExports includeTypes allExports) in
    let report := analyzeUsage includeTypes allExports allImports in
    Permutation (ScanResult.files report) (fold_left record_analysis analyses [])
    /\ Forall (entry_ok analyses) (ScanResult.files report)
    /\ ScanResult.totalExports report
       = list_sum (map exports_count (ScanResult.files report))
    /\ ScanResult.unusedExports report
       = list_sum (map FileAnalysis.unusedCount (ScanResult.files report))
    /\ ScanResult.estimatedSavings report
       = list_sum (map unused_size (ScanResult.files report))
    /\ ScanResult.usedExports report
       = ScanResult.totalExports report - ScanResult.unusedExports report.
Proof.
  intros includeTypes allExports allImports analyses report.
  unfold report, analyzeUsage. fold (filteredExports includeTypes allExports).
  fold analyses.
  set (mp := fold_left record_analysis analyses []).
  assert (Hok : Forall (entry_ok analyses) mp).
  { apply (recorded_ok analyses [] analyses); [reflexivity | constructor]. }
  assert (Hf : filter (fun f => 0 <? length (FileAnalysis.exports f)) mp = mp).
  { apply filter_all. eapply Forall_impl; [|exact Hok].
    intros fa (H1 & _). apply Nat.ltb_lt.
    destruct (FileAnalysis.exports fa); [contradiction | simpl; lia]. }
  rewrite Hf, add_totals_sum. simpl.
  pose proof (sort_by_perm by_unused_desc mp) as Hp.
  repeat split; try reflexivity.
  - exact Hp.
  - eapply Permutation_Forall; [symmetry; exact Hp | exact Hok].
Qed.

(** The totals in terms of the exports that entered the matching. *)
Lemma analyzeUsage_totals : forall includeTypes allExports allImports,
    let analyses := map (analyse allImports) (filteredExports includeTypes allExports) in
    let report := analyzeUsage includeTypes allExports allImports in
    ScanResult.totalExports report = length analyses
    /\ ScanResult.unusedExports report = list_sum (map unused_one analyses)
    /\ ScanResult.estimatedSavings report = list_sum (map unused_bytes analyses).
Proof.
  intros includeTypes allExports allImports analyses report.
  destruct (analyzeUsage_report includeTypes allExports allImports)
    as (Hp & _ & H1 & H2 & H3 & _).
  fold analyses report in Hp, H1, H2, H3.
  rewrite H1, H2, H3.
  rewrite (list_sum_perm _ _ (Permutation_map exports_count Hp)).
  rewrite (list_sum_perm _ _ (Permutation_map FileAnalysis.unusedCount Hp)).
  rewrite (list_sum_perm _ _ (Permutation_map unused_size Hp)).
  rewrite (recorded_sum exports_count (fun _ => 1)); [|reflexivity|apply exports_count_push].
  rewrite (recorded_sum FileAnalysis.unusedCount unused_one);
    [|reflexivity|apply unusedCount_push].
  rewrite (recorded_sum unused_size unused_bytes); [|reflexivity|apply unused_size_push].
  simpl. repeat split; try reflexivity.
  clear. induction analyses as [|a l IH]; simpl; [reflexivity | now rewrite IH].
Qed.

(* ================================================================= *)
(** ** The scan on any platform *)

Section ScanProperties.

Variable readFileSync : jsstring -> option jsstring.
Variable dirname : jsstring -> jsstring.
Variable resolve : jsstring -> jsstring -> jsstring.
Variable glob :
  list jsstring -> jsstring -> list jsstring -> option (list jsstring).

Local Abbreviation resolve_import := (resolveImportPath readFileSync dirname resolve).
Local Abbreviation analyze := (analyzeExports readFileSync dirname resolve glob).
Local Abbreviation scanned_from := (scanned readFileSync dirname resolve).

Lemma analyzeExports_eq : forall rootDir options,
    analyze rootDir options =
    match glob DEFAULT_INCLUDE rootDir (excludes_of options) with
    | None => None
    | Some files =>
        Some (analyzeUsage (includeTypes_of options)
                           (fst (scanned_from rootDir files))
                           (snd (scanned_from rootDir files)))
    end.
Proof.
  intros rootDir options.
  unfold analyzeExports, excludes_of, includeTypes_of.
  destruct (glob _ _ _) as [files|]; [|reflexivity].
  unfold scanned.
  now destruct (fold_left _ files _).
Qed.

Lemma probe_first : forall base pre ext post,
    (forall e, In e pre -> readFileSync (base ++ e) = None) ->
    readFileSync (base ++ ext) <> None ->
    probe readFileSync base (pre ++ ext :: post) = base ++ ext.
Proof.
  intros base. induction pre as [|e pre IH]; intros ext post Hpre Hext; simpl.
  - destruct (readFileSync (base ++ ext)); [reflexivity | contradiction].
  - rewrite (Hpre e) by now left. apply IH; [|exact Hext].
    intros e' He'. apply Hpre. now right.
Qed.

Lemma probe_none : forall base exts,
    (forall e, In e exts -> readFileSync (base ++ e) = None) ->
    probe readFileSync base exts = base.
Proof.
  intros base. induction exts as [|e exts IH]; intro H; simpl; [reflexivity|].
  rewrite (H e) by now left. apply IH. intros e' He'. apply H. now right.
Qed.

(** C3 (as amended): the resolver probes [base + ext] for the extensions
    [.ts], [.tsx], [.js], [.jsx], [.mjs], [/index.ts], [/index.tsx],
    [/index.js] in this order and returns the first candidate that can be
    read; when none can, it returns the joined base path itself.  The base
    path is never probed. *)
Theorem resolveImportPath_first_readable_candidate :
  forall importPath fromFile rootDir,
    let base := resolve (dirname fromFile) importPath in
    extensions = [js ".ts"; js ".tsx"; js ".js"; js ".jsx"; js ".mjs";
                  js "/index.ts"; js "/index.tsx"; js "/index.js"]
    /\ (forall pre ext post,
           extensions = pre ++ ext :: post ->
           (forall e, In e pre -> readFileSync (base ++ e) = None) ->
           readFileSync (base ++ ext) <> None ->
           resolve_import importPath fromFile rootDir = base ++ ext)
    /\ ((forall e, In e extensions -> readFileSync (base ++ e) = None) ->
        resolve_import importPath fromFile rootDir = base).
Proof.
  intros importPath fromFile rootDir base. split; [reflexivity|]. split.
  - intros pre ext post E Hpre Hext.
    unfold resolveImportPath. fold base.
    rewrite E. now apply probe_first.
  - intro H. unfold resolveImportPath. fold base.
    now apply probe_none.
Qed.

Lemma scan_file_unreadable : forall rootDir acc file,
    readable readFileSync file = false ->
    scan_file readFileSync dirname resolve rootDir acc file = acc.
Proof.
  intros rootDir acc file H. unfold scan_file, readable in *.
  now destruct (readFileSync file).
Qed.

Lemma scanned_readable_only : forall rootDir files acc,
    fold_left (scan_file readFileSync dirname resolve rootDir) files acc
    = fold_left (scan_file readFileSync dirname resolve rootDir)
                (filter (readable readFileSync) files) acc.
Proof.
  intros rootDir. induction files as [|f files IH]; intro acc; simpl; [reflexivity|].
  destruct (readable readFileSync f) eqn:E; simpl.
  - apply IH.
  - rewrite scan_file_unreadable by exact E. apply IH.
Qed.

(** C5 (as amended): the analyzer has no check of its own on the root
    directory.  It fails exactly when the directory traversal fails, and
    then produces no report at all; whenever the traversal yields a file
    list it returns a complete report, to which the files that cannot be
    read contribute nothing: the report is the one of the readable files
    alone. *)
Theorem analyzeExports_failure_modes :
  forall rootDir options,
    match glob DEFAULT_INCLUDE rootDir (excludes_of options) with
    | None => analyze rootDir options = None
    | Some files =>
        let kept := filter (readable readFileSync) files in
        analyze rootDir options
        = Some (analyzeUsage (includeTypes_of options)
                             (fst (scanned_from rootDir kept))
                             (snd (scanned_from rootDir kept)))
    end.
Proof.
  intros rootDir options. rewrite analyzeExports_eq.
  destruct (glob _ _ _) as [files|]; [|reflexivity].
  simpl. unfold scanned.
  now rewrite <- scanned_readable_only.
Qed.

(** C6: a default export and a default import whose resolved source file
    denotes the export's file (equal once the source extensions are
    stripped) match whatever their names: the import's file is among the
    consumers, the export is not unused, and the names of neither enter the
    decision. *)
Theorem default_export_matches_default_import :
  forall allImports exp imp,
    ExportedItem.isDefault exp = true ->
    ImportReference.isDefault imp = true ->
    stripExt (ImportReference.fromFile imp) = stripExt (ExportedItem.file exp) ->
    In imp allImports ->
    uses exp imp = true
    /\ In (ImportReference.toFile imp) (ExportAnalysis.usedIn (analyse allImports exp))
    /\ ExportAnalysis.isUnused (analyse allImports exp) = false
    /\ (forall n n',
           uses (ExportedItem.Make n (ExportedItem.type exp) (ExportedItem.file exp)
                   (ExportedItem.line exp) true (ExportedItem.estimatedSize exp))
                (ImportReference.Make n' (ImportReference.fromFile imp)
                   (ImportReference.toFile imp) (ImportReference.line imp)
                   (ImportReference.isDefault imp))
           = true).
Proof.
  intros allImports exp imp He Hi Hs Hin.
  assert (Hsame : forall n n' t l sz t' l',
             uses (ExportedItem.Make n t (ExportedItem.file exp) l true sz)
                  (ImportReference.Make n' (ImportReference.fromFile imp) t' l' true)
             = true).
  { intros. unfold uses, isSameFile. simpl.
    rewrite Hs, str_eqb_refl, orb_true_r. reflexivity. }
  assert (Hu : uses exp imp = true).
  { destruct exp, imp. simpl in *. subst. apply Hsame. }
  repeat split.
  - exact Hu.
  - unfold analyse. simpl. apply uniq_In. apply in_map. apply filter_In. auto.
  - apply isUnused_false_iff. exists imp. auto.
  - intros n n'. rewrite Hi. apply Hsame.
Qed.

Lemma counts_split : forall l fas,
    Forall (entry_ok l) fas ->
    list_sum (map exports_count fas)
    = list_sum (map FileAnalysis.unusedCount fas)
      + list_sum (map FileAnalysis.usedCount fas).
Proof.
  intros l. induction 1 as [|fa fas (_ & _ & _ & H4) _ IH]; simpl; [reflexivity|].
  unfold exports_count at 1. lia.
Qed.

(** C8: with [includeTypes] false (or left out) the exports of kind [type]
    and [interface] are removed before the matching: the total counts the
    other exports only, whatever the imports; no record of the report holds
    a type export; and a file all of whose exports are type exports has no
    entry in the report. *)
Theorem includeTypes_false_removes_type_exports :
  forall rootDir options files report,
    includeTypes options <> Some true ->
    glob DEFAULT_INCLUDE rootDir (excludes_of options) = Some files ->
    analyze rootDir options = Some report ->
    let allExports := fst (scanned_from rootDir files) in
    ScanResult.totalExports report
    = length (filter (fun e => negb (is_type_export e)) allExports)
    /\ (forall fa a,
           In fa (ScanResult.files report) -> In a (FileAnalysis.exports fa) ->
           ExportedItem.type (ExportAnalysis.export a) <> TType
           /\ ExportedItem.type (ExportAnalysis.export a) <> TInterface)
    /\ (forall f,
           (forall e, In e allExports -> ExportedItem.file e = f ->
                      ExportedItem.type e = TType \/ ExportedItem.type e = TInterface) ->
           forall fa, In fa (ScanResult.files report) -> FileAnalysis.file fa <> f).
Proof.
  intros rootDir options files report Hopt Hg Hr allExports.
  rewrite analyzeExports_eq, Hg in Hr. injection Hr as <-.
  assert (Hinc : includeTypes_of options = false).
  { unfold includeTypes_of. destruct (includeTypes options) as [[|]|]; congruence. }
  rewrite Hinc. fold allExports.
  set (allImports := snd (scanned_from rootDir files)).
  destruct (analyzeUsage_totals false allExports allImports) as (Ht & _).
  destruct (analyzeUsage_report false allExports allImports) as (_ & Hok & _).
  assert (Hrec : forall fa a,
             In fa (ScanResult.files (analyzeUsage false allExports allImports)) ->
             In a (FileAnalysis.exports fa) ->
             In (ExportAnalysis.export a) allExports
             /\ is_type_export (ExportAnalysis.export a) = false
             /\ ExportedItem.file (ExportAnalysis.export a) = FileAnalysis.file fa).
  { intros fa a Hfa Ha. rewrite Forall_forall in Hok.
    destruct (Hok fa Hfa) as (_ & H2 & _). destruct (H2 a Ha) as [Hin Hfile].
    apply in_map_iff in Hin as (e & <- & He). simpl in *.
    apply filter_In in He as [He Ht']. apply negb_true_iff in Ht'. auto. }
  repeat split.
  - rewrite Ht, length_map. reflexivity.
  - destruct (Hrec fa a H H0) as (_ & Hty & _). unfold is_type_export in Hty.
    intro E. rewrite E in Hty. discriminate.
  - destruct (Hrec fa a H H0) as (_ & Hty & _). unfold is_type_export in Hty.
    intro E. rewrite E in Hty. discriminate.
  - intros f Hall fa Hfa Hfile. rewrite Forall_forall in Hok.
    destruct (Hok fa Hfa) as (Hne & _).
    destruct (FileAnalysis.exports fa) as [|a l] eqn:E; [contradiction|].
    destruct (Hrec fa a Hfa) as (Hin & Hty & Hf); [rewrite E; now left|].
    unfold is_type_export in Hty.
    destruct (Hall _ Hin) as [Ht'|Ht']; [congruence| |]; rewrite Ht' in Hty; discriminate.
Qed.

(** C9: the totals of a report are the sums over its file reports, and the
    estimated savings add up the estimated sizes of the unused records
    only; when three exports enter the matching and no import reference
    uses any of them, the report counts three exports, all three unused,
    none used, and the savings are the sum of their three estimated sizes. *)
Theorem report_totals_are_sums :
  forall rootDir options files report,
    glob DEFAULT_INCLUDE rootDir (excludes_of options) = Some files ->
    analyze rootDir options = Some report ->
    let allExports := fst (scanned_from rootDir files) in
    let allImports := snd (scanned_from rootDir files) in
    ScanResult.totalExports report
    = list_sum (map (fun fa => length (FileAnalysis.exports fa)) (ScanResult.files report))
    /\ ScanResult.unusedExports report
       = list_sum (map FileAnalysis.unusedCount (ScanResult.files report))
    /\ ScanResult.usedExports report
       = list_sum (map FileAnalysis.usedCount (ScanResult.files report))
    /\ ScanResult.estimatedSavings report
       = list_sum (map (fun fa =>
                          list_sum (map (fun a => ExportedItem.estimatedSize
                                                    (ExportAnalysis.export a))
                                        (filter ExportAnalysis.isUnused
                                                (FileAnalysis.exports fa))))
                       (ScanResult.files report))
    /\ (forall e1 e2 e3,
           filteredExports (includeTypes_of options) allExports = [e1; e2; e3] ->
           (forall e imp, In e [e1; e2; e3] -> In imp allImports -> uses e imp = false) ->
           ScanResult.totalExports report = 3
           /\ ScanResult.unusedExports report = 3
           /\ ScanResult.usedExports report = 0
           /\ ScanResult.estimatedSavings report
              = ExportedItem.estimatedSize e1 + ExportedItem.estimatedSize e2
                + ExportedItem.estimatedSize e3).
Proof.
  intros rootDir options files report Hg Hr allExports allImports.
  rewrite analyzeExports_eq, Hg in Hr. injection Hr as <-.
  fold allExports allImports.
  set (inc := includeTypes_of options).
  destruct (analyzeUsage_report inc allExports allImports)
    as (_ & Hok & H1 & H2 & H3 & H4).
  destruct (analyzeUsage_totals inc allExports allImports) as (T1 & T2 & T3).
  pose proof (counts_split _ _ Hok) as Hsplit.
  split; [exact H1|]. split; [exact H2|]. split; [rewrite H4, H1, H2; lia|].
  split.
  - rewrite H3. f_equal. apply map_ext. intro fa. unfold unused_size.
    rewrite fold_left_add. reflexivity.
  - intros e1 e2 e3 Hf Hno.
    assert (Hun : forall e, In e [e1; e2; e3] ->
                            ExportAnalysis.isUnused (analyse allImports e) = true).
    { intros e He. apply isUnused_iff.
      destruct (filter (uses e) allImports) as [|imp l] eqn:E; [reflexivity|].
      assert (Hin : In imp (filter (uses e) allImports)) by (rewrite E; now left).
      apply filter_In in Hin as [Hin Hu]. rewrite (Hno e imp He Hin) in Hu.
      discriminate. }
    rewrite H4, T1, T2, T3. fold inc. rewrite Hf. simpl.
    unfold unused_one, unused_bytes.
    rewrite !Hun by (simpl; auto). simpl. repeat split; lia.
Qed.

End ScanProperties.

(* ================================================================= *)
(** ** Export extraction: sizes and duplicates *)




(** C2: the code keeps duplicates.  The two overload signatures and the
    implementation of [parse] give three entries with the same name, none
    of them a default export; only the names of [export { ... }] lists are
    checked against the entries already there. *)
Theorem duplicate_declarations_are_kept :
  extractExports text_overloads (js "/p/a.ts")
  = [ item "parse" TFunction "/p/a.ts" 1 false 88;
      item "parse" TFunction "/p/a.ts" 2 false 61;
      item "parse" TFunction "/p/a.ts" 3 false 33 ].
Proof. vm_compute. reflexivity. Qed.

(* ================================================================= *)
(** ** Imports and resolution on concrete projects *)

(** C1: the code does not see namespace imports.  [b.ts] imports [a.ts] as
    a namespace; the import scan of [b.ts] yields no reference, and the
    export [helper] of [a.ts] is reported unused. *)
Theorem namespace_import_marks_nothing_used :
  imports_in fs_namespace (js "import * as ns from './a'") "/p/b.ts" = []
  /\ scan_project fs_namespace no_options
     = Some (ScanResult.Make
               [FileAnalysis.Make (js "/p/a.ts")
                  [ExportAnalysis.Make (item "helper" TFunction "/p/a.ts" 1 false 16)
                                       0 [] true]
                  1 0]
               1 1 0 16).
Proof. vm_compute. split; reflexivity. Qed.

(** C3 does not hold as the specification states it: [/p/a.js] can be
    read, and still the import of ['./a.js'] from [/p/b.ts] resolves to
    [/p/a.js.ts]. *)
Lemma literal_path_is_not_probed_first :
  posix_resolve (js "/") (posix_dirname (js "/p/b.ts")) (js "./a.js") = js "/p/a.js"
  /\ fs_read fs_two_candidates (js "/p/a.js") = Some (js "export const a = 1")
  /\ resolveImportPath (fs_read fs_two_candidates) posix_dirname (posix_resolve (js "/"))
                       (js "./a.js") (js "/p/b.ts") (js "/p")
     = js "/p/a.js.ts".
Proof. vm_compute. repeat split. Qed.

Lemma resolveImportPath_first_readable_candidate_witness :
  resolveImportPath (fs_read fs_default) posix_dirname (posix_resolve (js "/"))
                    (js "./a") (js "/p/b.ts") (js "/p")
  = js "/p/a.ts".
Proof.
  pose proof (resolveImportPath_first_readable_candidate
                (fs_read fs_default) posix_dirname (posix_resolve (js "/"))
                (js "./a") (js "/p/b.ts") (js "/p")) as (_ & H & _).
  apply (H [] (js ".ts")
           [js ".tsx"; js ".js"; js ".jsx"; js ".mjs";
            js "/index.ts"; js "/index.tsx"; js "/index.js"]).
  - reflexivity.
  - intros e [].
  - vm_compute. discriminate.
Defined.

(** C5 does not hold as the specification states it: nothing exists below
    [/missing], the traversal finds no file there, and the scan returns a
    report, the empty one, instead of an error. *)
Lemma missing_root_gives_empty_report :
  fs_read [] (js "/missing") = None
  /\ scan [] [] (js "/missing") no_options = Some (ScanResult.Make [] 0 0 0 0).
Proof. vm_compute. split; reflexivity. Qed.

(** The default export [run] of [a.ts] is matched by [import main from
    './a'] in [b.ts]. *)
Example default_export_scenario :
  scan_project fs_default no_options
  = Some (ScanResult.Make
            [FileAnalysis.Make (js "/p/a.ts")
               [ExportAnalysis.Make (item "run" TDefault "/p/a.ts" 1 true 19)
                                    1 [js "/p/b.ts"] false]
               0 1]
            1 0 1 0).
Proof. vm_compute. reflexivity. Qed.

Lemma default_export_matches_default_import_witness :
  uses (item "run" TDefault "/p/a.ts" 1 true 19)
       (reference "default" "/p/a" "/p/b.ts" 1 true) = true.
Proof.
  pose (exp := item "run" TDefault "/p/a.ts" 1 true 19).
  pose (imp := reference "default" "/p/a" "/p/b.ts" 1 true).
  assert (H1 : ExportedItem.isDefault exp = true) by reflexivity.
  assert (H2 : ImportReference.isDefault imp = true) by reflexivity.
  assert (H3 : stripExt (ImportReference.fromFile imp) = stripExt (ExportedItem.file exp))
    by (vm_compute; reflexivity).
  assert (H4 : In imp [imp]) by (simpl; auto).
  exact (proj1 (default_export_matches_default_import [imp] exp imp H1 H2 H3 H4)).
Defined.

(** With the type exports left out, [a.ts], which declares an interface
    only, has no entry in the report although [b.ts] imports [Foo]. *)
Example type_only_file_scenario :
  scan_project fs_types no_options
  = Some (ScanResult.Make
            [FileAnalysis.Make (js "/p/b.ts")
               [ExportAnalysis.Make (item "b" TConst "/p/b.ts" 2 false 11) 0 [] true]
               1 0]
            1 1 0 11).
Proof. vm_compute. reflexivity. Qed.

Lemma includeTypes_false_removes_type_exports_witness :
  ScanResult.totalExports (report_of (scan_project fs_types no_options))
  = length (filter (fun e => negb (is_type_export e))
                   (fst (scanned (fs_read fs_types) posix_dirname (posix_resolve (js "/"))
                                 (js "/p") (files_of fs_types)))).
Proof.
  assert (H1 : includeTypes no_options <> Some true) by discriminate.
  assert (H2 : fs_glob (files_of fs_types) DEFAULT_INCLUDE (js "/p") (excludes_of no_options)
               = Some (files_of fs_types)) by (vm_compute; reflexivity).
  assert (H3 : analyzeExports (fs_read fs_types) posix_dirname (posix_resolve (js "/"))
                              (fs_glob (files_of fs_types)) (js "/p") no_options
               = Some (report_of (scan_project fs_types no_options)))
    by (vm_compute; reflexivity).
  exact (proj1 (includeTypes_false_removes_type_exports
                  (fs_read fs_types) posix_dirname (posix_resolve (js "/"))
                  (fs_glob (files_of fs_types)) (js "/p") no_options
                  (files_of fs_types) _ H1 H2 H3)).
Defined.

(** Three files, one export each, none imported. *)
Example three_unused_exports_scenario :
  let report := report_of (scan_project fs_three no_options) in
  ScanResult.totalExports report = 3
  /\ ScanResult.unusedExports report = 3
  /\ ScanResult.usedExports report = 0
  /\ ScanResult.estimatedSavings report = 16 + 13 + 13.
Proof. vm_compute. repeat split. Qed.

Lemma report_totals_are_sums_witness :
  ScanResult.totalExports (report_of (scan_project fs_three no_options)) = 3.
Proof.
  pose (report := report_of (scan_project fs_three no_options)).
  assert (H2 : fs_glob (files_of fs_three) DEFAULT_INCLUDE (js "/p") (excludes_of no_options)
               = Some (files_of fs_three)) by (vm_compute; reflexivity).
  assert (H3 : analyzeExports (fs_read fs_three) posix_dirname (posix_resolve (js "/"))
                              (fs_glob (files_of fs_three)) (js "/p") no_options
               = Some report) by (vm_compute; reflexivity).
  destruct (report_totals_are_sums
              (fs_read fs_three) posix_dirname (posix_resolve (js "/"))
              (fs_glob (files_of fs_three)) (js "/p") no_options
              (files_of fs_three) report H2 H3) as (_ & _ & _ & _ & H).
  apply (H (item "alpha" TFunction "/p/a.ts" 1 false 16)
           (item "beta" TConst "/p/b.ts" 1 false 13)
           (item "Gamma" TClass "/p/c.ts" 1 false 13)).
  - vm_compute. reflexivity.
  - intros e imp _ Himp. vm_compute in Himp. destruct Himp.
Defined.

(** An export imported by name from another file is used by that file. *)
Example named_import_scenario :
  scan_project [ (js "/p/a.ts", js "export function helper() {}");
                 (js "/p/b.ts", js "import { helper } from './a'") ] no_options
  = Some (ScanResult.Make
            [FileAnalysis.Make (js "/p/a.ts")
               [ExportAnalysis.Make (item "helper" TFunction "/p/a.ts" 1 false 16)
                                    1 [js "/p/b.ts"] false]
               0 1]
            1 0 1 0).
Proof. vm_compute. reflexivity. Qed.

(** An import from a bare package specifier yields no reference. *)
Example bare_package_scenario :
  imports_in [] (js "import { x } from 'react'") "/p/b.ts" = [].
Proof. vm_compute. reflexivity. Qed.

(* ================================================================= *)
(** ** Running the matcher on texts with unknown parts

    The scans below are run on texts such as [import d, { ... } from '...']
    in which the identifiers and the specifier are arbitrary.  Where the
    first attempt of the matcher succeeds, its result is computed step by
    step: a literal passes over itself, a greedy class run passes over a
    maximal run of the class. *)

Lemma m_Seq : forall a b c cs k,
    m (Seq a b) c cs k = m a c cs (fun c' cs' => m b c' cs' k).
Proof. reflexivity. Qed.

Lemma m_Group : forall n a c cs k,
    m (Group n a) c cs k
    = m a c cs (fun c' cs' => k c' ((n, firstn (cpos c' - cpos c) (crest c)) :: cs')).
Proof. reflexivity. Qed.

Lemma m_Star : forall a c cs k,
    m (Star a) c cs k = star_loop (m a) (length (crest c)) c cs k.
Proof. reflexivity. Qed.

Lemma m_Alt_left : forall a b c cs k res,
    m a c cs k = Some res -> m (Alt a b) c cs k = Some res.
Proof. intros. simpl. now rewrite H. Qed.

Lemma m_Chr_hit : forall p pos prev x s cs k,
    p x = true ->
    m (Chr p) (Cur pos prev (x :: s)) cs k = k (Cur (S pos) (Some x) s) cs.
Proof. intros. simpl. now rewrite H. Qed.

Lemma m_Chr_miss : forall p pos prev x s cs k,
    p x = false -> m (Chr p) (Cur pos prev (x :: s)) cs k = None.
Proof. intros. simpl. now rewrite H. Qed.

Lemma strip_app : forall l text s, strip l text = Some s -> text = l ++ s.
Proof.
  induction l as [|x l IH]; intros text s H; simpl in H.
  - now injection H as ->.
  - destruct text as [|y t]; [discriminate|].
    destruct (N.eqb_spec y x); [|discriminate]. subst.
    simpl. f_equal. now apply IH.
Qed.

Lemma m_Lit_app : forall l pos prev s cs k,
    m (Lit l) (Cur pos prev (l ++ s)) cs k
    = k (Cur (pos + length l) (prev_after l prev) s) cs.
Proof.
  induction l as [|x l IH]; intros pos prev s cs k.
  - simpl. now rewrite Nat.add_0_r.
  - cbn [Lit app]. rewrite m_Seq, m_Chr_hit by apply N.eqb_refl.
    rewrite IH. simpl. now rewrite Nat.add_succ_r.
Qed.

Lemma m_Lit_strip : forall l text s pos prev cs k,
    strip l text = Some s ->
    m (Lit l) (Cur pos prev text) cs k
    = k (Cur (pos + length l) (prev_after l prev) s) cs.
Proof. intros. apply strip_app in H. subst. apply m_Lit_app. Qed.

Lemma star_loop_run : forall p w fuel pos prev rest cs k res,
    all_in p w -> stops p rest -> length w <= fuel ->
    k (Cur (pos + length w) (prev_after w prev) rest) cs = Some res ->
    star_loop (m (Chr p)) fuel (Cur pos prev (w ++ rest)) cs k = Some res.
Proof.
  intros p. induction w as [|x w IH]; intros fuel pos prev rest cs k res Hw Hs Hf Hk.
  - simpl in *. rewrite Nat.add_0_r in Hk. destruct fuel as [|f]; simpl; [exact Hk|].
    destruct rest as [|y rest]; simpl in *; [exact Hk|].
    rewrite Hs. exact Hk.
  - inversion Hw as [|? ? Hx Hw']; subst.
    destruct fuel as [|f]; [simpl in Hf; lia|].
    cbn [star_loop app]. rewrite m_Chr_hit by exact Hx. cbn [cpos].
    replace (S pos <=? pos) with false by (symmetry; apply Nat.leb_gt; lia).
    rewrite (IH f (S pos) (Some x) rest cs k res); auto.
    + simpl in Hf. lia.
    + simpl in Hk. now rewrite Nat.add_succ_r in Hk.
Qed.

(** A greedy [p*] passes over a maximal run of [p] when what follows
    matches from there. *)
Lemma m_Star_run : forall p w rest pos prev cs k res,
    all_in p w -> stops p rest ->
    k (Cur (pos + length w) (prev_after w prev) rest) cs = Some res ->
    m (Star (Chr p)) (Cur pos prev (w ++ rest)) cs k = Some res.
Proof.
  intros. rewrite m_Star. cbn [crest]. apply star_loop_run; auto.
  rewrite length_app. lia.
Qed.

(** The same for [p+] and a non-empty run. *)
Lemma m_Plus_run : forall p w rest pos prev cs k res,
    w <> [] -> all_in p w -> stops p rest ->
    k (Cur (pos + length w) (prev_after w prev) rest) cs = Some res ->
    m (Plus (Chr p)) (Cur pos prev (w ++ rest)) cs k = Some res.
Proof.
  intros p w rest pos prev cs k res Hne Hw Hs Hk.
  destruct w as [|x w]; [contradiction|].
  inversion Hw as [|? ? Hx Hw']; subst.
  unfold Plus. cbn [app]. rewrite m_Seq, m_Chr_hit by exact Hx.
  apply m_Star_run; auto.
  simpl in Hk. now rewrite Nat.add_succ_r in Hk.
Qed.

(** The same for a capturing [(p+)]: the group holds the run. *)
Lemma m_Group_Plus_run : forall n p w rest pos prev cs k res,
    w <> [] -> all_in p w -> stops p rest ->
    k (Cur (pos + length w) (prev_after w prev) rest) ((n, w) :: cs) = Some res ->
    m (Group n (Plus (Chr p))) (Cur pos prev (w ++ rest)) cs k = Some res.
Proof.
  intros n p w rest pos prev cs k res Hne Hw Hs Hk.
  rewrite m_Group. apply m_Plus_run; auto. cbn [cpos crest].
  replace (pos + length w - pos) with (length w) by lia.
  rewrite firstn_app, Nat.sub_diag, firstn_all. simpl. now rewrite app_nil_r.
Qed.

Lemma match_here_intro : forall r c c' cs,
    m r c [] accept = Some (c', cs) -> match_here r c = Some (RMatch c c' cs).
Proof. intros. unfold match_here. now rewrite H. Qed.

Lemma search_here : forall r pos prev s x,
    match_here r (Cur pos prev s) = Some x -> search r pos prev s = Some x.
Proof. intros. destruct s; simpl; now rewrite H. Qed.

(** A scan whose first match ends where nothing more matches has that one
    match. *)
Lemma matchAll_single : forall r content x,
    content <> [] ->
    exec r (start_of content) = Some x -> exec r (mend x) = None ->
    matchAll r content = [x].
Proof.
  intros r content x Hne H1 H2. unfold matchAll.
  destruct content as [|y content]; [contradiction|].
  cbn [length]. rewrite exec_loop_S, H1, exec_loop_S, H2. reflexivity.
Qed.

Lemma matchAll_none : forall r content,
    exec r (start_of content) = None -> matchAll r content = [].
Proof. intros. unfold matchAll. now rewrite exec_loop_S, H. Qed.

(* ----------------------------------------------------------------- *)
(** *** Character classes *)

Lemma isWord_cases : forall c,
    isWord c = true ->
    (97 <= c <= 122 \/ 65 <= c <= 90 \/ 48 <= c <= 57 \/ c = 95)%N.
Proof.
  intros c H. unfold isWord, between in H.
  repeat (apply orb_true_iff in H as [H|H]).
  - apply andb_true_iff in H as [H1 H2]. apply N.leb_le in H1, H2. lia.
  - apply andb_true_iff in H as [H1 H2]. apply N.leb_le in H1, H2. lia.
  - apply andb_true_iff in H as [H1 H2]. apply N.leb_le in H1, H2. lia.
  - apply N.eqb_eq in H. lia.
Qed.

Lemma eqb_false_of : forall c x : N, c <> x -> N.eqb c x = false.
Proof. intros. now apply N.eqb_neq. Qed.

Lemma between_false : forall a b c, (c < a \/ b < c)%N -> between a b c = false.
Proof.
  intros a b c H. unfold between. apply andb_false_iff.
  destruct H; [left | right]; apply N.leb_gt; lia.
Qed.

Lemma isWord_not_space : forall c, isWord c = true -> isSpace c = false.
Proof.
  intros c H. apply isWord_cases in H.
  unfold isSpace, isLineTerminator.
  rewrite !eqb_false_of by lia. rewrite between_false by lia. reflexivity.
Qed.

Lemma isWord_not_terminator : forall c, isWord c = true -> isLineTerminator c = false.
Proof.
  intros c H. apply isWord_cases in H. unfold isLineTerminator.
  rewrite !eqb_false_of by lia. reflexivity.
Qed.

Lemma isWord_not_char : forall x c,
    isWord x = false -> isWord c = true -> isChar x c = false.
Proof.
  intros x c Hx Hc. unfold isChar. apply N.eqb_neq. intros ->. congruence.
Qed.

Lemma isWord_isNot : forall x c,
    isWord x = false -> isWord c = true -> isNot x c = true.
Proof.
  intros x c Hx Hc. unfold isNot. fold (isChar x c).
  now rewrite (isWord_not_char x c Hx Hc).
Qed.

Lemma all_in_impl : forall (p q : char -> bool) w,
    (forall c, p c = true -> q c = true) -> all_in p w -> all_in q w.
Proof. intros p q w H. apply Forall_impl. exact H. Qed.

Lemma all_in_app : forall p a b, all_in p a -> all_in p b -> all_in p (a ++ b).
Proof. intros. apply Forall_app. now split. Qed.

Lemma all_in_cons : forall (p : char -> bool) x w,
    p x = true -> all_in p w -> all_in p (x :: w).
Proof. intros. now constructor. Qed.

(** A run that starts with a code unit outside [p] stops a run of [p]. *)
Lemma stops_app : forall (p q : char -> bool) w rest,
    w <> [] -> all_in q w -> (forall c, q c = true -> p c = false) ->
    stops p (w ++ rest).
Proof.
  intros p q w rest Hne Hw Hpq. destruct w as [|x w]; [contradiction|].
  inversion Hw; subst. simpl. auto.
Qed.

(* ----------------------------------------------------------------- *)
(** *** Steps of a run of the matcher *)

Ltac seq := rewrite m_Seq; cbv beta.
Ltac lit := erewrite m_Lit_strip by (vm_compute; reflexivity); cbv beta.
Ltac chr := rewrite m_Chr_hit by reflexivity; cbv beta.
Ltac class_facts :=
  solve [ discriminate | reflexivity | repeat constructor | assumption ].

(* ================================================================= *)
(** ** What a match of the scanned expressions looks like *)

Lemma Matches_Lit_inv : forall l c c',
    Matches (Lit l) c c' -> crest c = l ++ crest c'.
Proof.
  induction l as [|x l IH]; intros c c' H; simpl in H.
  - inversion H; subst. reflexivity.
  - inversion H as [| |? ? ? c2 ? H1 H2| | | | | | | |]; subst.
    inversion H1 as [|? ? y s E Hp| | | | | | | | |]; subst.
    apply IH in H2. simpl in H2. rewrite E, H2.
    unfold isChar in Hp. apply N.eqb_eq in Hp. now subst.
Qed.

Lemma Matches_Chr_inv : forall p c c',
    Matches (Chr p) c c' ->
    exists x, crest c = x :: crest c' /\ p x = true.
Proof.
  intros p c c' H. inversion H; subst. exists x. simpl. auto.
Qed.

Lemma Matches_Star_class_inv : forall p c c',
    Matches (Star (Chr p)) c c' ->
    exists w, crest c = w ++ crest c' /\ all_in p w.
Proof.
  intros p c c' H. remember (Star (Chr p)) as r eqn:Er.
  induction H; try discriminate.
  - exists []. split; [reflexivity | constructor].
  - injection Er as ->.
    apply Matches_Chr_inv in H as (x & E & Hp).
    destruct (IHMatches2 eq_refl) as (w & E2 & Hw).
    exists (x :: w). split; [|now constructor].
    rewrite E, E2. reflexivity.
Qed.

Lemma Matches_Seq_inv : forall a b c c',
    Matches (Seq a b) c c' -> exists c2, Matches a c c2 /\ Matches b c2 c'.
Proof. intros a b c c' H. inversion H; subst. eauto. Qed.

(** A match of the named-import expression starts with [import], white
    space and an opening brace. *)
Lemma namedImport_shape : forall c c',
    Matches namedImportRegex c c' ->
    exists w s, crest c = js "import" ++ w ++ LBRACE :: s /\ all_in isSpace w.
Proof.
  intros c c' H. unfold namedImportRegex in H.
  apply Matches_Seq_inv in H as (c1 & H1 & H).
  apply Matches_Seq_inv in H as (c2 & H2 & H).
  apply Matches_Seq_inv in H as (c3 & H3 & _).
  apply Matches_Lit_inv in H1.
  apply Matches_Star_class_inv in H2 as (w & E2 & Hw).
  apply Matches_Chr_inv in H3 as (x & E3 & Hx).
  unfold isChar in Hx. apply N.eqb_eq in Hx. subst x.
  exists w, (crest c3). split; [|exact Hw].
  rewrite H1, E2, E3. reflexivity.
Qed.

Lemma split_unique : forall (x : char) A B A' B',
    ~ In x A -> ~ In x B -> A ++ x :: B = A' ++ x :: B' -> A' = A.
Proof.
  intros x. induction A as [|a A IH]; intros B A' B' HA HB E.
  - destruct A' as [|y A']; [reflexivity|].
    simpl in E. injection E as <- ->. exfalso. apply HB.
    apply in_or_app. right. now left.
  - destruct A' as [|y A']; simpl in E.
    + injection E as -> _. exfalso. apply HA. now left.
    + injection E as <- E. f_equal. apply (IH B A' B'); auto.
      intro. apply HA. now right.
Qed.

Lemma all_in_not_In : forall (p : char -> bool) x w,
    p x = false -> all_in p w -> ~ In x w.
Proof.
  intros p x w Hx Hw Hin. unfold all_in in Hw. rewrite Forall_forall in Hw.
  apply Hw in Hin. congruence.
Qed.

Lemma brace_free_no_lbrace : forall w, brace_free w -> ~ In LBRACE w.
Proof. intros w H. eapply all_in_not_In; [|exact H]. reflexivity. Qed.

Lemma brace_free_no_rbrace : forall w, brace_free w -> all_in (isNot RBRACE) w.
Proof.
  intros w. apply all_in_impl. intros c H. now apply andb_true_iff in H as [_ H].
Qed.

Lemma identifier_no_lbrace : forall w, all_in isWord w -> ~ In LBRACE w.
Proof. intros w H. eapply all_in_not_In; [|exact H]. reflexivity. Qed.

Lemma not_In_app : forall (x : char) a b, ~ In x a -> ~ In x b -> ~ In x (a ++ b).
Proof. intros x a b Ha Hb H. apply in_app_or in H. tauto. Qed.

(* ================================================================= *)
(** ** The combined import [import d, { ... } from '...'] *)

Section CombinedImport.

Variables d inner spec : jsstring.
Hypothesis d_identifier : identifier d.
Hypothesis inner_brace_free : brace_free inner.
Hypothesis spec_specifier : specifier spec.

Let content : jsstring := combined_import d inner spec.

(** The named-import expression matches nowhere in the statement: its only
    opening brace follows a comma, not [import]. *)
Lemma combined_import_no_named_match :
  matchAll namedImportRegex content = [].
Proof.
  apply matchAll_none. unfold exec, start_of. cbn [cpos cprev crest].
  destruct (search namedImportRegex 0 None content) as [x|] eqn:E; [|reflexivity].
  exfalso. apply search_sound in E as (pre & Hs & _ & Hm).
  apply namedImport_shape in Hm as (w & s & Hc & Hw).
  rewrite Hc in Hs. clear Hc.
  destruct d_identifier as [_ Hd]. destruct spec_specifier as (_ & _ & Hspec).
  assert (E : pre ++ js "import" ++ w = js "import " ++ d ++ js ", ").
  { apply (split_unique LBRACE (js "import " ++ d ++ js ", ")
                        (inner ++ js "} from '" ++ spec ++ js "'")
                        (pre ++ js "import" ++ w) s).
    - repeat apply not_In_app;
        try (now apply identifier_no_lbrace); vm_compute; intuition discriminate.
    - repeat apply not_In_app;
        try (now apply brace_free_no_lbrace); vm_compute; intuition discriminate.
    - rewrite <- !app_assoc. exact Hs. }
  apply (f_equal (@rev char)) in E. rewrite !rev_app_distr in E.
  change (rev (js ", ")) with [32%N; 44%N] in E.
  change (rev (js "import")) with (js "tropmi") in E.
  unfold all_in in Hw. apply Forall_rev in Hw.
  destruct (rev w) as [|a [|b w']]; simpl in E.
  - discriminate.
  - injection E as _ E. discriminate.
  - injection E as _ E _. subst b.
    inversion Hw as [|? ? _ Hw']; subst. inversion Hw' as [|? ? Hb _]; subst.
    discriminate.
Qed.

(** The default-import expression matches the whole statement at once. *)
Lemma combined_import_default_match :
  exists x, matchAll defaultImportRegex content = [x]
            /\ index x = 0 /\ group 2 x = Some spec.
Proof.
  destruct d_identifier as [Hd0 Hd].
  destruct spec_specifier as (Hs0 & Hsq & Hsb).
  pose proof (brace_free_no_rbrace _ inner_brace_free) as Hin.
  assert (Hm : exists c' cs,
             m defaultImportRegex (start_of content) [] accept = Some (c', cs)
             /\ crest c' = [] /\ capture 2 cs = Some spec).
  { unfold defaultImportRegex, from_clause, Opt, start_of, content, combined_import.
    do 2 eexists. split.
    - seq. lit. seq.
      apply (m_Plus_run isSpace [32%N]); [> try class_facts .. | cbv beta].
      { apply (stops_app isSpace isWord); auto using isWord_not_space. }
      seq. apply (m_Group_Plus_run 1 isWord d); [> class_facts .. | cbv beta].
      seq. apply m_Alt_left.
      seq. apply (m_Star_run isSpace []); [> class_facts .. | cbv beta].
      seq. chr.
      seq. apply (m_Star_run isSpace [32%N]); [> class_facts .. | cbv beta].
      seq. chr.
      seq. apply (m_Star_run (isNot RBRACE) inner); [> class_facts .. | cbv beta].
      chr.
      seq. apply (m_Plus_run isSpace [32%N]); [> class_facts .. | cbv beta].
      seq. lit.
      seq. apply (m_Star_run isSpace [32%N]); [> class_facts .. | cbv beta].
      seq. chr.
      seq. apply (m_Group_Plus_run 2 notQuote spec); [> class_facts .. | cbv beta].
      chr. reflexivity.
    - split; reflexivity. }
  destruct Hm as (c' & cs & Hm & Hrest & Hcap).
  exists (RMatch (start_of content) c' cs). split; [|split].
  - apply matchAll_single.
    + discriminate.
    + apply search_here. now apply match_here_intro.
    + cbn [mend]. unfold exec. rewrite Hrest. reflexivity.
  - reflexivity.
  - exact Hcap.
Qed.

End CombinedImport.

(* ================================================================= *)
(** ** The namespace import [import * as name from '...'] *)

Lemma Matches_Plus_class_inv : forall p c c',
    Matches (Plus (Chr p)) c c' ->
    exists w, crest c = w ++ crest c' /\ w <> [] /\ all_in p w.
Proof.
  intros p c c' H. unfold Plus in H.
  apply Matches_Seq_inv in H as (c1 & H1 & H2).
  apply Matches_Chr_inv in H1 as (x & E1 & Hx).
  apply Matches_Star_class_inv in H2 as (w & E2 & Hw).
  exists (x :: w). rewrite E1, E2. repeat split; [discriminate | now constructor].
Qed.

Lemma Matches_Group_inv : forall n a c c',
    Matches (Group n a) c c' -> Matches a c c'.
Proof. intros n a c c' H. now inversion H. Qed.

Lemma Matches_text : forall r c c',
    Matches r c c' -> exists w, crest c = w ++ crest c'.
Proof.
  intros r c c' H. apply Matches_advanced in H as (w & [E _] & _). eauto.
Qed.

(** The text of a match of the clause [from 'spec']. *)
Lemma from_clause_shape : forall c c',
    Matches from_clause c c' ->
    exists w4 q1 w5 q2,
      crest c = js "from" ++ w4 ++ q1 :: w5 ++ q2 :: crest c'
      /\ all_in isSpace w4 /\ isQuote q1 = true /\ w5 <> [] /\ isQuote q2 = true.
Proof.
  intros c c' H. unfold from_clause in H.
  apply Matches_Seq_inv in H as (c1 & H1 & H).
  apply Matches_Seq_inv in H as (c2 & H2 & H).
  apply Matches_Seq_inv in H as (c3 & H3 & H).
  apply Matches_Seq_inv in H as (c4 & H4 & H5).
  apply Matches_Lit_inv in H1.
  apply Matches_Star_class_inv in H2 as (w4 & E2 & Hw4).
  apply Matches_Chr_inv in H3 as (q1 & E3 & Hq1).
  apply Matches_Group_inv, Matches_Plus_class_inv in H4 as (w5 & E4 & Hw5 & _).
  apply Matches_Chr_inv in H5 as (q2 & E5 & Hq2).
  exists w4, q1, w5, q2. rewrite H1, E2, E3, E4, E5. auto.
Qed.

(** The text of a match of the default-import expression. *)
Lemma defaultImport_shape : forall c c',
    Matches defaultImportRegex c c' ->
    exists w1 g o w3 w4 q1 w5 q2,
      crest c = js "import" ++ w1 ++ g ++ o ++ w3 ++
                js "from" ++ w4 ++ q1 :: w5 ++ q2 :: crest c'
      /\ (w1 <> [] /\ all_in isSpace w1)
      /\ (g <> [] /\ all_in isWord g)
      /\ (o = [] \/ exists o', o = o' ++ [RBRACE])
      /\ (w3 <> [] /\ all_in isSpace w3)
      /\ all_in isSpace w4 /\ isQuote q1 = true /\ w5 <> [] /\ isQuote q2 = true.
Proof.
  intros c c' H. unfold defaultImportRegex in H.
  apply Matches_Seq_inv in H as (c1 & H1 & H).
  apply Matches_Seq_inv in H as (c2 & H2 & H).
  apply Matches_Seq_inv in H as (c3 & H3 & H).
  apply Matches_Seq_inv in H as (c4 & H4 & H).
  apply Matches_Seq_inv in H as (c5 & H5 & H6).
  apply Matches_Lit_inv in H1.
  apply Matches_Plus_class_inv in H2 as (w1 & E2 & Hw1).
  apply Matches_Group_inv, Matches_Plus_class_inv in H3 as (g & E3 & Hg).
  apply Matches_Plus_class_inv in H5 as (w3 & E5 & Hw3).
  apply from_clause_shape in H6 as (w4 & q1 & w5 & q2 & E6 & Hw4 & Hq1 & Hw5 & Hq2).
  assert (Ho : exists o, crest c3 = o ++ crest c4
                         /\ (o = [] \/ exists o', o = o' ++ [RBRACE])).
  { unfold Opt in H4. inversion H4 as [| | |? ? ? ? Ha|? ? ? ? Hb| | | | | |]; subst.
    - apply Matches_Seq_inv in Ha as (d1 & A1 & Ha).
      apply Matches_Seq_inv in Ha as (d2 & A2 & Ha).
      apply Matches_Seq_inv in Ha as (d3 & A3 & Ha).
      apply Matches_Seq_inv in Ha as (d4 & A4 & Ha).
      apply Matches_Seq_inv in Ha as (d5 & A5 & A6).
      apply Matches_text in A1 as (t1 & T1), A2 as (t2 & T2), A3 as (t3 & T3),
                              A4 as (t4 & T4), A5 as (t5 & T5).
      apply Matches_Chr_inv in A6 as (x & T6 & Hx).
      unfold isChar in Hx. apply N.eqb_eq in Hx. subst x.
      exists (t1 ++ t2 ++ t3 ++ t4 ++ t5 ++ [RBRACE]). split.
      + rewrite T1, T2, T3, T4, T5, T6. rewrite <- !app_assoc. reflexivity.
      + right. exists (t1 ++ t2 ++ t3 ++ t4 ++ t5). now rewrite <- !app_assoc.
    - inversion Hb; subst. exists []. auto. }
  destruct Ho as (o & E4 & Ho).
  exists w1, g, o, w3, w4, q1, w5, q2.
  rewrite H1, E2, E3, E4, E5, E6. repeat split; tauto.
Qed.

(** Maximal runs of a class are read off a text in one way only. *)
Lemma run_unique : forall p a b s t,
    all_in p a -> all_in p b -> stops p s -> stops p t ->
    a ++ s = b ++ t -> a = b /\ s = t.
Proof.
  intros p. induction a as [|x a IH]; intros b s t Ha Hb Hs Ht E.
  - destruct b as [|y b]; [auto|]. simpl in E. subst s.
    inversion Hb; subst. simpl in Hs. congruence.
  - destruct b as [|y b]; simpl in E.
    + subst t. inversion Ha; subst. simpl in Ht. congruence.
    + injection E as <- E. inversion Ha; inversion Hb; subst.
      destruct (IH b s t) as [-> ->]; auto.
Qed.

(** The first code unit of a class in a text is found in one place only. *)
Lemma first_of_class : forall (p : char -> bool) A q B X q1 Y,
    all_in (fun c => negb (p c)) A -> p q1 = true ->
    A ++ q :: B = X ++ q1 :: Y ->
    (X = A /\ B = Y) \/ exists X', X = A ++ q :: X' /\ B = X' ++ q1 :: Y.
Proof.
  intros p. induction A as [|a A IH]; intros q B X q1 Y HA Hq1 E.
  - destruct X as [|x X]; simpl in E; injection E as -> E; [now left|].
    right. exists X. auto.
  - inversion HA as [|? ? Ha HA']; subst.
    destruct X as [|x X]; simpl in E; injection E as <- E.
    + rewrite Hq1 in Ha. discriminate.
    + destruct (IH q B X q1 Y HA' Hq1 E) as [[-> ->]|(X' & -> & ->)].
      * now left.
      * right. exists X'. auto.
Qed.

Lemma isSpace_not_word : forall c, isSpace c = true -> isWord c = false.
Proof.
  intros c H. destruct (isWord c) eqn:E; [|reflexivity].
  apply isWord_not_space in E. congruence.
Qed.

Lemma stops_cons : forall (p : char -> bool) x s, p x = false -> stops p (x :: s).
Proof. intros. exact H. Qed.

Lemma all_in_rev : forall p w, all_in p w -> all_in p (rev w).
Proof. intros p w H. unfold all_in. now apply Forall_rev. Qed.

Lemma rev_nonempty : forall w : jsstring, w <> [] -> rev w <> [].
Proof.
  intros w H E. apply H. apply (f_equal (@rev char)) in E.
  now rewrite rev_involutive in E.
Qed.

Section NamespaceImport.

Variables name spec : jsstring.
Hypothesis name_identifier : identifier name.
Hypothesis spec_specifier : specifier spec.

Let content : jsstring := namespace_import name spec.

(** The statement holds no opening brace for the named-import expression. *)
Lemma namespace_import_no_named_match :
  matchAll namedImportRegex content = [].
Proof.
  apply matchAll_none. unfold exec, start_of. cbn [cpos cprev crest].
  destruct (search namedImportRegex 0 None content) as [x|] eqn:E; [|reflexivity].
  exfalso. apply search_sound in E as (pre & Hs & _ & Hm).
  apply namedImport_shape in Hm as (w & s & Hc & Hw).
  rewrite Hc in Hs. clear Hc.
  destruct name_identifier as [_ Hn]. destruct spec_specifier as (_ & _ & Hspec).
  assert (Hno : ~ In LBRACE content).
  { unfold content, namespace_import.
    repeat apply not_In_app;
      try (now apply identifier_no_lbrace);
      try (now apply brace_free_no_lbrace);
      vm_compute; intuition discriminate. }
  apply Hno. rewrite Hs. apply in_or_app. right.
  apply in_or_app. right. apply in_or_app. right. now left.
Qed.

(** Before the quotes of the statement there is no [import] followed by
    white space, a word, white space and [from]: the default-import
    expression matches nowhere. *)
Lemma namespace_import_no_default_match :
  matchAll defaultImportRegex content = [].
Proof.
  apply matchAll_none. unfold exec, start_of. cbn [cpos cprev crest].
  destruct (search defaultImportRegex 0 None content) as [x|] eqn:E; [|reflexivity].
  exfalso. apply search_sound in E as (pre & Hs & _ & Hm).
  apply defaultImport_shape in Hm
    as (w1 & g & o & w3 & w4 & q1 & w5 & q2 & Hc
        & [Hw1n Hw1] & [Hgn Hg] & Ho & [Hw3n Hw3] & Hw4 & Hq1 & Hw5 & Hq2).
  rewrite Hc in Hs. clear Hc.
  destruct name_identifier as [Hnn Hn]. destruct spec_specifier as (_ & Hsq & _).
  set (A := js "import * as " ++ name ++ js " from ").
  set (P := pre ++ js "import" ++ w1 ++ g ++ o ++ w3 ++ js "from" ++ w4).
  assert (HA : all_in (fun c => negb (isQuote c)) A).
  { unfold A. apply all_in_app; [repeat constructor|].
    apply all_in_app; [|repeat constructor].
    eapply all_in_impl; [|exact Hn]. intros c Hc.
    apply isWord_cases in Hc. unfold isQuote, SQUOTE, DQUOTE.
    rewrite !eqb_false_of by lia. reflexivity. }
  assert (E : A ++ SQUOTE :: (spec ++ [SQUOTE]) = P ++ q1 :: (w5 ++ q2 :: crest (mend x))).
  { unfold A, P. rewrite <- !app_assoc. exact Hs. }
  apply (first_of_class isQuote) in E; [|exact HA|exact Hq1].
  destruct E as [[HP _]|(X' & _ & E)].
  - (* the first quote of the match is the opening quote of the statement *)
    unfold P, A in HP. apply (f_equal (@rev char)) in HP.
    rewrite !rev_app_distr in HP.
    change (rev (js " from ")) with ([32%N] ++ js "morf" ++ [32%N]) in HP.
    change (rev (js "from")) with (js "morf") in HP.
    change (rev (js "import")) with (js "tropmi") in HP.
    change (rev (js "import * as ")) with ([32%N] ++ js "sa * tropmi") in HP.
    rewrite <- !app_assoc in HP.
    apply (run_unique isSpace) in HP as [_ HP];
      [|now apply all_in_rev|repeat constructor|reflexivity|reflexivity].
    apply app_inv_head in HP.
    apply (run_unique isSpace) in HP as [_ HP];
      [|now apply all_in_rev|repeat constructor| |].
    + destruct Ho as [->|(o' & ->)].
      * cbn [rev app] in HP.
        apply (run_unique isWord) in HP as [_ HP];
          [|now apply all_in_rev|now apply all_in_rev|
           |reflexivity].
        -- change (32%N :: js "sa * tropmi") with ([32%N] ++ js "sa * tropmi") in HP.
           apply (run_unique isSpace) in HP as [_ HP];
             [|now apply all_in_rev|repeat constructor|reflexivity|reflexivity].
           discriminate.
        -- apply (stops_app isWord isSpace);
             [now apply rev_nonempty | now apply all_in_rev | apply isSpace_not_word].
      * rewrite rev_app_distr in HP. cbn [rev app] in HP.
        destruct (rev name) as [|y n'] eqn:En;
          [now apply (rev_nonempty name Hnn)|].
        injection HP as Hy _.
        assert (Hy' : isWord y = true).
        { apply all_in_rev in Hn. rewrite En in Hn. now inversion Hn. }
        rewrite <- Hy in Hy'. discriminate.
    + destruct Ho as [->|(o' & ->)].
      * cbn [rev app].
        apply (stops_app isSpace isWord);
          [now apply rev_nonempty | now apply all_in_rev | apply isWord_not_space].
      * rewrite rev_app_distr. reflexivity.
    + apply (stops_app isSpace isWord);
        [now apply rev_nonempty | now apply all_in_rev | apply isWord_not_space].
  - (* or it lies beyond it, where one quote only is left *)
    apply (first_of_class isQuote) in E; [|exact Hsq|exact Hq1].
    destruct E as [[_ E]|(X'' & _ & E)].
    + destruct w5; discriminate.
    + destruct X''; discriminate.
Qed.

End NamespaceImport.

(** The same for every statement [import * as name from 'spec']: it yields
    no import reference at all, whatever the file it names, so it makes no
    export used. *)
Lemma namespace_import_yields_no_reference :
  forall (readFileSync : jsstring -> option jsstring)
         (dirname : jsstring -> jsstring)
         (resolve : jsstring -> jsstring -> jsstring)
         name spec filePath rootDir,
    identifier name -> specifier spec ->
    extractImports readFileSync dirname resolve
                   (namespace_import name spec) filePath rootDir = [].
Proof.
  intros readFileSync dirname resolve name spec filePath rootDir Hn Hs.
  unfold extractImports.
  rewrite (namespace_import_no_named_match name spec Hn Hs).
  rewrite (namespace_import_no_default_match name spec Hn Hs).
  reflexivity.
Qed.

Lemma getLineNumber_0 : forall content, getLineNumber content 0 = 1.
Proof. reflexivity. Qed.

Lemma identifier_as_written : identifier (js "d").
Proof. split; [discriminate | repeat constructor]. Qed.

Lemma specifier_as_written : specifier (js "./a").
Proof. repeat split; try discriminate; repeat constructor. Qed.

(** A reference whose name is the marker [default] is not a use of a named
    export with another name. *)
Lemma default_reference_not_used_by_name : forall exp fromFile toFile line,
    ExportedItem.isDefault exp = false ->
    ExportedItem.name exp <> js "default" ->
    uses exp (ImportReference.Make (js "default") fromFile toFile line true) = false.
Proof.
  intros exp fromFile toFile line Hd Hn. unfold uses.
  destruct (negb (isSameFile _ exp)); [reflexivity|].
  rewrite Hd. cbn [ImportReference.name].
  apply str_eqb_neq. congruence.
Qed.



(** The named export [a] of [a.ts], imported in [b.ts] through a combined
    statement only, is reported unused; the default export is used. *)
Example combined_import_scenario :
  scan_project fs_combined no_options
  = Some (ScanResult.Make
            [FileAnalysis.Make (js "/p/a.ts")
               [ExportAnalysis.Make (item "a" TConst "/p/a.ts" 2 false 11) 0 [] true;
                ExportAnalysis.Make (item "run" TDefault "/p/a.ts" 1 true 30)
                                    1 [js "/p/b.ts"] false]
               1 1]
            2 1 1 11).
Proof. vm_compute. reflexivity. Qed.

(* ================================================================= *)
(** ** Splitting and trimming a binding list *)

Lemma dropWhile_run : forall p a rest,
    all_in p a -> stops p rest -> dropWhile p (a ++ rest) = rest.
Proof.
  intros p. induction a as [|x a IH]; intros rest Ha Hs; simpl.
  - destruct rest as [|y rest]; [reflexivity|]. simpl in *. now rewrite Hs.
  - inversion Ha as [|? ? Hx Ha']; subst. rewrite Hx. now apply IH.
Qed.

Lemma stops_app_l : forall p w rest, w <> [] -> stops p w -> stops p (w ++ rest).
Proof. intros p w rest Hne H. destruct w; [contradiction | exact H]. Qed.

(** [trim] removes the white space around a text that neither starts nor
    ends with white space. *)
Lemma trim_padded : forall a w b,
    all_in isSpace a -> all_in isSpace b ->
    w <> [] -> stops isSpace w -> stops isSpace (rev w) ->
    trim (a ++ w ++ b) = w.
Proof.
  intros a w b Ha Hb Hne Hw Hr. unfold trim.
  rewrite dropWhile_run; [|exact Ha | now apply stops_app_l].
  rewrite rev_app_distr, dropWhile_run; [apply rev_involutive| |exact Hr].
  unfold all_in. now apply Forall_rev.
Qed.

Lemma trim_plain : forall w,
    w <> [] -> stops isSpace w -> stops isSpace (rev w) -> trim w = w.
Proof.
  intros w Hne Hw Hr.
  rewrite <- (trim_padded [] w []) at 2; auto; try constructor.
  now rewrite app_nil_r.
Qed.

Lemma identifier_stops : forall w, identifier w -> stops isSpace w.
Proof.
  intros w [Hne Hw]. destruct w as [|x w]; [contradiction|].
  inversion Hw; subst. simpl. now apply isWord_not_space.
Qed.

Lemma identifier_rev : forall w, identifier w -> identifier (rev w).
Proof.
  intros w [Hne Hw]. split.
  - intro E. apply Hne. apply (f_equal (@rev char)) in E.
    now rewrite rev_involutive in E.
  - unfold all_in. now apply Forall_rev.
Qed.

Lemma trim_identifier : forall w, identifier w -> trim w = w.
Proof.
  intros w H. apply trim_plain; [apply H | now apply identifier_stops |].
  apply identifier_stops. now apply identifier_rev.
Qed.

Lemma split_on_run : forall sep w acc rest,
    all_in (fun c => negb (N.eqb c sep)) w ->
    split_on sep acc (w ++ rest) = split_on sep (rev w ++ acc) rest.
Proof.
  intros sep. induction w as [|x w IH]; intros acc rest Hw; [reflexivity|].
  inversion Hw as [|? ? Hx Hw']; subst. cbn [app split_on].
  apply negb_true_iff in Hx. rewrite Hx, IH by exact Hw'.
  cbn [rev]. now rewrite <- app_assoc.
Qed.

Lemma split_on_last : forall sep w,
    all_in (fun c => negb (N.eqb c sep)) w -> split_on sep [] w = [w].
Proof.
  intros sep w Hw. rewrite <- (app_nil_r w) at 1.
  rewrite split_on_run by exact Hw. simpl.
  now rewrite app_nil_r, rev_involutive.
Qed.

Lemma split_on_first : forall sep w rest,
    all_in (fun c => negb (N.eqb c sep)) w ->
    split_on sep [] (w ++ sep :: rest) = w :: split_on sep [] rest.
Proof.
  intros sep w rest Hw. rewrite split_on_run by exact Hw.
  cbn [split_on]. now rewrite N.eqb_refl, app_nil_r, rev_involutive.
Qed.

Lemma isWord_not_comma : forall c, isWord c = true -> not_comma c = true.
Proof.
  intros c H. apply isWord_cases in H. unfold not_comma.
  rewrite eqb_false_of by lia. reflexivity.
Qed.

(** The [as] separator matches nowhere inside an identifier. *)
Lemma split_scan_word_run : forall w pos prev rest acc,
    all_in isWord w ->
    split_scan asRegex pos prev (w ++ rest) 0 acc
    = split_scan asRegex (pos + length w) (prev_after w prev) rest 0 (rev w ++ acc).
Proof.
  induction w as [|x w IH]; intros pos prev rest acc Hw.
  - simpl. now rewrite Nat.add_0_r.
  - inversion Hw as [|? ? Hx Hw']; subst. cbn [app split_scan].
    assert (E : match_here asRegex (Cur pos prev (x :: w ++ rest)) = None).
    { unfold match_here, asRegex, Plus, ws. rewrite !m_Seq.
      now rewrite m_Chr_miss by now apply isWord_not_space. }
    rewrite E, IH by exact Hw'. cbn [length rev prev_after fold_left].
    rewrite Nat.add_succ_r, <- app_assoc. reflexivity.
Qed.

(** ... and matches [ as ] before an identifier. *)
Lemma asRegex_match : forall pos prev w,
    identifier w ->
    match_here asRegex (Cur pos prev (js " as " ++ w))
    = Some (RMatch (Cur pos prev (js " as " ++ w))
                   (Cur (pos + 4) (Some 32%N) w) []).
Proof.
  intros pos prev w [Hne Hw]. apply match_here_intro.
  unfold asRegex. rewrite m_Seq.
  apply (m_Plus_run isSpace [32%N]); [> class_facts .. | cbv beta].
  rewrite m_Seq. erewrite m_Lit_strip by (vm_compute; reflexivity). cbv beta.
  apply (m_Plus_run isSpace [32%N]); [> try class_facts .. | cbv beta].
  - apply identifier_stops. now split.
  - unfold accept. cbn [length js prev_after fold_left].
    replace (pos + 1 + 2 + 1) with (pos + 4) by lia. reflexivity.
Qed.

Lemma split_re_nonempty : forall r s,
    s <> [] -> split_re r s = split_scan r 0 None s 0 [].
Proof. intros r s H. destruct s; [contradiction | reflexivity]. Qed.

Lemma split_as_identifier : forall w,
    identifier w -> split_re asRegex w = [w].
Proof.
  intros w [Hne Hw]. rewrite split_re_nonempty by exact Hne.
  rewrite <- (app_nil_r w) at 1. rewrite split_scan_word_run by exact Hw.
  simpl. now rewrite app_nil_r, rev_involutive.
Qed.

Lemma split_as_binding : forall bar baz,
    identifier bar -> identifier baz ->
    split_re asRegex (bar ++ js " as " ++ baz) = [bar; baz].
Proof.
  intros bar baz [Hne Hw] Hbaz. rewrite split_re_nonempty.
  2: { destruct bar; [contradiction | discriminate]. }
  rewrite split_scan_word_run by exact Hw.
  change (js " as " ++ baz) with (32%N :: js "as " ++ baz) at 1.
  cbn [split_scan]. change (32%N :: js "as " ++ baz) with (js " as " ++ baz).
  rewrite asRegex_match by exact Hbaz. cbn [mend cpos].
  replace (0 + length bar + 4 <=? 0 + length bar) with false
    by (symmetry; apply Nat.leb_gt; lia).
  replace (0 + length bar + 4 - (0 + length bar) - 1) with 3 by lia.
  rewrite app_nil_r, rev_involutive. f_equal.
  cbn [js app split_scan]. cbn [split_scan].
  rewrite <- (app_nil_r baz) at 1.
  rewrite split_scan_word_run by apply Hbaz.
  simpl. now rewrite app_nil_r, rev_involutive.
Qed.

Section BindingList.

Variables foo bar baz : jsstring.
Hypothesis foo_identifier : identifier foo.
Hypothesis bar_identifier : identifier bar.
Hypothesis baz_identifier : identifier baz.

Lemma binding_list_split :
  split_comma (binding_list foo bar baz)
  = [js " " ++ foo; js " " ++ (bar ++ js " as " ++ baz) ++ js " "].
Proof.
  unfold split_comma, binding_list.
  change (js " " ++ foo ++ js ", " ++ bar ++ js " as " ++ baz ++ js " ")
    with ((js " " ++ foo) ++ 44%N :: (js " " ++ bar ++ js " as " ++ baz ++ js " ")).
  rewrite split_on_first.
  - f_equal. rewrite split_on_last.
    + now rewrite <- !app_assoc.
    + apply all_in_cons; [reflexivity|].
      apply all_in_app; [eapply all_in_impl; [apply isWord_not_comma | apply bar_identifier]|].
      repeat (apply all_in_cons; [reflexivity|]).
      apply all_in_app; [eapply all_in_impl; [apply isWord_not_comma | apply baz_identifier]|].
      repeat constructor.
  - apply all_in_cons; [reflexivity|].
    eapply all_in_impl; [apply isWord_not_comma | apply foo_identifier].
Qed.

Lemma trim_first_binding : trim (js " " ++ foo) = foo.
Proof.
  rewrite <- (app_nil_r foo) at 1.
  apply trim_padded; try (repeat constructor).
  - apply foo_identifier.
  - now apply identifier_stops.
  - apply identifier_stops. now apply identifier_rev.
Qed.

Lemma trim_second_binding :
  trim (js " " ++ (bar ++ js " as " ++ baz) ++ js " ") = bar ++ js " as " ++ baz.
Proof.
  apply trim_padded; try (repeat constructor).
  - destruct bar; [now destruct bar_identifier | discriminate].
  - apply stops_app_l; [apply bar_identifier | now apply identifier_stops].
  - rewrite rev_app_distr, rev_app_distr.
    rewrite <- app_assoc. apply stops_app_l.
    + apply (identifier_rev baz baz_identifier).
    + apply identifier_stops. now apply identifier_rev.
Qed.

(** The export extractor names the bindings by their right-hand names. *)
Lemma export_list_names_binding_list :
  export_list_names (binding_list foo bar baz) = [foo; baz].
Proof.
  unfold export_list_names. rewrite binding_list_split. cbn [map].
  rewrite trim_first_binding, trim_second_binding.
  rewrite split_as_identifier, split_as_binding by assumption.
  cbn [last_part last]. now rewrite !trim_identifier.
Qed.

(** The import extractor names them by their left-hand names. *)
Lemma import_list_names_binding_list :
  import_list_names (binding_list foo bar baz) = [foo; bar].
Proof.
  unfold import_list_names. rewrite binding_list_split. cbn [map].
  rewrite trim_first_binding, trim_second_binding.
  rewrite split_as_identifier, split_as_binding by assumption.
  cbn [first_part hd]. now rewrite !trim_identifier.
Qed.

End BindingList.

(* ================================================================= *)
(** ** The lists [export { ... }] and [import { ... } from '...'] *)

(** An expression anchored with [^] cannot match after a code unit that is
    not a line terminator. *)
Lemma search_bol_tail : forall r s pos y,
    isLineTerminator y = false -> all_in not_terminator s ->
    search (Seq Bol r) pos (Some y) s = None.
Proof.
  intros r. induction s as [|x s IH]; intros pos y Hy Hs.
  - simpl. unfold match_here. simpl. unfold at_bol. simpl. now rewrite Hy.
  - inversion Hs as [|? ? Hx Hs']; subst. cbn [search].
    assert (E : match_here (Seq Bol r) (Cur pos (Some y) (x :: s)) = None).
    { unfold match_here. rewrite m_Seq. simpl. unfold at_bol. simpl. now rewrite Hy. }
    rewrite E. apply IH; [|exact Hs'].
    unfold not_terminator in Hx. now apply negb_true_iff in Hx.
Qed.

Lemma bol_no_match : forall r content,
    all_in not_terminator content ->
    match_here (Seq Bol r) (start_of content) = None ->
    matchAll (Seq Bol r) content = [].
Proof.
  intros r content Hc H. apply matchAll_none.
  unfold exec, start_of in *. cbn [cpos cprev crest].
  destruct content as [|x s]; cbn [search]; rewrite H; [reflexivity|].
  inversion Hc as [|? ? Hx Hs]; subst.
  apply search_bol_tail; [|exact Hs].
  unfold not_terminator in Hx. now apply negb_true_iff in Hx.
Qed.

Lemma isWord_not_terminator' : forall c, isWord c = true -> not_terminator c = true.
Proof.
  intros c H. unfold not_terminator. now rewrite isWord_not_terminator.
Qed.

Section ExportList.

Variable inner : jsstring.
Hypothesis inner_nonempty : inner <> [].
Hypothesis inner_one_line : all_in not_terminator inner.
Hypothesis inner_no_rbrace : all_in (isNot RBRACE) inner.

Let content : jsstring := export_list inner.

Lemma export_list_one_line : all_in not_terminator content.
Proof.
  unfold content, export_list.
  apply all_in_app; [repeat constructor|].
  apply all_in_app; [exact inner_one_line | repeat constructor].
Qed.

(** No declaration pattern matches in the statement: after [export] and
    the white space comes a brace, not a keyword. *)
Lemma export_list_no_declaration :
  forall filePath, declared_exports content filePath = [].
Proof.
  assert (H : forall p, In p patterns -> matchAll (fst p) content = []).
  { intros p Hp. unfold patterns in Hp.
    repeat (destruct Hp as [<-|Hp]; [apply bol_no_match;
                                     [apply export_list_one_line | reflexivity]|]).
    destruct Hp. }
  intro filePath. unfold declared_exports.
  induction patterns as [|p ps IH]; [reflexivity|].
  cbn [flat_map]. rewrite (H p) by now left.
  cbn [map app]. apply IH. intros q Hq. apply H. now right.
Qed.

Lemma m_Bol_start : forall pos s cs k,
    m Bol (Cur pos None s) cs k = k (Cur pos None s) cs.
Proof. reflexivity. Qed.

(** The list expression matches the whole statement and captures the text
    between the braces. *)
Lemma export_list_match :
  exists x, matchAll namedExportRegex content = [x]
            /\ index x = 0 /\ group 1 x = Some inner.
Proof.
  assert (Hm : exists c' cs,
             m namedExportRegex (start_of content) [] accept = Some (c', cs)
             /\ crest c' = [] /\ cprev c' = Some RBRACE
             /\ capture 1 cs = Some inner).
  { unfold namedExportRegex, start_of, content, export_list.
    do 2 eexists. split.
    - seq. rewrite m_Bol_start. seq. lit.
      seq. apply (m_Star_run isSpace [32%N]); [> class_facts .. | cbv beta].
      seq. chr.
      seq. apply (m_Group_Plus_run 1 (isNot RBRACE) inner); [> class_facts .. | cbv beta].
      chr. reflexivity.
    - repeat split; reflexivity. }
  destruct Hm as (c' & cs & Hm & Hrest & Hprev & Hcap).
  exists (RMatch (start_of content) c' cs). split; [|split].
  - apply matchAll_single.
    + discriminate.
    + apply search_here. now apply match_here_intro.
    + cbn [mend]. unfold exec. rewrite Hrest, Hprev. reflexivity.
  - reflexivity.
  - exact Hcap.
Qed.

(** The items of the statement are those pushed for the names of its list. *)
Lemma extractExports_export_list : forall filePath,
    extractExports content filePath
    = fold_left (push_listed filePath 1) (export_list_names inner) [].
Proof.
  intro filePath. unfold extractExports.
  rewrite export_list_no_declaration.
  destruct export_list_match as (x & -> & Hx & Hg).
  cbn [fold_left]. unfold push_export_list.
  now rewrite Hg, Hx, getLineNumber_0.
Qed.

End ExportList.

Section ImportList.

Variable readFileSync : jsstring -> option jsstring.
Variable dirname : jsstring -> jsstring.
Variable resolve : jsstring -> jsstring -> jsstring.

Variables inner spec : jsstring.
Hypothesis inner_nonempty : inner <> [].
Hypothesis inner_no_rbrace : all_in (isNot RBRACE) inner.
Hypothesis spec_specifier : specifier spec.
Hypothesis spec_in_project : is_project_path spec = true.

Let content : jsstring := import_list inner spec.

(** The named-import expression matches the whole statement and captures
    the text between the braces and the specifier. *)
Lemma import_list_match :
  exists x, matchAll namedImportRegex content = [x]
            /\ index x = 0 /\ group 1 x = Some inner /\ group 2 x = Some spec.
Proof.
  destruct spec_specifier as (Hs0 & Hsq & _).
  assert (Hm : exists c' cs,
             m namedImportRegex (start_of content) [] accept = Some (c', cs)
             /\ crest c' = []
             /\ capture 1 cs = Some inner /\ capture 2 cs = Some spec).
  { unfold namedImportRegex, from_clause, start_of, content, import_list.
    do 2 eexists. split.
    - seq. lit.
      seq. apply (m_Star_run isSpace [32%N]); [> class_facts .. | cbv beta].
      seq. chr.
      seq. apply (m_Group_Plus_run 1 (isNot RBRACE) inner); [> class_facts .. | cbv beta].
      seq. chr.
      seq. apply (m_Star_run isSpace [32%N]); [> class_facts .. | cbv beta].
      seq. lit.
      seq. apply (m_Star_run isSpace [32%N]); [> class_facts .. | cbv beta].
      seq. chr.
      seq. apply (m_Group_Plus_run 2 notQuote spec); [> class_facts .. | cbv beta].
      chr. reflexivity.
    - repeat split; reflexivity. }
  destruct Hm as (c' & cs & Hm & Hrest & Hc1 & Hc2).
  exists (RMatch (start_of content) c' cs). split; [|repeat split].
  - apply matchAll_single.
    + discriminate.
    + apply search_here. now apply match_here_intro.
    + cbn [mend]. unfold exec. rewrite Hrest. reflexivity.
  - exact Hc1.
  - exact Hc2.
Qed.

Lemma default_imports_are_default : forall text filePath rootDir mts,
    filter (fun imp => negb (ImportReference.isDefault imp))
           (flat_map (default_import_of readFileSync dirname resolve text filePath rootDir)
                     mts) = [].
Proof.
  intros text filePath rootDir. induction mts as [|mt mts IH]; [reflexivity|].
  cbn [flat_map]. rewrite filter_app, IH, app_nil_r.
  unfold default_import_of. now destruct (negb (is_project_path _)).
Qed.

(** The named references of the statement are those of the names of its
    list that are not empty. *)
Lemma extractImports_import_list : forall filePath rootDir,
    filter (fun imp => negb (ImportReference.isDefault imp))
           (extractImports readFileSync dirname resolve content filePath rootDir)
    = map (fun name =>
             ImportReference.Make
               name (resolveImportPath readFileSync dirname resolve spec filePath rootDir)
               filePath 1 false)
          (filter (fun name => negb (is_empty name)) (import_list_names inner)).
Proof.
  intros filePath rootDir. unfold extractImports.
  rewrite filter_app, default_imports_are_default, app_nil_r.
  destruct import_list_match as (x & -> & Hx & Hg1 & Hg2).
  cbn [flat_map]. rewrite app_nil_r.
  unfold named_imports_of, group_or_empty.
  rewrite Hg1, Hg2, Hx, spec_in_project, getLineNumber_0. cbn [negb].
  apply filter_all. apply Forall_forall. intros imp Hin.
  apply in_map_iff in Hin as (n & <- & _). reflexivity.
Qed.

End ImportList.

Lemma binding_list_plain : forall foo bar baz,
    identifier foo -> identifier bar -> identifier baz ->
    binding_list foo bar baz <> []
    /\ all_in not_terminator (binding_list foo bar baz)
    /\ all_in (isNot RBRACE) (binding_list foo bar baz).
Proof.
  intros foo bar baz [_ Hfoo] [_ Hbar] [_ Hbaz]. unfold binding_list.
  split; [discriminate|]. split.
  - repeat (apply all_in_app;
            [first [ solve [repeat constructor]
                   | eapply all_in_impl; [apply isWord_not_terminator'|eassumption] ]|]).
    repeat constructor.
  - repeat (apply all_in_app;
            [first [ solve [repeat constructor]
                   | eapply all_in_impl;
                     [intros c Hc; apply (isWord_isNot RBRACE c);
                      [reflexivity | exact Hc]|eassumption] ]|]).
    repeat constructor.
Qed.

Lemma is_empty_identifier : forall w, identifier w -> is_empty w = false.
Proof. intros w [Hne _]. now destruct w. Qed.


(** The statement of the specification, as written. *)
Example export_list_scenario :
  extractExports (js "export { foo, bar as baz }") (js "/p/a.ts")
  = [item "foo" TConst "/p/a.ts" 1 false 100;
     item "baz" TConst "/p/a.ts" 1 false 100].
Proof. vm_compute. reflexivity. Qed.


(* ================================================================= *)
(** ** The consumers of an export *)

Lemma uniq_step_NoDup : forall xs acc,
    NoDup acc ->
    NoDup (fold_left (fun acc x => if mem x acc then acc else acc ++ [x]) xs acc).
Proof.
  induction xs as [|x xs IH]; intros acc H; simpl; [exact H|].
  apply IH. destruct (mem x acc) eqn:E; [exact H|].
  apply NoDup_app. repeat split.
  - exact H.
  - constructor; [intros [] | constructor].
  - intros y Hy [<-|[]]. apply mem_In in Hy. congruence.
Qed.

Lemma uniq_NoDup : forall xs, NoDup (uniq xs).
Proof. intro xs. apply uniq_step_NoDup. constructor. Qed.

(** The files recorded as using an export are exactly the importing files
    of the references that match it, each listed once; the usage count is
    their number, and the export is unused exactly when no reference
    matches. *)
Theorem consumers_of_an_export : forall allImports exp,
    let a := analyse allImports exp in
    ExportAnalysis.export a = exp
    /\ NoDup (ExportAnalysis.usedIn a)
    /\ (forall f, In f (ExportAnalysis.usedIn a) <->
                  exists imp, In imp allImports /\ uses exp imp = true
                              /\ ImportReference.toFile imp = f)
    /\ ExportAnalysis.usageCount a = length (ExportAnalysis.usedIn a)
    /\ (ExportAnalysis.isUnused a = true <->
        forall imp, In imp allImports -> uses exp imp = false).
Proof.
  intros allImports exp a. split; [reflexivity|]. split; [apply uniq_NoDup|].
  split; [|split; [reflexivity|]].
  - intro f. unfold a, analyse. cbn [ExportAnalysis.usedIn].
    rewrite uniq_In, in_map_iff. split.
    + intros (imp & Hf & Hin). apply filter_In in Hin as [Hin Hu]. eauto.
    + intros (imp & Hin & Hu & Hf). exists imp. split; [exact Hf|].
      apply filter_In. auto.
  - unfold a. rewrite isUnused_iff. split.
    + intros H imp Hin. destruct (uses exp imp) eqn:E; [|reflexivity].
      assert (Hf : In imp (filter (uses exp) allImports)) by (apply filter_In; auto).
      rewrite H in Hf. destruct Hf.
    + intro H. destruct (filter (uses exp) allImports) as [|imp l] eqn:E; [reflexivity|].
      assert (Hf : In imp (filter (uses exp) allImports)) by (rewrite E; now left).
      apply filter_In in Hf as [Hin Hu]. rewrite (H imp Hin) in Hu. discriminate.
Qed.

(* ================================================================= *)
(** ** The file map groups the analyses by file *)

Lemma uniq_snoc : forall xs x,
    uniq (xs ++ [x]) = if mem x (uniq xs) then uniq xs else uniq xs ++ [x].
Proof. intros xs x. unfold uniq. now rewrite fold_left_app. Qed.

Lemma map_get_absent_keys : forall mp key,
    map_get mp key = None -> ~ In key (map FileAnalysis.file mp).
Proof.
  induction mp as [|fa mp IH]; intros key H; simpl in *; [tauto|].
  destruct (str_eqb (FileAnalysis.file fa) key) eqn:E; [discriminate|].
  apply str_eqb_neq in E. intros [H1|H1]; [contradiction | now apply (IH key)].
Qed.

Lemma filter_in_file_snoc : forall key processed a,
    filter (in_file key) (processed ++ [a])
    = filter (in_file key) processed ++ (if in_file key a then [a] else []).
Proof. intros. rewrite filter_app. reflexivity. Qed.

Lemma record_analysis_grouped : forall processed mp a,
    grouped processed mp -> grouped (processed ++ [a]) (record_analysis mp a).
Proof.
  intros processed mp a [Hk He].
  assert (Hnd : NoDup (map FileAnalysis.file mp)) by (rewrite Hk; apply uniq_NoDup).
  destruct (record_analysis_cases mp a) as [(l1 & fa & l2 & -> & Hfa & ->)|[Hnone ->]].
  - (* the file has an entry already *)
    fold (file_of a) in Hfa.
    assert (Hin : In (file_of a) (map file_of processed)).
    { apply uniq_In. rewrite <- Hk, map_app. apply in_or_app. right. left. exact Hfa. }
    split.
    + rewrite (map_app file_of). cbn [map]. rewrite uniq_snoc.
      replace (mem (file_of a) (uniq (map file_of processed)))
        with true by (symmetry; apply mem_In; now apply uniq_In).
      rewrite <- Hk, !map_app. reflexivity.
    + rewrite map_app in Hnd. cbn [map] in Hnd. apply NoDup_remove in Hnd as [_ Hnot].
      assert (Hother : forall fa', In fa' (l1 ++ l2) ->
                 FileAnalysis.exports fa'
                 = filter (in_file (FileAnalysis.file fa')) (processed ++ [a])).
      { intros fa' Hin'. rewrite filter_in_file_snoc.
        replace (in_file (FileAnalysis.file fa') a) with false.
        - rewrite app_nil_r. apply He. apply in_app_or in Hin'.
          apply in_or_app. destruct Hin'; [now left | right; now right].
        - symmetry. apply str_eqb_neq. intro E. apply Hnot.
          rewrite <- map_app, Hfa, E. now apply in_map. }
      intros fa' Hin'. apply in_app_or in Hin' as [Hin'|[<-|Hin']].
      * apply Hother. apply in_or_app. now left.
      * cbn [push_analysis FileAnalysis.exports FileAnalysis.file].
        rewrite filter_in_file_snoc.
        replace (in_file (FileAnalysis.file fa) a) with true
          by (unfold in_file; rewrite Hfa; symmetry; apply str_eqb_refl).
        f_equal. apply He. apply in_or_app. right. now left.
      * apply Hother. apply in_or_app. now right.
  - (* the file gets a fresh entry *)
    fold (file_of a) in Hnone |- *.
    apply map_get_absent_keys in Hnone.
    assert (Hnew : ~ In (file_of a) (map file_of processed)).
    { intro H. apply Hnone. rewrite Hk. now apply uniq_In. }
    split.
    + rewrite (map_app file_of). cbn [map]. rewrite uniq_snoc.
      replace (mem (file_of a) (uniq (map file_of processed))) with false.
      * rewrite map_app, Hk. reflexivity.
      * symmetry. destruct (mem _ _) eqn:E; [|reflexivity].
        apply mem_In in E. apply (proj1 (uniq_In _ _)) in E. contradiction.
    + intros fa' Hin'. rewrite filter_in_file_snoc.
      apply in_app_or in Hin' as [Hin'|[<-|[]]].
      * replace (in_file (FileAnalysis.file fa') a) with false.
        -- rewrite app_nil_r. now apply He.
        -- symmetry. apply str_eqb_neq. intro E. apply Hnone. rewrite E.
           now apply in_map.
      * cbn [push_analysis FileAnalysis.exports FileAnalysis.file].
        replace (in_file (file_of a) a) with true
          by (unfold in_file; symmetry; apply str_eqb_refl).
        replace (filter (in_file (file_of a)) processed) with (@nil ExportAnalysis.t);
          [reflexivity|].
        symmetry. clear - Hnew. induction processed as [|b l IH]; [reflexivity|].
        simpl. unfold in_file at 1. destruct (str_eqb (file_of b) (file_of a)) eqn:E.
        -- apply str_eqb_eq in E. exfalso. apply Hnew. left. exact E.
        -- apply IH. intro H. apply Hnew. now right.
Qed.

Lemma recorded_grouped : forall todo processed mp,
    grouped processed mp ->
    grouped (processed ++ todo) (fold_left record_analysis todo mp).
Proof.
  induction todo as [|a todo IH]; intros processed mp H; simpl.
  - now rewrite app_nil_r.
  - replace (processed ++ a :: todo) with ((processed ++ [a]) ++ todo)
      by (rewrite <- app_assoc; reflexivity).
    apply IH. now apply record_analysis_grouped.
Qed.

Lemma file_map_grouped : forall analyses,
    grouped analyses (fold_left record_analysis analyses []).
Proof.
  intro analyses. apply (recorded_grouped analyses [] []).
  split; [reflexivity | intros fa []].
Qed.

(** The files of the report are the entries of the file map, sorted. *)
Lemma analyzeUsage_files : forall includeTypes allExports allImports,
    ScanResult.files (analyzeUsage includeTypes allExports allImports)
    = sort_by by_unused_desc
              (fold_left record_analysis
                         (map (analyse allImports)
                              (filteredExports includeTypes allExports)) []).
Proof.
  intros includeTypes allExports allImports.
  unfold analyzeUsage. fold (filteredExports includeTypes allExports).
  set (analyses := map (analyse allImports) (filteredExports includeTypes allExports)).
  set (mp := fold_left record_analysis analyses []).
  assert (Hok : Forall (entry_ok analyses) mp).
  { apply (recorded_ok analyses [] analyses); [reflexivity | constructor]. }
  assert (Hf : filter (fun f => 0 <? length (FileAnalysis.exports f)) mp = mp).
  { apply filter_all. eapply Forall_impl; [|exact Hok].
    intros fa (H1 & _). apply Nat.ltb_lt.
    destruct (FileAnalysis.exports fa); [contradiction | simpl; lia]. }
  rewrite Hf. now destruct (fold_left add_totals _ _) as [[? ?] ?].
Qed.

(** Every export that enters the matching is reported once, under its own
    file: the report has one entry per file that has such an export, no two
    entries for one file, and the entry of a file lists the analyses of
    the exports of that file, in the order of extraction. *)
Theorem report_groups_exports_by_file :
  forall includeTypes allExports allImports,
    let analyses := map (analyse allImports) (filteredExports includeTypes allExports) in
    let report := analyzeUsage includeTypes allExports allImports in
    NoDup (map FileAnalysis.file (ScanResult.files report))
    /\ (forall f, In f (map FileAnalysis.file (ScanResult.files report)) <->
                  exists e, In e (filteredExports includeTypes allExports)
                            /\ ExportedItem.file e = f)
    /\ (forall fa, In fa (ScanResult.files report) ->
          FileAnalysis.exports fa
          = filter (fun a => str_eqb (ExportedItem.file (ExportAnalysis.export a))
                                     (FileAnalysis.file fa))
                   analyses).
Proof.
  intros includeTypes allExports allImports analyses report.
  unfold report. rewrite analyzeUsage_files. fold analyses.
  destruct (file_map_grouped analyses) as [Hk He].
  set (mp := fold_left record_analysis analyses []) in *.
  pose proof (sort_by_perm by_unused_desc mp) as Hp.
  assert (Hkeys : Permutation (map FileAnalysis.file (sort_by by_unused_desc mp))
                              (uniq (map file_of analyses))).
  { rewrite <- Hk. now apply Permutation_map. }
  split; [|split].
  - eapply Permutation_NoDup; [symmetry; exact Hkeys | apply uniq_NoDup].
  - intro f. split.
    + intro H. apply (Permutation_in _ Hkeys), uniq_In, in_map_iff in H
        as (a & <- & Ha).
      unfold analyses in Ha. apply in_map_iff in Ha as (e & <- & Hin).
      exists e. auto.
    + intros (e & Hin & <-). apply (Permutation_in _ (Permutation_sym Hkeys)).
      apply uniq_In. apply in_map_iff. exists (analyse allImports e).
      split; [reflexivity|]. unfold analyses. now apply in_map.
  - intros fa Hin. apply He. now apply (Permutation_in _ Hp).
Qed.

(* ================================================================= *)
(** ** The counters and the order of the report *)

Lemma unused_one_sum : forall l,
    list_sum (map unused_one l) = length (filter ExportAnalysis.isUnused l).
Proof.
  induction l as [|a l IH]; [reflexivity|]. simpl. unfold unused_one at 1.
  destruct (ExportAnalysis.isUnused a); simpl; lia.
Qed.

Lemma filter_split_length : forall (A : Type) (p : A -> bool) l,
    length (filter p l) + length (filter (fun x => negb (p x)) l) = length l.
Proof.
  intros A p. induction l as [|x l IH]; [reflexivity|]. simpl.
  destruct (p x); simpl; lia.
Qed.

(** The counters of a file report count its records: [unusedCount] the
    unused ones, [usedCount] the others, and a file report is never empty;
    over the whole report, the unused and the used exports add up to the
    total, which is the number of exports that entered the matching. *)
Theorem counters_count_records :
  forall includeTypes allExports allImports,
    let filtered := filteredExports includeTypes allExports in
    let report := analyzeUsage includeTypes allExports allImports in
    (forall fa, In fa (ScanResult.files report) ->
        FileAnalysis.exports fa <> []
        /\ FileAnalysis.unusedCount fa
           = length (filter ExportAnalysis.isUnused (FileAnalysis.exports fa))
        /\ FileAnalysis.usedCount fa
           = length (filter (fun a => negb (ExportAnalysis.isUnused a))
                            (FileAnalysis.exports fa)))
    /\ ScanResult.totalExports report = length filtered
    /\ ScanResult.unusedExports report
       = length (filter (fun e => ExportAnalysis.isUnused (analyse allImports e)) filtered)
    /\ ScanResult.unusedExports report + ScanResult.usedExports report
       = ScanResult.totalExports report.
Proof.
  intros includeTypes allExports allImports filtered report.
  destruct (analyzeUsage_report includeTypes allExports allImports)
    as (_ & Hok & _ & _ & _ & H4).
  destruct (analyzeUsage_totals includeTypes allExports allImports) as (T1 & T2 & _).
  fold filtered report in Hok, H4, T1, T2.
  assert (U : ScanResult.unusedExports report
              = length (filter (fun e => ExportAnalysis.isUnused (analyse allImports e))
                               filtered)).
  { rewrite T2, unused_one_sum. clear.
    generalize filtered. intro l.
    induction l as [|e l IH]; [reflexivity|]. cbn [map filter].
    destruct (ExportAnalysis.isUnused (analyse allImports e));
      cbn [length]; now rewrite IH. }
  split; [|split; [|split]].
  - intros fa Hfa. rewrite Forall_forall in Hok.
    destruct (Hok fa Hfa) as (H1 & _ & H3 & H5).
    rewrite unused_one_sum in H3. split; [exact H1|]. split; [exact H3|].
    pose proof (filter_split_length _ ExportAnalysis.isUnused (FileAnalysis.exports fa)).
    lia.
  - rewrite T1. apply length_map.
  - exact U.
  - rewrite H4, U, T1, length_map.
    pose proof (filter_split_length
                  _ (fun e => ExportAnalysis.isUnused (analyse allImports e)) filtered)
      as H.
    cbv beta in H.
    set (u := length (filter _ filtered)) in *.
    set (v := length (filter _ filtered)) in H.
    set (t := length filtered) in *.
    lia.
Qed.

Lemma insert_sorted_In : forall cmp x l y,
    In y (insert_sorted cmp x l) <-> y = x \/ In y l.
Proof.
  intros cmp x l y. split; intro H.
  - apply (Permutation_in _ (insert_sorted_perm cmp x l)) in H.
    destruct H; [left; congruence | now right].
  - apply (Permutation_in _ (Permutation_sym (insert_sorted_perm cmp x l))).
    destruct H; [left; congruence | now right].
Qed.

Lemma insert_sorted_sorted : forall x l,
    StronglySorted unused_desc l ->
    StronglySorted unused_desc (insert_sorted by_unused_desc x l).
Proof.
  intros x. induction l as [|y l IH]; intro H; simpl.
  - repeat constructor.
  - inversion H as [|? ? Hs Hall]; subst.
    destruct (Z.ltb_spec (by_unused_desc y x) 0) as [Hlt|Hge].
    + constructor; [now apply IH|]. apply Forall_forall. intros z Hz.
      apply insert_sorted_In in Hz as [->|Hz].
      * unfold unused_desc, by_unused_desc in *. lia.
      * rewrite Forall_forall in Hall. now apply Hall.
    + constructor; [exact H|]. constructor.
      * unfold unused_desc, by_unused_desc in *. lia.
      * eapply Forall_impl; [|exact Hall]. intros z Hz.
        unfold unused_desc, by_unused_desc in *. lia.
Qed.

Lemma sort_by_sorted : forall l,
    StronglySorted unused_desc (sort_by by_unused_desc l).
Proof.
  induction l as [|x l IH]; simpl; [constructor | now apply insert_sorted_sorted].
Qed.

Lemma insert_sorted_stable : forall n x s,
    filter (fun fa => FileAnalysis.unusedCount fa =? n) (insert_sorted by_unused_desc x s)
    = filter (fun fa => FileAnalysis.unusedCount fa =? n) (x :: s).
Proof.
  intros n x. induction s as [|y s IHs]; [reflexivity|].
  cbn [insert_sorted].
  destruct (Z.ltb_spec (by_unused_desc y x) 0) as [Hlt|Hge]; [|reflexivity].
  cbn [filter]. rewrite IHs. cbn [filter].
  destruct (Nat.eqb_spec (FileAnalysis.unusedCount x) n) as [Hx|Hx];
    destruct (Nat.eqb_spec (FileAnalysis.unusedCount y) n) as [Hy|Hy];
    try reflexivity.
  unfold by_unused_desc in Hlt. lia.
Qed.

(** The sort is stable: the files with a given number of unused exports
    stay in the order they had. *)
Lemma sort_by_stable : forall n l,
    filter (fun fa => FileAnalysis.unusedCount fa =? n) (sort_by by_unused_desc l)
    = filter (fun fa => FileAnalysis.unusedCount fa =? n) l.
Proof.
  intros n. induction l as [|x l IH]; [reflexivity|].
  change (sort_by by_unused_desc (x :: l))
    with (insert_sorted by_unused_desc x (sort_by by_unused_desc l)).
  rewrite insert_sorted_stable. cbn [filter]. now rewrite IH.
Qed.

Lemma map_filter_commute :
  forall (A B : Type) (f : A -> B) (P : A -> bool) (Q : B -> bool) l,
    (forall x, In x l -> P x = Q (f x)) ->
    map f (filter P l) = filter Q (map f l).
Proof.
  intros A B f P Q. induction l as [|x l IH]; intro H; [reflexivity|].
  simpl. rewrite <- (H x) by now left.
  destruct (P x); simpl; rewrite IH; auto; intros; apply H; now right.
Qed.

(** The files of the report come in the order of their numbers of unused
    exports, largest first; among the files with the same number the order
    is that of their first export in the list that entered the matching. *)
Theorem report_order :
  forall includeTypes allExports allImports,
    let analyses := map (analyse allImports) (filteredExports includeTypes allExports) in
    let report := analyzeUsage includeTypes allExports allImports in
    StronglySorted (fun a b => FileAnalysis.unusedCount b <= FileAnalysis.unusedCount a)
                   (ScanResult.files report)
    /\ forall n,
        map FileAnalysis.file
            (filter (fun fa => FileAnalysis.unusedCount fa =? n) (ScanResult.files report))
        = filter (fun f => unused_in analyses f =? n)
                 (uniq (map (fun a => ExportedItem.file (ExportAnalysis.export a))
                            analyses)).
Proof.
  intros includeTypes allExports allImports analyses report.
  unfold report. rewrite analyzeUsage_files. fold analyses.
  split; [apply sort_by_sorted|].
  intro n. rewrite sort_by_stable.
  destruct (file_map_grouped analyses) as [Hk He].
  assert (Hok : Forall (entry_ok analyses) (fold_left record_analysis analyses [])).
  { apply (recorded_ok analyses [] analyses); [reflexivity | constructor]. }
  set (mp := fold_left record_analysis analyses []) in *.
  change (fun a => ExportedItem.file (ExportAnalysis.export a)) with file_of.
  rewrite <- Hk. apply map_filter_commute.
  intros fa Hfa. rewrite Forall_forall in Hok.
  destruct (Hok fa Hfa) as (_ & _ & H3 & _).
  rewrite H3, unused_one_sum, (He fa Hfa). reflexivity.
Qed.

(* ================================================================= *)
(** ** The scan, file by file *)

Section ScanFiles.

Variable readFileSync : jsstring -> option jsstring.
Variable dirname : jsstring -> jsstring.
Variable resolve : jsstring -> jsstring -> jsstring.

Local Abbreviation exports_in := (exports_of_file readFileSync).
Local Abbreviation imports_from := (imports_of_file readFileSync dirname resolve).

Lemma scan_files_from : forall rootDir files acc,
    fold_left (scan_file readFileSync dirname resolve rootDir) files acc
    = (fst acc ++ flat_map exports_in files,
       snd acc ++ flat_map (imports_from rootDir) files).
Proof.
  intros rootDir. induction files as [|f files IH]; intros [es ims]; simpl.
  - now rewrite !app_nil_r.
  - rewrite IH. unfold scan_file, exports_of_file, imports_of_file.
    destruct (readFileSync f); simpl; [|reflexivity].
    now rewrite <- !app_assoc.
Qed.

(** The two lists of the scan are the concatenations, in the order of the
    traversal, of what each file contributes. *)
Lemma scanned_flat_map : forall rootDir files,
    scanned readFileSync dirname resolve rootDir files
    = (flat_map exports_in files, flat_map (imports_from rootDir) files).
Proof. intros. unfold scanned. now rewrite scan_files_from. Qed.

End ScanFiles.

Lemma Permutation_filter : forall (A : Type) (p : A -> bool) l l',
    Permutation l l' -> Permutation (filter p l) (filter p l').
Proof.
  intros A p l l' H. induction H; simpl.
  - constructor.
  - destruct (p x); [now constructor | assumption].
  - destruct (p x), (p y); try reflexivity; now constructor.
  - etransitivity; eassumption.
Qed.

Lemma Permutation_flat_map' : forall (A B : Type) (f : A -> list B) l l',
    Permutation l l' -> Permutation (flat_map f l) (flat_map f l').
Proof.
  intros A B f l l' H. induction H; simpl.
  - constructor.
  - now apply Permutation_app_head.
  - rewrite !app_assoc. apply Permutation_app_tail, Permutation_app_comm.
  - etransitivity; eassumption.
Qed.

Lemma filteredExports_perm : forall includeTypes l l',
    Permutation l l' ->
    Permutation (filteredExports includeTypes l) (filteredExports includeTypes l').
Proof.
  intros [|] l l' H; unfold filteredExports; [exact H | now apply Permutation_filter].
Qed.

(** Whether an export is unused does not depend on the order of the
    imports. *)
Lemma isUnused_perm : forall imps imps' e,
    Permutation imps imps' ->
    ExportAnalysis.isUnused (analyse imps e) = ExportAnalysis.isUnused (analyse imps' e).
Proof.
  intros imps imps' e H.
  destruct (ExportAnalysis.isUnused (analyse imps' e)) eqn:E.
  - apply isUnused_iff. apply isUnused_iff in E.
    apply Permutation_nil. rewrite <- E. apply Permutation_filter. now symmetry.
  - apply isUnused_false_iff. apply isUnused_false_iff in E as (imp & Hin & Hu).
    exists imp. split; [|exact Hu]. eapply Permutation_in; [symmetry|]; eassumption.
Qed.

Lemma totals_perm : forall includeTypes es es' imps imps',
    Permutation es es' -> Permutation imps imps' ->
    let r := analyzeUsage includeTypes es imps in
    let r' := analyzeUsage includeTypes es' imps' in
    ScanResult.totalExports r = ScanResult.totalExports r'
    /\ ScanResult.unusedExports r = ScanResult.unusedExports r'
    /\ ScanResult.usedExports r = ScanResult.usedExports r'
    /\ ScanResult.estimatedSavings r = ScanResult.estimatedSavings r'.
Proof.
  intros includeTypes es es' imps imps' He Hi r r'.
  destruct (analyzeUsage_totals includeTypes es imps) as (T1 & T2 & T3).
  destruct (analyzeUsage_totals includeTypes es' imps') as (T1' & T2' & T3').
  destruct (analyzeUsage_report includeTypes es imps) as (_ & _ & _ & _ & _ & T4).
  destruct (analyzeUsage_report includeTypes es' imps') as (_ & _ & _ & _ & _ & T4').
  fold r in T1, T2, T3, T4. fold r' in T1', T2', T3', T4'.
  pose proof (filteredExports_perm includeTypes _ _ He) as Hf.
  assert (E1 : ScanResult.totalExports r = ScanResult.totalExports r').
  { rewrite T1, T1', !length_map. now apply Permutation_length. }
  assert (E2 : ScanResult.unusedExports r = ScanResult.unusedExports r').
  { rewrite T2, T2', !map_map.
    rewrite (list_sum_perm _ _ (Permutation_map _ Hf)).
    f_equal. apply map_ext. intro e. unfold unused_one.
    now rewrite (isUnused_perm imps imps' e Hi). }
  split; [exact E1|]. split; [exact E2|]. split.
  - rewrite T4, T4', E1, E2. reflexivity.
  - rewrite T3, T3', !map_map.
    rewrite (list_sum_perm _ _ (Permutation_map _ Hf)).
    f_equal. apply map_ext. intro e. unfold unused_bytes.
    now rewrite (isUnused_perm imps imps' e Hi).
Qed.

(** The totals of the report do not depend on the order in which the
    traversal returns the files: two traversals that yield the same files
    in different orders give reports with the same four totals. *)
Theorem totals_do_not_depend_on_file_order :
  forall readFileSync dirname resolve glob glob' rootDir options files files',
    glob DEFAULT_INCLUDE rootDir (excludes_of options) = Some files ->
    glob' DEFAULT_INCLUDE rootDir (excludes_of options) = Some files' ->
    Permutation files files' ->
    exists r r',
      analyzeExports readFileSync dirname resolve glob rootDir options = Some r
      /\ analyzeExports readFileSync dirname resolve glob' rootDir options = Some r'
      /\ ScanResult.totalExports r = ScanResult.totalExports r'
      /\ ScanResult.unusedExports r = ScanResult.unusedExports r'
      /\ ScanResult.usedExports r = ScanResult.usedExports r'
      /\ ScanResult.estimatedSavings r = ScanResult.estimatedSavings r'.
Proof.
  intros readFileSync dirname resolve glob glob' rootDir options files files' Hg Hg' Hp.
  rewrite !analyzeExports_eq, Hg, Hg'. eexists. eexists.
  split; [reflexivity|]. split; [reflexivity|].
  rewrite !scanned_flat_map. cbn [fst snd].
  apply totals_perm; now apply Permutation_flat_map'.
Qed.

Lemma totals_do_not_depend_on_file_order_witness :
  ScanResult.unusedExports
    (report_of (scan fs_types [js "/p/a.ts"; js "/p/b.ts"] (js "/p") no_options))
  = ScanResult.unusedExports
      (report_of (scan fs_types [js "/p/b.ts"; js "/p/a.ts"] (js "/p") no_options)).
Proof.
  destruct (totals_do_not_depend_on_file_order
              (fs_read fs_types) posix_dirname (posix_resolve (js "/"))
              (fs_glob [js "/p/a.ts"; js "/p/b.ts"])
              (fs_glob [js "/p/b.ts"; js "/p/a.ts"])
              (js "/p") no_options
              [js "/p/a.ts"; js "/p/b.ts"] [js "/p/b.ts"; js "/p/a.ts"])
    as (r & r' & H1 & H2 & _ & H & _).
  - vm_compute. reflexivity.
  - vm_compute. reflexivity.
  - apply perm_swap.
  - unfold scan. rewrite H1, H2. exact H.
Defined.

(* ================================================================= *)
(** ** Matching files whatever their extension *)

Lemma sourceExt_here : forall ext pos prev,
    In ext source_extensions ->
    exists mt, match_here sourceExtRegex (Cur pos prev ext) = Some mt
               /\ index mt = pos /\ crest (mend mt) = [].
Proof.
  intros ext pos prev H.
  repeat (destruct H as [<-|H]; [eexists; split; [reflexivity|split; reflexivity]|]).
  destruct H.
Qed.

Lemma Matches_Alt_inv : forall a b c c',
    Matches (Alt a b) c c' -> Matches a c c' \/ Matches b c c'.
Proof. intros a b c c' H. inversion H; subst; auto. Qed.

Lemma Matches_Eos_inv : forall c c', Matches Eos c c' -> c' = c /\ crest c = [].
Proof.
  intros c c' H. inversion H; subst. split; [reflexivity|].
  match goal with
  | E : at_eos ?d = true |- _ => unfold at_eos in E; now destruct (crest d)
  end.
Qed.

(** The expression matches at a cursor only when what is left of the
    subject is one of the five extensions. *)
Lemma sourceExt_shape : forall c c',
    Matches sourceExtRegex c c' -> In (crest c) source_extensions /\ crest c' = [].
Proof.
  intros c c' H. unfold sourceExtRegex in H.
  apply Matches_Seq_inv in H as (c1 & H1 & H).
  apply Matches_Chr_inv in H1 as (x & E1 & Hx).
  unfold isChar in Hx. apply N.eqb_eq in Hx. subst x.
  apply Matches_Seq_inv in H as (c2 & H2 & H3).
  apply Matches_Eos_inv in H3 as [-> E3].
  rewrite E1, E3. split; [|reflexivity].
  repeat (apply Matches_Alt_inv in H2 as [H2|H2];
          [apply Matches_Lit_inv in H2; rewrite H2, E3; simpl; tauto|]).
  apply Matches_Lit_inv in H2. rewrite H2, E3. simpl. tauto.
Qed.

Lemma no_extension_inside : forall x b ext ext',
    In ext source_extensions -> In ext' source_extensions -> x :: b ++ ext <> ext'.
Proof.
  intros x b ext ext' H H' E.
  assert (L : length b <= 0).
  { apply (f_equal (@length _)) in E. cbn [length] in E. rewrite length_app in E.
    repeat (destruct H as [<-|H]; [|]); try destruct H;
      repeat (destruct H' as [<-|H']; [|]); try destruct H';
      simpl in E; try lia;
      destruct b as [|? [|? ?]]; simpl in E; try lia; discriminate. }
  destruct b; [|simpl in L; lia]. simpl in E.
  repeat (destruct H as [<-|H]; [|]); try destruct H;
    repeat (destruct H' as [<-|H']; [|]); try destruct H'; discriminate.
Qed.

Lemma search_extension : forall base pos prev ext,
    In ext source_extensions ->
    exists mt, search sourceExtRegex pos prev (base ++ ext) = Some mt
               /\ index mt = pos + length base /\ crest (mend mt) = [].
Proof.
  induction base as [|x base IH]; intros pos prev ext H.
  - destruct (sourceExt_here ext pos prev H) as (mt & E & Hi & Hr).
    exists mt. simpl. rewrite (search_here _ _ _ _ _ E). repeat split; [lia | exact Hr].
  - cbn [app search].
    destruct (match_here sourceExtRegex (Cur pos prev (x :: base ++ ext))) as [mt|] eqn:E.
    + exfalso. apply match_here_sound in E as [_ E].
      apply sourceExt_shape in E as [E _]. cbn [crest] in E.
      exact (no_extension_inside x base ext _ H E eq_refl).
    + destruct (IH (S pos) (Some x) ext H) as (mt & Hs & Hi & Hr).
      exists mt. rewrite Hs. repeat split; [simpl; lia | exact Hr].
Qed.

Lemma stripExt_extension : forall base ext,
    In ext source_extensions -> stripExt (base ++ ext) = base.
Proof.
  intros base ext H. unfold stripExt, remove_first, exec, start_of. cbn [cpos cprev crest].
  destruct (search_extension base 0 None ext H) as (mt & -> & Hi & Hr).
  rewrite Hi, Hr, app_nil_r. simpl.
  rewrite firstn_app, Nat.sub_diag, firstn_all. simpl. apply app_nil_r.
Qed.

Lemma startsWith_app : forall p s, startsWith (p ++ s) p = true.
Proof.
  induction p as [|x p IH]; intro s; simpl; [now destruct s|].
  now rewrite N.eqb_refl, IH.
Qed.

Lemma endsWith_app : forall pre suffix, endsWith (pre ++ suffix) suffix = true.
Proof. intros. unfold endsWith. rewrite rev_app_distr. apply startsWith_app. Qed.

Lemma stripExt_other : forall s,
    existsb (endsWith s) source_extensions = false -> stripExt s = s.
Proof.
  intros s H. unfold stripExt, remove_first, exec, start_of. cbn [cpos cprev crest].
  destruct (search sourceExtRegex 0 None s) as [mt|] eqn:E; [|reflexivity].
  exfalso. apply search_sound in E as (pre & Hs & _ & Hm).
  apply sourceExt_shape in Hm as [Hin _].
  assert (T : existsb (endsWith s) source_extensions = true).
  { apply existsb_exists. exists (crest (mstart mt)). split; [exact Hin|].
    rewrite Hs at 1. apply endsWith_app. }
  congruence.
Qed.

(** [replace(/\.(ts|tsx|js|jsx|mjs)$/, '')] removes one of the five
    extensions from the end of a path, and only that: a path with one of
    them at its end loses it, whatever comes before, and any other path is
    left as it is. *)
Theorem stripExt_removes_the_final_extension :
  (forall base ext, In ext source_extensions -> stripExt (base ++ ext) = base)
  /\ (forall s, existsb (endsWith s) source_extensions = false -> stripExt s = s).
Proof. split; [exact stripExt_extension | exact stripExt_other]. Qed.

Lemma stripExt_removes_the_final_extension_witness :
  stripExt (js "/p/a.d" ++ js ".tsx") = js "/p/a.d"
  /\ stripExt (js "/p/a.json") = js "/p/a.json".
Proof.
  split.
  - apply (proj1 stripExt_removes_the_final_extension). simpl. tauto.
  - apply (proj2 stripExt_removes_the_final_extension). vm_compute. reflexivity.
Defined.

(** An import counts for the exports of every file that differs from the
    file it was resolved to by the extension only: with [fromFile] equal
    to [base + e1] and the file of the export equal to [base + e2], the
    filter predicate comes down to the comparison of the names, or, for a
    default export, to the import being a default import. *)
Theorem import_counts_across_extensions :
  forall exp imp base e1 e2,
    In e1 source_extensions -> In e2 source_extensions ->
    ImportReference.fromFile imp = base ++ e1 ->
    ExportedItem.file exp = base ++ e2 ->
    isSameFile imp exp = true
    /\ uses exp imp = if ExportedItem.isDefault exp then ImportReference.isDefault imp
                      else str_eqb (ImportReference.name imp) (ExportedItem.name exp).
Proof.
  intros exp imp base e1 e2 H1 H2 Ei Ee.
  assert (S : isSameFile imp exp = true).
  { unfold isSameFile. rewrite Ei, Ee, !stripExt_extension by assumption.
    rewrite str_eqb_refl. apply orb_true_r. }
  split; [exact S|]. unfold uses. now rewrite S.
Qed.

Lemma import_counts_across_extensions_witness :
  uses (item "helper" TFunction "/p/a.js" 1 false 16)
       (reference "helper" "/p/a.ts" "/p/b.ts" 1 false) = true.
Proof.
  assert (H1 : In (js ".ts") source_extensions) by (simpl; tauto).
  assert (H2 : In (js ".js") source_extensions) by (simpl; tauto).
  rewrite (proj2 (import_counts_across_extensions
                    (item "helper" TFunction "/p/a.js" 1 false 16)
                    (reference "helper" "/p/a.ts" "/p/b.ts" 1 false)
                    (js "/p/a") (js ".ts") (js ".js") H1 H2 eq_refl eq_refl)).
  reflexivity.
Defined.

(* ================================================================= *)
(** ** Where the matches of a scan stand *)

Lemma prev_after_app : forall a b p,
    prev_after (a ++ b) p = prev_after b (prev_after a p).
Proof. intros. unfold prev_after. apply fold_left_app. Qed.

Lemma prev_after_last : forall pre,
    match prev_after pre None with
    | None => pre = []
    | Some x => exists p, pre = p ++ [x]
    end.
Proof.
  induction pre as [|x pre _] using rev_ind; [reflexivity|].
  rewrite prev_after_app. simpl. now exists pre.
Qed.

Lemma seated_start : forall content, seated content (start_of content).
Proof. intro content. exists []. repeat split. Qed.

Lemma seated_step : forall content pos prev x s,
    seated content (Cur pos prev (x :: s)) -> seated content (Cur (S pos) (Some x) s).
Proof.
  intros content pos prev x s (pre & E & P & V). cbn [crest cpos cprev] in *.
  exists (pre ++ [x]). cbn [crest cpos cprev]. rewrite <- app_assoc. split; [exact E|].
  rewrite length_app, prev_after_app. simpl. split; [lia | reflexivity].
Qed.

Lemma Matches_seated : forall content r c c',
    Matches r c c' -> seated content c -> seated content c'.
Proof.
  intros content r c c' H. induction H; auto.
  intro Hs. destruct c as [pos prev rest]. cbn [crest cpos] in *. subst rest.
  eapply seated_step; eassumption.
Qed.

Lemma search_seated : forall content r s pos prev x,
    search r pos prev s = Some x -> seated content (Cur pos prev s) ->
    seated content (mstart x) /\ Matches r (mstart x) (mend x).
Proof.
  intros content r. induction s as [|y s IH]; intros pos prev x H Hs; cbn [search] in H.
  - destruct (match_here r (Cur pos prev [])) as [x0|] eqn:E; [|discriminate].
    injection H as ->. apply match_here_sound in E as [E1 E2]. now rewrite E1.
  - destruct (match_here r (Cur pos prev (y :: s))) as [x0|] eqn:E.
    + injection H as ->. apply match_here_sound in E as [E1 E2]. now rewrite E1.
    + apply (IH _ _ _ H). eapply seated_step; eassumption.
Qed.

Lemma exec_loop_seated : forall content r fuel c x,
    seated content c -> In x (exec_loop fuel r c) ->
    seated content (mstart x) /\ Matches r (mstart x) (mend x).
Proof.
  intros content r. induction fuel as [|f IH]; intros c x Hc Hin; simpl in Hin.
  - destruct Hin.
  - destruct (exec r c) as [y|] eqn:E; [|destruct Hin].
    assert (Hy : seated content (mstart y) /\ Matches r (mstart y) (mend y)).
    { unfold exec in E. apply (search_seated content) in E; [exact E|]. now destruct c. }
    destruct Hin as [<-|Hin]; [exact Hy|].
    apply (IH (mend y)); [|exact Hin].
    destruct Hy as [Hy1 Hy2]. eapply Matches_seated; eassumption.
Qed.

(** Every match of a scan starts at its index in the content, with the
    code unit before that index as its predecessor. *)
Lemma matchAll_seated : forall r content x,
    In x (matchAll r content) ->
    seated content (mstart x) /\ Matches r (mstart x) (mend x).
Proof.
  intros r content x H. unfold matchAll in H.
  eapply exec_loop_seated; [apply seated_start | exact H].
Qed.

Lemma Matches_Bol_inv : forall c c', Matches Bol c c' -> c' = c /\ at_bol c = true.
Proof. intros c c' H. inversion H; subst. auto. Qed.

(** An expression that starts with [^keyword] matches at the beginning of
    a line, in front of the keyword. *)
Lemma line_keyword_match : forall keyword r content x,
    In x (matchAll (Seq Bol (Seq (Lit keyword) r)) content) ->
    exists pre rest, content = pre ++ keyword ++ rest
                     /\ line_start pre /\ index x = length pre.
Proof.
  intros keyword r content x H.
  apply matchAll_seated in H as [(pre & E & P & V) Hm].
  apply Matches_Seq_inv in Hm as (c1 & H1 & Hm).
  apply Matches_Bol_inv in H1 as [-> Hb].
  apply Matches_Seq_inv in Hm as (c2 & H2 & _).
  apply Matches_Lit_inv in H2.
  exists pre, (crest c2). rewrite <- H2. split; [exact E|]. split; [|exact P].
  unfold at_bol in Hb. rewrite V in Hb.
  pose proof (prev_after_last pre) as L.
  destruct (prev_after pre None) as [y|]; [|now left].
  destruct L as [p ->]. right. now exists p, y.
Qed.

(** A match of an expression that starts with a keyword stands in front
    of the keyword. *)
Lemma keyword_match : forall keyword r content x,
    In x (matchAll (Seq (Lit keyword) r) content) ->
    exists pre rest, content = pre ++ keyword ++ rest /\ index x = length pre.
Proof.
  intros keyword r content x H.
  apply matchAll_seated in H as [(pre & E & P & V) Hm].
  apply Matches_Seq_inv in Hm as (c2 & H2 & _).
  apply Matches_Lit_inv in H2.
  exists pre, (crest c2). rewrite <- H2. auto.
Qed.

Lemma patterns_start_with_export : forall p,
    In p patterns -> exists r, fst p = Seq Bol (Seq (Lit (js "export")) r).
Proof.
  intros p H.
  repeat (destruct H as [<-|H]; [eexists; reflexivity|]). destruct H.
Qed.

(* ================================================================= *)
(** ** The items of [extractExports] *)

Lemma name_or_default_nonempty : forall g, name_or_default g <> [].
Proof. intros [[|x s]|]; discriminate. Qed.

Lemma push_listed_origin : forall filePath line names exports e,
    In e (fold_left (push_listed filePath line) names exports) ->
    In e exports
    \/ exists name, name <> [] /\ e = ExportedItem.Make name TConst filePath line false 100.
Proof.
  intros filePath line. induction names as [|n names IH]; intros exports e H; simpl in H.
  - now left.
  - apply IH in H as [H|H]; [|now right].
    unfold push_listed in H.
    destruct (negb (is_empty n) && negb (has_name exports n)) eqn:E; [|now left].
    apply in_app_or in H as [H|[<-|[]]]; [now left|].
    right. exists n. split; [|reflexivity].
    apply andb_true_iff in E as [E _]. now destruct n.
Qed.

Lemma push_export_lists_origin : forall content filePath mts exports e,
    In e (fold_left (push_export_list content filePath) mts exports) ->
    In e exports
    \/ exists mt name,
        In mt mts /\ name <> []
        /\ e = ExportedItem.Make name TConst filePath
                                 (getLineNumber content (index mt)) false 100.
Proof.
  intros content filePath. induction mts as [|mt mts IH]; intros exports e H; simpl in H.
  - now left.
  - apply IH in H as [H|(mt' & name & Hin & Hn & He)].
    + unfold push_export_list in H. apply push_listed_origin in H as [H|(name & Hn & He)].
      * now left.
      * right. exists mt, name. split; [now left | now split].
    + right. exists mt', name. split; [now right | now split].
Qed.

(** Every item comes from a match of an expression that starts with
    [^export]. *)
Lemma extractExports_origin : forall content filePath e,
    In e (extractExports content filePath) ->
    ExportedItem.file e = filePath
    /\ ExportedItem.name e <> []
    /\ (ExportedItem.isDefault e = true <-> ExportedItem.type e = TDefault)
    /\ exists r mt,
        In mt (matchAll (Seq Bol (Seq (Lit (js "export")) r)) content)
        /\ ExportedItem.line e = getLineNumber content (index mt).
Proof.
  intros content filePath e H. unfold extractExports in H.
  apply push_export_lists_origin in H as [H|(mt & name & Hin & Hn & ->)].
  - apply declared_exports_In in H as (p & mt & Hp & Hmt & ->).
    cbn [declared_item ExportedItem.file ExportedItem.name ExportedItem.isDefault
         ExportedItem.type ExportedItem.line].
    split; [reflexivity|]. split; [apply name_or_default_nonempty|]. split.
    + destruct (snd p); simpl; split; congruence.
    + destruct (patterns_start_with_export p Hp) as [r Hr]. rewrite Hr in Hmt.
      now exists r, mt.
  - cbn [ExportedItem.file ExportedItem.name ExportedItem.isDefault
         ExportedItem.type ExportedItem.line].
    split; [reflexivity|]. split; [exact Hn|]. split; [split; discriminate|].
    eexists. exists mt. split; [exact Hin | reflexivity].
Qed.

(** Every item [extractExports] returns has the scanned file as its file,
    a name that is not empty, and is a default export exactly when its
    kind is [default]; it comes from a place of the content where a line
    begins with the word [export], and its line number is the one
    [getLineNumber] gives for that place. *)
Theorem exported_items_stand_at_line_starts :
  forall content filePath e,
    In e (extractExports content filePath) ->
    ExportedItem.file e = filePath
    /\ ExportedItem.name e <> []
    /\ (ExportedItem.isDefault e = true <-> ExportedItem.type e = TDefault)
    /\ exists pre rest,
        content = pre ++ js "export" ++ rest
        /\ line_start pre
        /\ ExportedItem.line e = getLineNumber content (length pre).
Proof.
  intros content filePath e H.
  apply extractExports_origin in H as (H1 & H2 & H3 & r & mt & Hmt & Hl).
  split; [exact H1|]. split; [exact H2|]. split; [exact H3|].
  apply line_keyword_match in Hmt as (pre & rest & E & Hs & Hi).
  exists pre, rest. rewrite <- Hi. auto.
Qed.

Lemma exported_items_stand_at_line_starts_witness :
  exists pre rest,
    js "const a = 1" ++ [LF] ++ js "export { a as b }" = pre ++ js "export" ++ rest
    /\ line_start pre
    /\ 2 = getLineNumber (js "const a = 1" ++ [LF] ++ js "export { a as b }") (length pre).
Proof.
  apply (exported_items_stand_at_line_starts
           (js "const a = 1" ++ [LF] ++ js "export { a as b }") (js "/p/a.ts")
           (item "b" TConst "/p/a.ts" 2 false 100)).
  vm_compute. tauto.
Defined.

(* ================================================================= *)
(** ** The references of [extractImports] *)

Section ImportReferences.

Variable readFileSync : jsstring -> option jsstring.
Variable dirname : jsstring -> jsstring.
Variable resolve : jsstring -> jsstring -> jsstring.

Local Abbreviation resolve_path := (resolveImportPath readFileSync dirname resolve).
Local Abbreviation imports_of := (extractImports readFileSync dirname resolve).

(** Every reference comes from a match of one of the two expressions
    scanned with, whose second group is a path of the project. *)
Lemma extractImports_origin : forall content filePath rootDir i,
    In i (imports_of content filePath rootDir) ->
    exists r mt,
      In mt (matchAll (Seq (Lit (js "import")) r) content)
      /\ is_project_path (group_or_empty 2 mt) = true
      /\ ImportReference.fromFile i = resolve_path (group_or_empty 2 mt) filePath rootDir
      /\ ImportReference.toFile i = filePath
      /\ ImportReference.line i = getLineNumber content (index mt)
      /\ ImportReference.name i <> []
      /\ (ImportReference.isDefault i = true -> ImportReference.name i = js "default").
Proof.
  intros content filePath rootDir i H. unfold extractImports in H.
  apply in_app_or in H as [H|H]; apply in_flat_map in H as (mt & Hmt & H).
  - unfold named_imports_of in H.
    destruct (is_project_path (group_or_empty 2 mt)) eqn:P; [|destruct H].
    cbn [negb] in H. apply in_map_iff in H as (name & <- & Hn).
    apply filter_In in Hn as [_ Hn].
    eexists. exists mt. split; [exact Hmt|]. split; [exact P|].
    cbn [ImportReference.fromFile ImportReference.toFile ImportReference.line
         ImportReference.name ImportReference.isDefault].
    repeat split; try discriminate. now destruct name.
  - unfold default_import_of in H.
    destruct (is_project_path (group_or_empty 2 mt)) eqn:P; [|destruct H].
    cbn [negb] in H. destruct H as [<-|[]].
    eexists. exists mt. split; [exact Hmt|]. split; [exact P|].
    cbn [ImportReference.fromFile ImportReference.toFile ImportReference.line
         ImportReference.name ImportReference.isDefault].
    repeat split; discriminate.
Qed.

(** Every reference [extractImports] returns has the scanned file as its
    importing file and a name that is not empty, [default] when it is a
    default import; the file it points to is what the path resolver gives
    for a specifier that starts with [.] or [/]; it comes from a place of
    the content where the word [import] stands, and its line number is the
    one [getLineNumber] gives for that place.  The root directory plays no
    part: the references are the same for any other. *)
Theorem import_references_point_into_the_project :
  forall content filePath rootDir i,
    In i (imports_of content filePath rootDir) ->
    ImportReference.toFile i = filePath
    /\ ImportReference.name i <> []
    /\ (ImportReference.isDefault i = true -> ImportReference.name i = js "default")
    /\ (exists spec,
          is_project_path spec = true
          /\ ImportReference.fromFile i = resolve_path spec filePath rootDir)
    /\ (exists pre rest,
          content = pre ++ js "import" ++ rest
          /\ ImportReference.line i = getLineNumber content (length pre))
    /\ forall rootDir', In i (imports_of content filePath rootDir').
Proof.
  intros content filePath rootDir i H.
  destruct (extractImports_origin _ _ _ _ H)
    as (r & mt & Hmt & P & Hf & Ht & Hl & Hn & Hd).
  split; [exact Ht|]. split; [exact Hn|]. split; [exact Hd|]. split; [|split].
  - now exists (group_or_empty 2 mt).
  - apply keyword_match in Hmt as (pre & rest & E & Hi).
    exists pre, rest. rewrite <- Hi. auto.
  - intro rootDir'. exact H.
Qed.

End ImportReferences.

Lemma import_references_point_into_the_project_witness :
  exists spec,
    is_project_path spec = true
    /\ js "/p/a.ts"
       = resolveImportPath (fs_read fs_default) posix_dirname (posix_resolve (js "/"))
                           spec (js "/p/b.ts") (js "/p").
Proof.
  apply (import_references_point_into_the_project
           (fs_read fs_default) posix_dirname (posix_resolve (js "/"))
           (js "import main from './a'") (js "/p/b.ts") (js "/p")
           (reference "default" "/p/a.ts" "/p/b.ts" 1 true)).
  vm_compute. tauto.
Defined.

(* ================================================================= *)
(** ** The names an export list adds *)

Lemma has_name_false : forall exports name,
    has_name exports name = false <-> ~ In name (names_of exports).
Proof.
  intros exports name. unfold has_name, names_of. split.
  - intros H Hin. apply in_map_iff in Hin as (e & He & Hin).
    assert (T : existsb (fun e => str_eqb (ExportedItem.name e) name) exports = true).
    { apply existsb_exists. exists e. split; [exact Hin|]. now apply str_eqb_eq. }
    congruence.
  - intro H. destruct (existsb _ exports) eqn:E; [|reflexivity].
    apply existsb_exists in E as (e & Hin & He). apply str_eqb_eq in He.
    exfalso. apply H. apply in_map_iff. now exists e.
Qed.

Lemma push_listed_fresh : forall filePath declared line names added,
    Forall (listed_item filePath) added ->
    NoDup (names_of added) ->
    (forall n, In n (names_of added) -> ~ In n (names_of declared)) ->
    exists added',
      fold_left (push_listed filePath line) names (declared ++ added)
      = declared ++ added'
      /\ Forall (listed_item filePath) added'
      /\ NoDup (names_of added')
      /\ (forall n, In n (names_of added') -> ~ In n (names_of declared)).
Proof.
  intros filePath declared line. induction names as [|n names IH]; intros added H1 H2 H3.
  - exists added. auto.
  - cbn [fold_left]. unfold push_listed at 2.
    destruct (negb (is_empty n) && negb (has_name (declared ++ added) n)) eqn:E;
      [|now apply IH].
    apply andb_true_iff in E as [En Eh].
    apply negb_true_iff in Eh. apply has_name_false in Eh.
    unfold names_of in Eh. rewrite map_app in Eh.
    rewrite <- app_assoc. apply IH.
    + apply Forall_app. split; [exact H1|]. constructor; [|constructor].
      exists n, line. split; [now destruct n | reflexivity].
    + unfold names_of. rewrite map_app. apply NoDup_app. repeat split.
      * exact H2.
      * constructor; [intros [] | constructor].
      * intros y Hy [<-|[]]. apply Eh. apply in_or_app. now right.
    + intros y Hy. unfold names_of in Hy. rewrite map_app in Hy.
      apply in_app_or in Hy as [Hy|[<-|[]]]; [now apply H3|].
      intro Hd. apply Eh. apply in_or_app. now left.
Qed.

(** The items of the export lists come after those of the declarations,
    which they leave as they are; each has the kind [const], is not a
    default export and has the size 100; their names are pairwise different
    and none is the name of a declared item. *)
Theorem export_lists_add_new_names_only :
  forall content filePath,
    exists added,
      extractExports content filePath = declared_exports content filePath ++ added
      /\ Forall (fun e => ExportedItem.type e = TConst
                          /\ ExportedItem.isDefault e = false
                          /\ ExportedItem.estimatedSize e = 100
                          /\ ExportedItem.name e <> []) added
      /\ NoDup (map ExportedItem.name added)
      /\ forall n, In n (map ExportedItem.name added) ->
                   ~ In n (map ExportedItem.name (declared_exports content filePath)).
Proof.
  intros content filePath. unfold extractExports.
  set (declared := declared_exports content filePath).
  assert (G : forall mts added,
             Forall (listed_item filePath) added ->
             NoDup (names_of added) ->
             (forall n, In n (names_of added) -> ~ In n (names_of declared)) ->
             exists added',
               fold_left (push_export_list content filePath) mts (declared ++ added)
               = declared ++ added'
               /\ Forall (listed_item filePath) added'
               /\ NoDup (names_of added')
               /\ (forall n, In n (names_of added') -> ~ In n (names_of declared))).
  { induction mts as [|mt mts IH]; intros added H1 H2 H3.
    - exists added. auto.
    - cbn [fold_left]. unfold push_export_list at 2.
      destruct (push_listed_fresh
                  filePath declared (getLineNumber content (index mt))
                  (export_list_names (match group 1 mt with Some g => g | None => [] end))
                  added H1 H2 H3) as (added1 & -> & K1 & K2 & K3).
      now apply IH. }
  destruct (G (matchAll namedExportRegex content) []) as (added & E & K1 & K2 & K3).
  - constructor.
  - constructor.
  - intros n [].
  - rewrite app_nil_r in E. exists added. split; [exact E|]. split; [|split; assumption].
    eapply Forall_impl; [|exact K1].
    intros e (name & line & Hn & ->). simpl. auto.
Qed.

(* ================================================================= *)
(** ** Line numbers *)

Lemma count_line_feeds : forall s line,
    fold_left (fun line x => if N.eqb x LF then S line else line) s line
    = line + line_feeds s.
Proof.
  unfold line_feeds. induction s as [|x s IH]; intro line; simpl; [lia|].
  rewrite IH. destruct (N.eqb x LF); simpl; lia.
Qed.

Lemma line_feeds_app : forall a b, line_feeds (a ++ b) = line_feeds a + line_feeds b.
Proof. intros. unfold line_feeds. now rewrite filter_app, length_app. Qed.

(** The line of an index is one more than the number of line feeds before
    it: carriage returns and the other line terminators do not count.  An
    index beyond the end of the content is on the last line, and the line
    does not decrease with the index. *)
Theorem getLineNumber_counts_line_feeds :
  (forall pre rest, getLineNumber (pre ++ rest) (length pre) = 1 + line_feeds pre)
  /\ (forall content k,
         getLineNumber content (length content + k) = 1 + line_feeds content)
  /\ (forall content i j, getLineNumber content i <= getLineNumber content (i + j)).
Proof.
  unfold getLineNumber. split; [|split].
  - intros pre rest. rewrite count_line_feeds.
    now rewrite firstn_app, Nat.sub_diag, firstn_all, firstn_O, app_nil_r.
  - intros content k. rewrite count_line_feeds, firstn_all2 by lia. reflexivity.
  - intros content i j. rewrite !count_line_feeds.
    rewrite <- (firstn_skipn i (firstn (i + j) content)).
    rewrite firstn_firstn, Nat.min_l by lia.
    rewrite line_feeds_app. lia.
Qed.

(* ================================================================= *)
(** ** Texts without the keyword *)

Lemma occurrence_found : forall keyword pre rest,
    indexOf keyword (pre ++ keyword ++ rest) 0 <> None.
Proof.
  intros keyword pre rest H. unfold indexOf in H. cbn [Nat.min skipn] in H.
  pose proof (find_from_spec keyword (pre ++ keyword ++ rest) 0) as S.
  rewrite H in S. specialize (S (length pre)).
  rewrite skipn_app, skipn_all, Nat.sub_diag in S. cbn [skipn app] in S.
  rewrite startsWith_app in S. rewrite length_app in S.
  assert (F : true = false) by (apply S; lia). discriminate.
Qed.

(** A text in which the word [export] does not occur has no exports, and
    a text in which the word [import] does not occur yields no import
    reference. *)
Theorem nothing_without_the_keyword :
  forall readFileSync dirname resolve content filePath rootDir,
    (indexOf (js "export") content 0 = None -> extractExports content filePath = [])
    /\ (indexOf (js "import") content 0 = None ->
        extractImports readFileSync dirname resolve content filePath rootDir = []).
Proof.
  intros readFileSync dirname resolve content filePath rootDir. split; intro H.
  - destruct (extractExports content filePath) as [|e l] eqn:E; [reflexivity|].
    exfalso.
    assert (Hin : In e (extractExports content filePath)) by (rewrite E; now left).
    apply extractExports_origin in Hin as (_ & _ & _ & r & mt & Hmt & _).
    apply line_keyword_match in Hmt as (pre & rest & -> & _).
    exact (occurrence_found _ _ _ H).
  - destruct (extractImports _ _ _ content filePath rootDir) as [|i l] eqn:E;
      [reflexivity|].
    exfalso.
    assert (Hin : In i (extractImports readFileSync dirname resolve content filePath rootDir))
      by (rewrite E; now left).
    apply extractImports_origin in Hin as (r & mt & Hmt & _).
    apply keyword_match in Hmt as (pre & rest & -> & _).
    exact (occurrence_found _ _ _ H).
Qed.

Lemma nothing_without_the_keyword_witness :
  extractExports (js "import { a } from './a'") (js "/p/b.ts") = []
  /\ imports_in fs_default (js "export const a = 1") "/p/a.ts" = [].
Proof.
  split.
  - apply (proj1 (nothing_without_the_keyword
                    (fs_read fs_default) posix_dirname (posix_resolve (js "/"))
                    (js "import { a } from './a'") (js "/p/b.ts") (js "/p"))).
    vm_compute. reflexivity.
  - apply (proj2 (nothing_without_the_keyword
                    (fs_read fs_default) posix_dirname (posix_resolve (js "/"))
                    (js "export const a = 1") (js "/p/a.ts") (js "/p"))).
    vm_compute. reflexivity.
Defined.

(* ================================================================= *)
(** ** Where the report takes its files from *)

Lemma filteredExports_In : forall includeTypes allExports e,
    In e (filteredExports includeTypes allExports) -> In e allExports.
Proof.
  intros [|] allExports e H; unfold filteredExports in H; [exact H|].
  now apply filter_In in H.
Qed.

(** The report names no file the scan has not read: the file of every
    entry, and every file a record lists in [usedIn], is among the files
    of the traversal and could be read, and the export of every record is
    one of the exports extracted from the text of its file. *)
Theorem report_names_scanned_files_only :
  forall readFileSync dirname resolve glob rootDir options files report,
    glob DEFAULT_INCLUDE rootDir (excludes_of options) = Some files ->
    analyzeExports readFileSync dirname resolve glob rootDir options = Some report ->
    forall fa a,
      In fa (ScanResult.files report) -> In a (FileAnalysis.exports fa) ->
      In (FileAnalysis.file fa) files
      /\ (exists content,
            readFileSync (FileAnalysis.file fa) = Some content
            /\ In (ExportAnalysis.export a) (extractExports content (FileAnalysis.file fa)))
      /\ forall u, In u (ExportAnalysis.usedIn a) ->
                   In u files /\ readable readFileSync u = true.
Proof.
  intros readFileSync dirname resolve glob rootDir options files report Hg Hr fa a Hfa Ha.
  rewrite analyzeExports_eq, Hg, scanned_flat_map in Hr. cbn [fst snd] in Hr.
  injection Hr as <-.
  destruct (analyzeUsage_report
              (includeTypes_of options)
              (flat_map (exports_of_file readFileSync) files)
              (flat_map (imports_of_file readFileSync dirname resolve rootDir) files))
    as (_ & Hok & _).
  rewrite Forall_forall in Hok. destruct (Hok fa Hfa) as (_ & Hin & _).
  destruct (Hin a Ha) as [Hin' Hfile].
  apply in_map_iff in Hin' as (e & <- & He). apply filteredExports_In in He.
  apply in_flat_map in He as (f & Hf & He). unfold exports_of_file in He.
  destruct (readFileSync f) as [content|] eqn:R; [|destruct He].
  pose proof (extractExports_origin _ _ _ He) as (Ef & _).
  cbn [analyse ExportAnalysis.export ExportAnalysis.usedIn] in *.
  rewrite <- Hfile, Ef. split; [exact Hf|]. split; [now exists content|].
  intros u Hu. apply (proj1 (uniq_In _ _)) in Hu.
  apply in_map_iff in Hu as (imp & <- & Himp). apply filter_In in Himp as [Himp _].
  apply in_flat_map in Himp as (f' & Hf' & Himp). unfold imports_of_file in Himp.
  destruct (readFileSync f') as [content'|] eqn:R'; [|destruct Himp].
  apply extractImports_origin in Himp as (_ & _ & _ & _ & _ & -> & _).
  split; [exact Hf'|]. unfold readable. now rewrite R'.
Qed.

Lemma report_names_scanned_files_only_witness :
  In (js "/p/a.ts") (files_of fs_default)
  /\ (exists content,
         fs_read fs_default (js "/p/a.ts") = Some content
         /\ In (item "run" TDefault "/p/a.ts" 1 true 19)
               (extractExports content (js "/p/a.ts")))
  /\ forall u, In u [js "/p/b.ts"] ->
               In u (files_of fs_default) /\ readable (fs_read fs_default) u = true.
Proof.
  apply (report_names_scanned_files_only
           (fs_read fs_default) posix_dirname (posix_resolve (js "/"))
           (fs_glob (files_of fs_default)) (js "/p") no_options
           (files_of fs_default)
           (report_of (scan_project fs_default no_options))
           eq_refl eq_refl
           (FileAnalysis.Make (js "/p/a.ts")
              [ExportAnalysis.Make (item "run" TDefault "/p/a.ts" 1 true 19)
                                   1 [js "/p/b.ts"] false] 0 1)
           (ExportAnalysis.Make (item "run" TDefault "/p/a.ts" 1 true 19)
                                1 [js "/p/b.ts"] false)).
  - vm_compute. tauto.
  - simpl. tauto.
Defined.

(* ================================================================= *)
(** ** The size estimate *)

(** For every text of fewer than [2^49] code units the size estimate is
    what the binary64 computation of [Math.round(code.length * 0.6)]
    gives, and it is the integer nearest to six tenths of the length, from
    which it differs by four tenths at most: the rounding never meets a
    tie. *)
Theorem estimateSize_is_the_nearest_integer :
  forall code,
    (Z.of_nat (length code) < 2 ^ 49)%Z ->
    Z.of_nat (estimateSize code) = estimateSize_double (Z.of_nat (length code))
    /\ 10 * estimateSize code <= 6 * length code + 4
    /\ 6 * length code <= 10 * estimateSize code + 4.
Proof.
  intros code H. split.
  - rewrite estimateSize_double_exact by lia.
    unfold estimateSize. rewrite Nat2Z.inj_div. f_equal. lia.
  - unfold estimateSize.
    pose proof (Nat.div_mod (6 * length code + 5) 10) as D.
    pose proof (Nat.mod_upper_bound (6 * length code + 5) 10) as U.
    assert (O : (6 * length code + 5) mod 2 = 1).
    { replace (6 * length code + 5) with (1 + (3 * length code + 2) * 2) by lia.
      now rewrite Nat.Div0.mod_add. }
    assert (O' : (10 * ((6 * length code + 5) / 10)
                  + (6 * length code + 5) mod 10) mod 2 = 1) by (rewrite <- D; [exact O | lia]).
    set (q := (6 * length code + 5) / 10) in *.
    set (r := (6 * length code + 5) mod 10) in *.
    assert (R : r mod 2 = 1).
    { replace (10 * q + r) with (r + (5 * q) * 2) in O' by lia.
      now rewrite Nat.Div0.mod_add in O'. }
    assert (r <> 0) by (intro Z; rewrite Z in R; discriminate).
    lia.
Qed.

Lemma estimateSize_is_the_nearest_integer_witness :
  Z.of_nat (estimateSize (js "export { foo }")) = estimateSize_double 14.
Proof.
  apply (proj1 (estimateSize_is_the_nearest_integer (js "export { foo }") eq_refl)).
Defined.

(* ================================================================= *)
(** ** The command line *)

Lemma isUnused_forallb : forall imps e,
    ExportAnalysis.isUnused (analyse imps e)
    = forallb (fun i => negb (uses e i)) imps.
Proof.
  intros imps e.
  destruct (forallb (fun i => negb (uses e i)) imps) eqn:F.
  - apply isUnused_iff. rewrite forallb_forall in F.
    induction imps as [|i imps IH]; [reflexivity|]. simpl.
    pose proof (F i (or_introl eq_refl)) as Hi. apply negb_true_iff in Hi.
    rewrite Hi. apply IH. intros x Hx. apply F. now right.
  - apply isUnused_false_iff.
    assert (N : ~ (forall i, In i imps -> negb (uses e i) = true)).
    { intro A. apply forallb_forall in A. congruence. }
    induction imps as [|i imps IH]; [discriminate|].
    destruct (uses e i) eqn:U.
    + exists i. split; [now left | exact U].
    + simpl in F. rewrite U in F. simpl in F.
      destruct IH as (x & Hx & Hu); [exact F| |].
      * intro A. apply forallb_forall in A. congruence.
      * exists x. split; [now right | exact Hu].
Qed.

Lemma some_unused : forall (p : ExportedItem.t -> bool) l,
    (0 <? length (filter p l)) = existsb p l.
Proof.
  intros p. induction l as [|x l IH]; [reflexivity|]. simpl.
  destruct (p x); simpl; [reflexivity | exact IH].
Qed.

(** How the command ends.  When the traversal fails the spinner fails, the
    error is printed, no result is, and the command exits with 1.
    Otherwise, with [--json] it returns normally whatever the report says;
    without, it exits with 1 exactly when one of the exports that enter
    the matching (the type exports only with [--include-types]) is used
    by none of the imports of the files scanned.  The traversal ignores
    the default patterns followed by those of [--ignore]. *)
Theorem exit_status_of_the_command :
  forall readFileSync dirname resolve glob resolve_cwd pathArg options,
    let run := action readFileSync dirname resolve glob resolve_cwd pathArg options in
    let root := resolve_cwd pathArg in
    match glob DEFAULT_INCLUDE root
               (DEFAULT_EXCLUDE ++ ignorePatterns (Cli.ignore options)) with
    | None => run = ([SpinnerStart; SpinnerFail; ConsoleError], Exit1)
    | Some files =>
        let exports := filteredExports (Cli.includeTypes options)
                                       (flat_map (exports_of_file readFileSync) files) in
        let imports := flat_map (imports_of_file readFileSync dirname resolve root) files in
        snd run
        = if Cli.json options then Returns
          else if existsb (fun e => forallb (fun i => negb (uses e i)) imports) exports
               then Exit1 else Returns
    end.
Proof.
  intros readFileSync dirname resolve glob resolve_cwd pathArg options run root.
  unfold run, action. fold root. rewrite analyzeExports_eq.
  unfold excludes_of, includeTypes_of. cbn [exclude includeTypes].
  destruct (glob DEFAULT_INCLUDE root _) as [files|]; [|reflexivity].
  rewrite scanned_flat_map. cbn [fst snd].
  set (imports := flat_map (imports_of_file readFileSync dirname resolve root) files).
  set (exports := filteredExports (Cli.includeTypes options)
                                  (flat_map (exports_of_file readFileSync) files)).
  destruct (Cli.json options); [reflexivity|]. cbn [snd].
  destruct (analyzeUsage_totals
              (Cli.includeTypes options)
              (flat_map (exports_of_file readFileSync) files) imports) as (_ & T & _).
  fold exports in T. rewrite T, unused_one_sum.
  replace (length (filter ExportAnalysis.isUnused (map (analyse imports) exports)))
    with (length (filter (fun e => ExportAnalysis.isUnused (analyse imports e)) exports)).
  - rewrite some_unused.
    replace (existsb (fun e => ExportAnalysis.isUnused (analyse imports e)) exports)
      with (existsb (fun e => forallb (fun i => negb (uses e i)) imports) exports);
      [reflexivity|].
    clear. induction exports as [|e l IH]; [reflexivity|]. cbn [existsb].
    now rewrite IH, isUnused_forallb.
  - clear. induction exports as [|e l IH]; [reflexivity|]. cbn [map filter].
    destruct (ExportAnalysis.isUnused (analyse imports e)); cbn [length]; now rewrite IH.
Qed.

(* ----------------------------------------------------------------- *)
(** *** The patterns of [--ignore] *)

Lemma dropWhile_spec : forall p s,
    exists a, s = a ++ dropWhile p s /\ all_in p a /\ stops p (dropWhile p s).
Proof.
  intros p. induction s as [|x s (a & E & Ha & Hs)]; simpl.
  - exists []. repeat split. constructor.
  - destruct (p x) eqn:Px.
    + exists (x :: a). split; [simpl; now rewrite <- E|]. split; [now constructor | exact Hs].
    + exists []. repeat split; [constructor | exact Px].
Qed.

(** [trim] removes white space from both ends, and nothing else. *)
Lemma trim_spec : forall s,
    exists a b, s = a ++ trim s ++ b
                /\ all_in isSpace a /\ all_in isSpace b
                /\ stops isSpace (trim s) /\ stops isSpace (rev (trim s)).
Proof.
  intro s. unfold trim.
  destruct (dropWhile_spec isSpace s) as (a & Ea & Ha & Hs).
  set (t := dropWhile isSpace s) in *.
  destruct (dropWhile_spec isSpace (rev t)) as (b & Eb & Hb & Hu).
  set (u := dropWhile isSpace (rev t)) in *.
  assert (Et : t = rev u ++ rev b).
  { rewrite <- (rev_involutive t), Eb, rev_app_distr. reflexivity. }
  exists a, (rev b). split; [now rewrite <- Et|].
  split; [exact Ha|]. split; [unfold all_in; now apply Forall_rev|].
  split; [|now rewrite rev_involutive].
  destruct (rev u) as [|y w] eqn:Er; [exact I|].
  rewrite Et in Hs. exact Hs.
Qed.

Lemma split_on_spec : forall sep s acc,
    join_on sep (split_on sep acc s) = rev acc ++ s
    /\ split_on sep acc s <> []
    /\ (~ In sep acc -> Forall (fun p => ~ In sep p) (split_on sep acc s)).
Proof.
  intros sep. induction s as [|x s IH]; intro acc; cbn [split_on].
  - split; [simpl; now rewrite !app_nil_r|]. split; [discriminate|].
    intro H. constructor; [|constructor]. now rewrite <- in_rev.
  - destruct (N.eqb_spec x sep) as [->|Hx].
    + destruct (IH []) as (J & N & F). split; [|split; [discriminate|]].
      * cbn [join_on]. destruct (split_on sep [] s) as [|p ps] eqn:E; [contradiction|].
        cbn [flat_map]. cbn [join_on rev app] in J. cbn [app]. now rewrite J.
      * intro H. constructor; [now rewrite <- in_rev | apply F; intros []].
    + destruct (IH (x :: acc)) as (J & N & F). split; [|split; [exact N|]].
      * rewrite J. simpl. now rewrite <- app_assoc.
      * intro H. apply F. intros [E|E]; [now apply Hx | contradiction].
Qed.

(** An empty [--ignore] adds no pattern.  A value that is not empty is cut
    at its commas: the pieces, joined by commas again, give the value
    back, none contains a comma, and the patterns handed to the traversal
    are the pieces, one for one, each without the white space at its two
    ends and otherwise unchanged. *)
Theorem ignore_patterns_are_the_trimmed_pieces :
  forall ignore,
    ignore <> [] ->
    exists pieces,
      join_on 44%N pieces = ignore
      /\ Forall (fun p => ~ In 44%N p) pieces
      /\ ignorePatterns ignore = map trim pieces
      /\ pieces <> []
      /\ Forall (fun p => exists a b,
                     p = a ++ trim p ++ b
                     /\ all_in isSpace a /\ all_in isSpace b
                     /\ stops isSpace (trim p) /\ stops isSpace (rev (trim p)))
                pieces.
Proof.
  intros ignore H. exists (split_comma ignore). unfold split_comma.
  destruct (split_on_spec 44%N ignore []) as (J & N & F).
  split; [exact J|]. split; [apply F; intros []|]. split.
  - unfold ignorePatterns. destruct ignore; [contradiction | reflexivity].
  - split; [exact N|]. apply Forall_forall. intros p _. apply trim_spec.
Qed.

Lemma ignore_patterns_are_the_trimmed_pieces_witness :
  exists pieces,
    join_on 44%N pieces = js "tmp/** , *.gen.ts"
    /\ Forall (fun p => ~ In 44%N p) pieces
    /\ ignorePatterns (js "tmp/** , *.gen.ts") = map trim pieces.
Proof.
  destruct (ignore_patterns_are_the_trimmed_pieces (js "tmp/** , *.gen.ts"))
    as (pieces & H1 & H2 & H3 & _).
  - discriminate.
  - exists pieces. auto.
Defined.

(* ================================================================= *)
(** ** The output *)



(** The colour switch covers the kinds: none falls through to white, and
    two kinds get the same colour exactly when they are the same kind, or
    [const] and [variable], or [type] and [interface]. *)
Theorem every_kind_has_its_colour :
  forall t t' : ExportType,
    getTypeColor (type_name t) <> White
    /\ (getTypeColor (type_name t) = getTypeColor (type_name t')
        <-> t = t'
            \/ (In t [TConst; TVariable] /\ In t' [TConst; TVariable])
            \/ (In t [TType; TInterface] /\ In t' [TType; TInterface])).
Proof.
  intros t t'. split; [destruct t; discriminate|].
  split.
  - destruct t, t'; intro H; try (now left); try discriminate H;
      simpl; tauto.
  - intros [->|[[H1 H2]|[H1 H2]]]; [reflexivity| |];
      simpl in H1, H2; intuition (subst; reflexivity).
Qed.

(* ================================================================= *)
(** ** The listings of a report of the analyzer *)

Lemma list_sum_cons : forall x l, list_sum (x :: l) = x + list_sum l.
Proof. reflexivity. Qed.

Lemma flat_map_lines : forall (A B : Type) (f : A -> list B) l,
    length (flat_map f l) = list_sum (map (fun x => length (f x)) l).
Proof.
  intros A B f. induction l as [|x l IH]; [reflexivity|].
  simpl. now rewrite length_app, IH.
Qed.

Lemma unusedCount_zero : forall l fa,
    entry_ok l fa ->
    (FileAnalysis.unusedCount fa =? 0)
    = negb (existsb ExportAnalysis.isUnused (FileAnalysis.exports fa)).
Proof.
  intros l fa (_ & _ & H & _). rewrite H, unused_one_sum. clear.
  induction (FileAnalysis.exports fa) as [|a s IH]; [reflexivity|]. simpl.
  destruct (ExportAnalysis.isUnused a); [reflexivity | exact IH].
Qed.

Lemma sum_over_files_with_unused : forall l fas,
    Forall (entry_ok l) fas ->
    list_sum (map (fun fa => if FileAnalysis.unusedCount fa =? 0 then 0
                             else 2 + 2 * FileAnalysis.unusedCount fa) fas)
    = 2 * length (filter (fun fa => existsb ExportAnalysis.isUnused (FileAnalysis.exports fa))
                         fas)
      + 2 * list_sum (map FileAnalysis.unusedCount fas).
Proof.
  intros l. induction 1 as [|fa fas Hfa _ IH]; [reflexivity|].
  cbn [map filter]. rewrite !list_sum_cons, IH.
  pose proof (unusedCount_zero l fa Hfa) as Z.
  destruct (existsb _ (FileAnalysis.exports fa)) eqn:E; cbn [negb length] in *.
  - rewrite Z. lia.
  - rewrite Z. apply Nat.eqb_eq in Z. lia.
Qed.

Lemma no_unused_no_file : forall l fas,
    Forall (entry_ok l) fas ->
    (list_sum (map FileAnalysis.unusedCount fas) = 0
     <-> filter (fun fa => existsb ExportAnalysis.isUnused (FileAnalysis.exports fa)) fas
         = []).
Proof.
  intros l. induction 1 as [|fa fas Hfa _ IH]; [tauto|].
  cbn [map filter]. rewrite list_sum_cons.
  pose proof (unusedCount_zero l fa Hfa) as Z.
  destruct (existsb _ (FileAnalysis.exports fa)); cbn [negb] in Z.
  - apply Nat.eqb_neq in Z. split; [lia | discriminate].
  - apply Nat.eqb_eq in Z. rewrite Z. exact IH.
Qed.

Section Listings.

Variable chalk : list style -> jsstring -> jsstring.
Variable relative : jsstring -> jsstring -> jsstring.

Lemma compact_files : forall l cwd fas,
    Forall (entry_ok l) fas ->
    flat_map (print_compact_file chalk relative cwd) fas
    = flat_map (fun fa => [ js "  " ++ chalk [Colored Gray] (relative cwd (FileAnalysis.file fa));
                            js "    " ++ chalk [Colored Red] (unusedNames fa) ])
               (filter (fun fa => existsb ExportAnalysis.isUnused (FileAnalysis.exports fa))
                       fas).
Proof.
  intros l cwd. induction 1 as [|fa fas Hfa _ IH]; [reflexivity|].
  cbn [flat_map filter]. unfold print_compact_file at 1.
  rewrite (unusedCount_zero l fa Hfa), IH.
  now destruct (existsb _ (FileAnalysis.exports fa)).
Qed.

(** The compact listing of a report of the analyzer.  The report has no
    unused export exactly when none of its files has an unused record, and
    then two lines are printed.  Otherwise the lines between the heading
    and the savings are a path line and a names line for each file that
    has an unused record, in the order of the report, and for no other
    file: [6 + 2 k] lines for [k] such files. *)
Theorem compact_listing_of_a_report :
  forall includeTypes allExports allImports cwd,
    let report := analyzeUsage includeTypes allExports allImports in
    let lines := printCompactResult chalk relative report cwd in
    (ScanResult.unusedExports report = 0 <-> files_with_unused report = [])
    /\ flat_map (print_compact_file chalk relative cwd) (ScanResult.files report)
       = flat_map (fun fa =>
                     [ js "  " ++ chalk [Colored Gray] (relative cwd (FileAnalysis.file fa));
                       js "    " ++ chalk [Colored Red] (unusedNames fa) ])
                  (files_with_unused report)
    /\ length lines = if ScanResult.unusedExports report =? 0 then 2
                      else 6 + 2 * length (files_with_unused report).
Proof.
  intros includeTypes allExports allImports cwd report lines.
  destruct (analyzeUsage_report includeTypes allExports allImports)
    as (_ & Hok & _ & Hu & _).
  fold report in Hok, Hu. unfold files_with_unused.
  split; [rewrite Hu; eapply no_unused_no_file; exact Hok|].
  split; [eapply compact_files; exact Hok|].
  unfold lines, printCompactResult.
  destruct (ScanResult.unusedExports report =? 0); [reflexivity|].
  rewrite (compact_files _ cwd _ Hok).
  cbn [app length]. rewrite length_app, flat_map_lines. cbn [length].
  set (fs := filter _ (ScanResult.files report)). clearbody fs.
  assert (E : list_sum (map (fun _ : FileAnalysis.t => 2) fs) = 2 * length fs).
  { induction fs as [|x fs IH]; [reflexivity|].
    cbn [map length]. rewrite list_sum_cons. lia. }
  rewrite E. lia.
Qed.

Lemma print_export_lines : forall showUsed exp,
    length (print_export chalk showUsed exp)
    = if ExportAnalysis.isUnused exp then 2 else if showUsed then 2 else 0.
Proof.
  intros showUsed exp. unfold print_export.
  destruct (ExportAnalysis.isUnused exp), showUsed; reflexivity.
Qed.

Lemma print_exports_lines : forall showUsed exps,
    length (flat_map (print_export chalk showUsed) exps)
    = if showUsed then 2 * length exps
      else 2 * length (filter ExportAnalysis.isUnused exps).
Proof.
  intros showUsed. induction exps as [|a exps IH]; [now destruct showUsed|].
  cbn [flat_map filter]. rewrite length_app, IH, print_export_lines.
  destruct (ExportAnalysis.isUnused a), showUsed; simpl; lia.
Qed.

Lemma print_file_lines : forall l cwd showUsed fa,
    entry_ok l fa ->
    length (print_file chalk relative cwd showUsed fa)
    = if showUsed then 2 + 2 * exports_count fa
      else if FileAnalysis.unusedCount fa =? 0 then 0
           else 2 + 2 * FileAnalysis.unusedCount fa.
Proof.
  intros l cwd showUsed fa Hfa. unfold print_file.
  pose proof Hfa as (_ & _ & H & _). rewrite unused_one_sum in H.
  destruct showUsed; cbn [negb].
  - rewrite andb_false_r. cbn [app length].
    rewrite length_app, print_exports_lines. unfold exports_count. simpl. lia.
  - rewrite andb_true_r. destruct (FileAnalysis.unusedCount fa =? 0); [reflexivity|].
    cbn [app length]. rewrite length_app, print_exports_lines, <- H. simpl. lia.
Qed.

(** The full listing of a report of the analyzer has four lines when no
    export is unused.  Otherwise it has seventeen lines around the files,
    two for each file shown and two for each export shown: with
    [showUsed], every file and every export of the report; without, the
    files that have an unused record and the unused exports.  Every unused
    export of the report is then shown, with its name, its kind and its
    line. *)
Theorem full_listing_of_a_report :
  forall includeTypes allExports allImports cwd showUsed,
    let report := analyzeUsage includeTypes allExports allImports in
    let lines := printScanResult chalk relative report cwd showUsed in
    length lines
    = (if ScanResult.unusedExports report =? 0 then 4
       else if showUsed
            then 17 + 2 * length (ScanResult.files report)
                 + 2 * ScanResult.totalExports report
            else 17 + 2 * length (files_with_unused report)
                 + 2 * ScanResult.unusedExports report)
    /\ forall fa a,
        In fa (ScanResult.files report) -> In a (FileAnalysis.exports fa) ->
        ExportAnalysis.isUnused a = true ->
        let e := ExportAnalysis.export a in
        In (js "  " ++ chalk [Colored Red] CROSS_MARK ++ js " " ++ ExportedItem.name e
              ++ js "() " ++ typeLabel chalk (ExportedItem.type e)) lines
        /\ In (chalk [Colored Gray]
                     (js "     Line " ++ decimal (N.of_nat (ExportedItem.line e))
                        ++ js " - exported but never imported")) lines.
Proof.
  intros includeTypes allExports allImports cwd showUsed report lines.
  destruct (analyzeUsage_report includeTypes allExports allImports)
    as (_ & Hok & Ht & Hu & _).
  fold report in Hok, Ht, Hu. split.
  - unfold lines, printScanResult.
    destruct (ScanResult.unusedExports report =? 0); [reflexivity|].
    cbn [app length]. rewrite length_app, flat_map_lines. cbn [length].
    assert (E : map (fun fa => length (print_file chalk relative cwd showUsed fa))
                    (ScanResult.files report)
                = map (fun fa => if showUsed then 2 + 2 * exports_count fa
                                 else if FileAnalysis.unusedCount fa =? 0 then 0
                                      else 2 + 2 * FileAnalysis.unusedCount fa)
                      (ScanResult.files report)).
    { apply map_ext_in. intros fa Hfa. rewrite Forall_forall in Hok.
      eapply print_file_lines. apply Hok. exact Hfa. }
    rewrite E. destruct showUsed.
    + rewrite Ht. clear.
      induction (ScanResult.files report) as [|fa fas IH]; [reflexivity|].
      cbn [map length] in *. rewrite !list_sum_cons. lia.
    + rewrite (sum_over_files_with_unused _ _ Hok), Hu. unfold files_with_unused. lia.
  - intros fa a Hfa Ha Hun e.
    assert (Hpe : forall line, In line (print_export chalk showUsed a) -> In line lines).
    { intros line Hl. unfold lines, printScanResult.
      rewrite Forall_forall in Hok. pose proof (Hok fa Hfa) as Hfa_ok.
      pose proof (unusedCount_zero _ fa Hfa_ok) as Z.
      assert (Ex : existsb ExportAnalysis.isUnused (FileAnalysis.exports fa) = true).
      { apply existsb_exists. now exists a. }
      rewrite Ex in Z. cbn [negb] in Z.
      assert (Nz : (ScanResult.unusedExports report =? 0) = false).
      { apply Nat.eqb_neq. rewrite Hu. apply Nat.eqb_neq in Z.
        apply in_split in Hfa as (l1 & l2 & ->).
        rewrite map_app, list_sum_app. simpl. lia. }
      rewrite Nz. apply in_or_app. right. apply in_or_app. right.
      apply in_or_app. left.
      apply in_flat_map. exists fa. split; [exact Hfa|].
      unfold print_file. rewrite Z. cbn [andb].
      apply in_or_app. right. apply in_or_app. left.
      apply in_flat_map. now exists a. }
    split; apply Hpe; unfold print_export; rewrite Hun; fold e; simpl; tauto.
Qed.

End Listings.
